(** * repo_appdata.c: the AppData / AppStream metadata parser of libsolv

    A shallow embedding of [ext/repo_appdata.c].  The content buffer
    [pd->content] is modelled as the array of bytes the C code works on
    (a [list ascii] of length [pd->acontent]); every read or write outside
    the array, and every read of a string that has no terminator inside
    the array, makes the modelled function return [None].

    C [int] values that are array indices or lengths are natural numbers;
    counters that the code compares with each other are integers.  Signed
    overflow is undefined in C and is not modelled. *)

From Stdlib Require Import Ascii String ZArith Lia.
From stdpp Require Import base tactics option list functions strings numbers.

Local Open Scope Z_scope.
Local Open Scope nat_scope.

(** ** Bytes and C strings *)

Definition NUL : ascii := "000"%char.
Definition SP : ascii := " "%char.
Definition TAB : ascii := "009"%char.
Definition NL : ascii := "010"%char.

(** A string literal of the source, as the bytes before its terminator. *)
Definition lit (s : string) : list ascii := list_ascii_of_string s.

(** The C string stored at the start of a byte array: the bytes before the
    first NUL.  A byte array without NUL holds no string ([None]): the C
    code would read past the end of the array. *)
Fixpoint c_str (b : list ascii) : option (list ascii) :=
  match b with
  | [] => None
  | c :: b' => if decide (c = NUL) then Some [] else (c ::.) <$> c_str b'
  end.

(** [strlen] *)
Definition strlen (b : list ascii) : option nat := length <$> c_str b.

(** [b[i] = c] *)
Definition store (b : list ascii) (i : nat) (c : ascii) : option (list ascii) :=
  if decide (i < length b) then Some (<[i:=c]> b) else None.

(** [memmove(b + dst, b + src, n)] inside the array [b]. *)
Definition memmove (b : list ascii) (dst src n : nat) : option (list ascii) :=
  if decide (src + n ≤ length b ∧ dst + n ≤ length b)
  then Some (take dst b ++ take n (drop src b) ++ drop (dst + n) b)
  else None.

(** [for (i = 0; i < n; i++) b[l + i] = c] *)
Fixpoint fill (b : list ascii) (l n : nat) (c : ascii) : option (list ascii) :=
  match n with
  | 0 => Some b
  | S n' => b' ← store b l c; fill b' (S l) n' c
  end.

(** [strcmp(a, b) == 0] on two C strings. *)
Definition streq (a b : list ascii) : bool := bool_decide (a = b).

(** [strncmp(a, b, n) == 0] on two C strings. *)
Definition strneq (a b : list ascii) (n : nat) : bool :=
  bool_decide (take n a = take n b).

(** [strcpy(r + off, src)]: [src] and its terminator are written into the
    array [r] from index [off] on. *)
Definition strcpy_at (r : list ascii) (off : nat) (src : list ascii)
  : option (list ascii) :=
  if decide (off + length src + 1 ≤ length r)
  then Some (take off r ++ src ++ NUL :: drop (off + length src + 1) r)
  else None.

Definition is_ws (c : ascii) : bool :=
  bool_decide (c = SP) || bool_decide (c = TAB) || bool_decide (c = NL).

(** ** The state table *)

Inductive state :=
  | STATE_START | STATE_APPLICATION | STATE_ID | STATE_PKGNAME
  | STATE_LICENCE | STATE_NAME | STATE_SUMMARY | STATE_DESCRIPTION
  | STATE_P | STATE_UL | STATE_UL_LI | STATE_OL | STATE_OL_LI
  | STATE_URL | STATE_GROUP | STATE_KEYWORDS | STATE_KEYWORD
  | STATE_EXTENDS | NUMSTATES.

Global Instance state_eq_dec : EqDecision state.
Proof. solve_decision. Defined.

(** [struct stateswitch]; [ename] is [None] for the null pointer of the
    last row. *)
Record stateswitch := Stateswitch {
  from : state;
  ename : option (list ascii);
  to : state;
  sw_docontent : bool
}.

Definition sw (f : state) (n : string) (t : state) (d : bool) : stateswitch :=
  Stateswitch f (Some (lit n)) t d.

Definition stateswitches : list stateswitch := [
  sw STATE_START       "applications"    STATE_START       false;
  sw STATE_START       "components"      STATE_START       false;
  sw STATE_START       "application"     STATE_APPLICATION false;
  sw STATE_START       "component"       STATE_APPLICATION false;
  sw STATE_APPLICATION "id"              STATE_ID          true;
  sw STATE_APPLICATION "pkgname"         STATE_PKGNAME     true;
  sw STATE_APPLICATION "product_license" STATE_LICENCE     true;
  sw STATE_APPLICATION "name"            STATE_NAME        true;
  sw STATE_APPLICATION "summary"         STATE_SUMMARY     true;
  sw STATE_APPLICATION "description"     STATE_DESCRIPTION false;
  sw STATE_APPLICATION "url"             STATE_URL         true;
  sw STATE_APPLICATION "project_group"   STATE_GROUP       true;
  sw STATE_APPLICATION "keywords"        STATE_KEYWORDS    false;
  sw STATE_APPLICATION "extends"         STATE_EXTENDS     true;
  sw STATE_DESCRIPTION "p"               STATE_P           true;
  sw STATE_DESCRIPTION "ul"              STATE_UL          false;
  sw STATE_DESCRIPTION "ol"              STATE_OL          false;
  sw STATE_UL          "li"              STATE_UL_LI       true;
  sw STATE_OL          "li"              STATE_OL_LI       true;
  sw STATE_KEYWORDS    "keyword"         STATE_KEYWORD     true;
  Stateswitch NUMSTATES None STATE_START false
].

(** The loop of [repo_add_appdata_fn] that fills [pd.swtab] (for every
    state the index of its first row, [None] for the null pointer) and
    [pd.sbtab] (for every state the [from] of the last row that leads to
    it; [STATE_START] after the [memset]).  Both tables are written once,
    before the first event, and only read afterwards. *)
Fixpoint build_tabs (i : nat) (sws : list stateswitch)
    (swtab : state → option nat) (sbtab : state → state)
  : (state → option nat) * (state → state) :=
  match sws with
  | [] => (swtab, sbtab)
  | s :: rest =>
    if decide (from s = NUMSTATES) then (swtab, sbtab)
    else build_tabs (S i) rest
           (match swtab (from s) with
            | None => <[from s := Some i]> swtab
            | Some _ => swtab
            end)
           (<[to s := from s]> sbtab)
  end.

Definition swtab : state → option nat :=
  (build_tabs 0 stateswitches (λ _, None) (λ _, STATE_START)).1.
Definition sbtab : state → state :=
  (build_tabs 0 stateswitches (λ _, None) (λ _, STATE_START)).2.

(** The scan of [startElement]:
    [for (sw = pd->swtab[pd->state]; sw->from == pd->state; sw++)
       if (!strcmp(sw->ename, name)) break;]
    followed by the test [sw->from != pd->state].  [None]: no row of the
    state has the name. *)
Fixpoint find_switch (rows : list stateswitch) (st : state) (name : list ascii)
  : option stateswitch :=
  match rows with
  | [] => None
  | s :: rest =>
    if decide (from s = st) then
      match ename s with
      | Some en => if streq en name then Some s else find_switch rest st name
      | None => None
      end
    else None
  end.

(** ** The package store *)

(** Modelled from the spec: the identifiers of the pool ([pool.h],
    [poolid.h] are not part of the sources at hand).  "Intern a string to
    an identifier": two strings have the same identifier exactly when they
    are equal; identifier 0 is the null identifier; [pool_rel2id] interns
    a relation of a name, a version and comparison flags. *)
Inductive Id :=
  | ID_NULL
  | IdStr (s : list ascii)
  | IdRel (n e : Id) (flags : Z).

Global Instance Id_eq_dec : EqDecision Id.
Proof.
  refine (fix go (x y : Id) : Decision (x = y) :=
    match x, y with
    | ID_NULL, ID_NULL => left _
    | IdStr s, IdStr t => cast_if (decide (s = t))
    | IdRel n e f, IdRel n' e' f' =>
        cast_if_and3 (go n n') (go e e') (decide (f = f'))
    | _, _ => right _
    end); congruence.
Defined.

Definition pool_str2id (s : list ascii) : Id := IdStr s.
Definition pool_strn2id (s : list ascii) (l : nat) : Id := IdStr (take l s).
Definition pool_rel2id (n e : Id) (flags : Z) : Id := IdRel n e flags.

(** [pool_tmpjoin(pool, a, b, c)] with null pointers left out. *)
Definition pool_tmpjoin (a b c : list ascii) : list ascii := a ++ b ++ c.

(** The fields of [Solvable] that the parser reads or writes.  The
    dependency arrays are the lists behind the two offsets; offset 0 is
    the empty list. *)
Record Solvable := mkSolvable {
  name : Id;
  arch : Id;
  evr : Id;
  requires : list Id;
  provides : list Id
}.

Definition new_solvable : Solvable := mkSolvable ID_NULL ID_NULL ID_NULL [] [].

(** Modelled from the spec: [repo_addid_dep] ([repo.c] is not part of the
    sources at hand) with marker 0.  "Add a requires/provides relation to
    a record", where the relations of a record form a set: an identifier
    that is already in the array is not added again. *)
Definition repo_addid_dep (deps : list Id) (id : Id) : list Id :=
  if decide (id ∈ deps) then deps else deps ++ [id].

Inductive keyname :=
  | SOLVABLE_CATEGORY | SOLVABLE_SUMMARY | SOLVABLE_URL
  | SOLVABLE_DESCRIPTION | SOLVABLE_LICENSE | SOLVABLE_GROUP
  | SOLVABLE_EXTENDS | SOLVABLE_KEYWORDS.

Global Instance keyname_eq_dec : EqDecision keyname.
Proof. solve_decision. Defined.

Inductive attr :=
  | AttrStr (s : list ascii)
  | AttrId (i : Id)
  | AttrIdArray (l : list Id).

(** Modelled from the spec: the attribute store [Repodata] ([repodata.c]
    is not part of the sources at hand), with the three operations the
    parser uses: "set a scalar string field on a record" (as a string or as
    an interned string) and "append a string to an ordered/array field". *)
Definition Repodata := nat → keyname → option attr.

Definition repodata_set (data : Repodata) (h : nat) (k : keyname) (a : attr)
  : Repodata :=
  λ h' k', if decide (h' = h ∧ k' = k) then Some a else data h' k'.

Definition repodata_set_str (data : Repodata) (h : nat) (k : keyname)
    (s : list ascii) : Repodata :=
  repodata_set data h k (AttrStr s).

Definition repodata_set_poolstr (data : Repodata) (h : nat) (k : keyname)
    (s : list ascii) : Repodata :=
  repodata_set data h k (AttrId (pool_str2id s)).

Definition repodata_add_poolstr_array (data : Repodata) (h : nat)
    (k : keyname) (s : list ascii) : Repodata :=
  repodata_set data h k
    (AttrIdArray (match data h k with
                  | Some (AttrIdArray l) => l ++ [pool_str2id s]
                  | _ => [pool_str2id s]
                  end)).

(** Modelled from the spec: [solv_dupappend] ([util.c] is not part of the
    sources at hand): the new string is the old one, when there is one,
    followed by the two others; a null pointer counts as the empty
    string. *)
Definition solv_dupappend (str1 : option (list ascii)) (str2 str3 : list ascii)
  : option (list ascii) :=
  Some (default [] str1 ++ str2 ++ str3).

(** ** The parser state *)

(** [struct parsedata].  [pool] is the array [pool->solvables]; [solvable]
    is the index of the solvable [pd->solvable] points to; the two tables
    [swtab] and [sbtab] are the constants above. *)
Record parsedata := mkPd {
  depth : Z;
  pstate : state;
  statedepth : Z;
  content : list ascii;
  lcontent : nat;
  acontent : nat;
  docontent : bool;
  pool : list Solvable;
  data : Repodata;
  solvable : option nat;
  handle : nat;
  description : option (list ascii);
  licnt : Z;
  skip_depth : Z;
  flags : Z;
  desktop_file : option (list ascii);
  havesummary : bool;
  filename : option (list ascii);
  owners : option (list nat)
}.

(** Assignments to the fields of [struct parsedata]. *)
Definition set_depth (pd : parsedata) (v : Z) : parsedata :=
  mkPd v (pstate pd) (statedepth pd) (content pd) (lcontent pd) (acontent pd)
    (docontent pd) (pool pd) (data pd) (solvable pd) (handle pd)
    (description pd) (licnt pd) (skip_depth pd) (flags pd) (desktop_file pd)
    (havesummary pd) (filename pd) (owners pd).
Definition set_state (pd : parsedata) (v : state) : parsedata :=
  mkPd (depth pd) v (statedepth pd) (content pd) (lcontent pd) (acontent pd)
    (docontent pd) (pool pd) (data pd) (solvable pd) (handle pd)
    (description pd) (licnt pd) (skip_depth pd) (flags pd) (desktop_file pd)
    (havesummary pd) (filename pd) (owners pd).
Definition set_statedepth (pd : parsedata) (v : Z) : parsedata :=
  mkPd (depth pd) (pstate pd) v (content pd) (lcontent pd) (acontent pd)
    (docontent pd) (pool pd) (data pd) (solvable pd) (handle pd)
    (description pd) (licnt pd) (skip_depth pd) (flags pd) (desktop_file pd)
    (havesummary pd) (filename pd) (owners pd).
(** The three fields of the content buffer are assigned together. *)
Definition set_buf (pd : parsedata) (c : list ascii) (l a : nat) : parsedata :=
  mkPd (depth pd) (pstate pd) (statedepth pd) c l a
    (docontent pd) (pool pd) (data pd) (solvable pd) (handle pd)
    (description pd) (licnt pd) (skip_depth pd) (flags pd) (desktop_file pd)
    (havesummary pd) (filename pd) (owners pd).
Definition set_docontent (pd : parsedata) (v : bool) : parsedata :=
  mkPd (depth pd) (pstate pd) (statedepth pd) (content pd) (lcontent pd)
    (acontent pd) v (pool pd) (data pd) (solvable pd) (handle pd)
    (description pd) (licnt pd) (skip_depth pd) (flags pd) (desktop_file pd)
    (havesummary pd) (filename pd) (owners pd).
Definition set_pool (pd : parsedata) (v : list Solvable) : parsedata :=
  mkPd (depth pd) (pstate pd) (statedepth pd) (content pd) (lcontent pd)
    (acontent pd) (docontent pd) v (data pd) (solvable pd) (handle pd)
    (description pd) (licnt pd) (skip_depth pd) (flags pd) (desktop_file pd)
    (havesummary pd) (filename pd) (owners pd).
Definition set_data (pd : parsedata) (v : Repodata) : parsedata :=
  mkPd (depth pd) (pstate pd) (statedepth pd) (content pd) (lcontent pd)
    (acontent pd) (docontent pd) (pool pd) v (solvable pd) (handle pd)
    (description pd) (licnt pd) (skip_depth pd) (flags pd) (desktop_file pd)
    (havesummary pd) (filename pd) (owners pd).
Definition set_solvable (pd : parsedata) (v : option nat) : parsedata :=
  mkPd (depth pd) (pstate pd) (statedepth pd) (content pd) (lcontent pd)
    (acontent pd) (docontent pd) (pool pd) (data pd) v (handle pd)
    (description pd) (licnt pd) (skip_depth pd) (flags pd) (desktop_file pd)
    (havesummary pd) (filename pd) (owners pd).
Definition set_handle (pd : parsedata) (v : nat) : parsedata :=
  mkPd (depth pd) (pstate pd) (statedepth pd) (content pd) (lcontent pd)
    (acontent pd) (docontent pd) (pool pd) (data pd) (solvable pd) v
    (description pd) (licnt pd) (skip_depth pd) (flags pd) (desktop_file pd)
    (havesummary pd) (filename pd) (owners pd).
Definition set_description (pd : parsedata) (v : option (list ascii))
  : parsedata :=
  mkPd (depth pd) (pstate pd) (statedepth pd) (content pd) (lcontent pd)
    (acontent pd) (docontent pd) (pool pd) (data pd) (solvable pd) (handle pd)
    v (licnt pd) (skip_depth pd) (flags pd) (desktop_file pd)
    (havesummary pd) (filename pd) (owners pd).
Definition set_licnt (pd : parsedata) (v : Z) : parsedata :=
  mkPd (depth pd) (pstate pd) (statedepth pd) (content pd) (lcontent pd)
    (acontent pd) (docontent pd) (pool pd) (data pd) (solvable pd) (handle pd)
    (description pd) v (skip_depth pd) (flags pd) (desktop_file pd)
    (havesummary pd) (filename pd) (owners pd).
Definition set_skip_depth (pd : parsedata) (v : Z) : parsedata :=
  mkPd (depth pd) (pstate pd) (statedepth pd) (content pd) (lcontent pd)
    (acontent pd) (docontent pd) (pool pd) (data pd) (solvable pd) (handle pd)
    (description pd) (licnt pd) v (flags pd) (desktop_file pd)
    (havesummary pd) (filename pd) (owners pd).
Definition set_desktop_file (pd : parsedata) (v : option (list ascii))
  : parsedata :=
  mkPd (depth pd) (pstate pd) (statedepth pd) (content pd) (lcontent pd)
    (acontent pd) (docontent pd) (pool pd) (data pd) (solvable pd) (handle pd)
    (description pd) (licnt pd) (skip_depth pd) (flags pd) v
    (havesummary pd) (filename pd) (owners pd).
Definition set_havesummary (pd : parsedata) (v : bool) : parsedata :=
  mkPd (depth pd) (pstate pd) (statedepth pd) (content pd) (lcontent pd)
    (acontent pd) (docontent pd) (pool pd) (data pd) (solvable pd) (handle pd)
    (description pd) (licnt pd) (skip_depth pd) (flags pd) (desktop_file pd)
    v (filename pd) (owners pd).

(** ** The two text normalisations *)

(** The loop of [wsstrip]; [content] is written in place.  The result is
    the array and [j] when the loop ends. *)
Fixpoint wsstrip_loop (fuel : nat) (content : list ascii) (i j : nat) (ws : Z)
  : option (list ascii * nat) :=
  match fuel with
  | 0 => None
  | S fuel =>
    c ← content !! i;
    if decide (c = NUL) then Some (content, j)
    else if is_ws c then
      wsstrip_loop fuel content (S i) j
        (Z.lor ws (if decide (c = NL) then 2 else 1))
    else
      '(content, j) ←
        (if decide (ws ≠ 0%Z ∧ j ≠ 0) then
           content ← store content j
                       (if decide (Z.land ws 2 ≠ 0%Z) then NL else SP);
           Some (content, S j)
         else Some (content, j));
      c ← content !! i;
      content ← store content j c;
      wsstrip_loop fuel content (S i) (S j) 0%Z
  end.

(** [wsstrip]: "replace whitespace with one space/newline, also strip
    starting/ending whitespace".  The index [i] grows by one in every
    round and is read from the array, so [length content + 1] rounds
    are all the loop can make. *)
Definition wsstrip (pd : parsedata) : option parsedata :=
  '(content, j) ← wsstrip_loop (S (length (content pd))) (content pd) 0 0 0%Z;
  content ← store content j NUL;
  Some (set_buf pd content j (acontent pd)).

(** [while (pd->content[l] && pd->content[l] != '\n') l++;] *)
Fixpoint skip_line (fuel : nat) (content : list ascii) (l : nat) : option nat :=
  match fuel with
  | 0 => None
  | S fuel =>
    c ← content !! l;
    if decide (c = NUL ∨ c = NL) then Some l
    else skip_line fuel content (S l)
  end.

(** What the parser takes from outside of [repo_appdata.c]. *)
Class Externals := {
  (** The bytes of memory that [malloc] and [realloc] hand out without
      initialising them: byte [i] of a fresh region is [junk i]. *)
  junk : nat → ascii;
  (** The option flags and the known identifiers of [repo.h],
      [repo_appdata.h] and [knownid.h], which are not part of the sources
      at hand. *)
  APPDATA_CHECK_DESKTOP_FILE : Z;
  REPO_USE_ROOTDIR : Z;
  REL_EQ : Z;
  ARCH_NOARCH : Id;
  ARCH_SRC : Id;
  ARCH_NOSRC : Id;
  ID_EMPTY : Id;
  (** [pool_id2str] and [pool_prepend_rootdir_tmp] of the pool. *)
  pool_id2str : Id → list ascii;
  pool_prepend_rootdir_tmp : list ascii → list ascii;
  (** The file system: the bytes of the file at a path, [None] when
      [fopen(path, "r")] fails. *)
  fopen_r : list ascii → option (list ascii)
}.

Section Env.
Context {ext : Externals}.

(** [realloc(b, n)] *)
Definition realloc (b : list ascii) (n : nat) : list ascii :=
  take n b ++ (junk <$> seq (length b) (n - length b)).

(** The loop of [indent]; the result is the array, [pd->lcontent] and
    [pd->acontent] when the loop ends. *)
Fixpoint indent_loop (fuel : nat) (content : list ascii)
    (lcontent acontent il l : nat) : option (list ascii * nat * nat) :=
  match fuel with
  | 0 => None
  | S fuel =>
    c ← content !! l;
    if decide (c = NUL) then Some (content, lcontent, acontent)
    else if decide (c = NL) then
      indent_loop fuel content lcontent acontent il (S l)
    else
      let '(content, acontent) :=
        if decide (acontent < lcontent + il + 1)
        then (realloc content (lcontent + il + 256), lcontent + il + 256)
        else (content, acontent) in
      n ← (if decide (l ≤ lcontent) then Some (lcontent - l + 1) else None);
      content ← memmove content (l + il) l n;
      content ← fill content l il SP;
      l ← skip_line (S (length content)) content l;
      indent_loop fuel content (lcontent + il) acontent il l
  end.

(** [indent]: "indent all lines".  Every round of the loop moves [l]
    forward over at least one byte of the string that was in the array
    at the start. *)
Definition indent (pd : parsedata) (il : nat) : option parsedata :=
  '(content, lcontent, acontent) ←
    indent_loop (S (length (content pd))) (content pd) (lcontent pd)
      (acontent pd) il 0;
  Some (set_buf pd content lcontent acontent).

(** ** The desktop file *)

(** [fgets] with room for [n] more bytes: the bytes read and the rest of
    the file. *)
Fixpoint fgets (n : nat) (f : list ascii) : list ascii * list ascii :=
  match n, f with
  | 0, _ => ([], f)
  | _, [] => ([], [])
  | S n', c :: f' =>
    if decide (c = NL) then ([c], f')
    else let '(l, r) := fgets n' f' in (c :: l, r)
  end.

(** [while ((c = getc(fp)) != EOF) if (c == '\n') break;]: the rest of
    the file after the next newline, [None] at the end of the file. *)
Fixpoint skip_overlong (f : list ascii) : option (list ascii) :=
  match f with
  | [] => None
  | c :: f' => if decide (c = NL) then Some f' else skip_overlong f'
  end.

Definition is_blank (c : ascii) : bool :=
  bool_decide (c = SP) || bool_decide (c = TAB).

(** Bytes of a string before its first NUL, as [strlen] sees them in
    [buf], which [fgets] has terminated. *)
Definition c_prefix (b : list ascii) : list ascii :=
  default [] (c_str (b ++ [NUL])).

(** [p] moves over the blanks (space and tab) at the start of a string. *)
Fixpoint strip_leading_blanks (s : list ascii) : list ascii :=
  match s with
  | [] => []
  | c :: s' => if is_blank c then strip_leading_blanks s' else s
  end.
(** The same from the end of the string towards its start. *)
Definition strip_trailing_blanks (s : list ascii) : list ascii :=
  reverse (strip_leading_blanks (reverse s)).

(** [strchr(p, c)] as an index. *)
Fixpoint strchr (p : list ascii) (c : ascii) : option nat :=
  match p with
  | [] => None
  | x :: p' => if decide (x = c) then Some 0 else S <$> strchr p' c
  end.

(** What the parser keeps of a desktop file: the name of the solvable,
    [pd->havesummary] and the attribute store. *)
Definition desktop_result : Type := Id * bool * Repodata.

(** One line of the desktop file that ended in a newline; the result is
    the new value of [inde], the new values of the parser and whether the
    loop is left by [break]. *)
Definition desktop_line (h : nat) (line : list ascii) (inde : bool)
    (st : desktop_result) : bool * desktop_result * bool :=
  let '(nm, hs, dat) := st in
  let p := strip_leading_blanks
             (strip_trailing_blanks (take (length line - 1) line)) in
  match p with
  | [] => (inde, st, false)
  | c :: _ =>
    if decide (c = "#"%char) then (inde, st, false)
    else
      let inde := if decide (c = "["%char) then false else inde in
      if streq p (lit "[Desktop Entry]") then (true, st, false)
      else if negb inde then (inde, st, false)
      else
        match strchr p "="%char with
        | None | Some 0 => (inde, st, false)
        | Some k =>
          let key := strip_trailing_blanks (take k p) in
          let p2 := strip_leading_blanks (drop (S k) p) in
          match p2 with
          | [] => (inde, st, false)
          | _ =>
            if bool_decide (nm = ID_NULL) && streq key (lit "Name") then
              let nm := pool_str2id (pool_tmpjoin (lit "application:") p2 []) in
              (inde, (nm, hs, dat), bool_decide (nm ≠ ID_NULL) && hs)
            else if negb hs && streq key (lit "Comment") then
              (inde, (nm, true, repodata_set_str dat h SOLVABLE_SUMMARY p2),
               bool_decide (nm ≠ ID_NULL))
            else (inde, st, false)
          end
        end
  end.

(** The loop over the lines of the desktop file, [buf] being 1024 bytes
    long.  Every round reads at least one byte of the file. *)
Fixpoint desktop_loop (fuel : nat) (h : nat) (f : list ascii) (inde : bool)
    (st : desktop_result) : desktop_result :=
  match fuel with
  | 0 => st
  | S fuel =>
    match f with
    | [] => st
    | _ =>
      let '(buf, f) := fgets 1023 f in
      let line := c_prefix buf in
      match line !! (length line - 1) with
      | None => desktop_loop fuel h f inde st
      | Some c =>
        if decide (c ≠ NL) then
          match skip_overlong f with
          | None => st
          | Some f => desktop_loop fuel h f inde st
          end
        else
          let '(inde, st, stop) := desktop_line h line inde st in
          if stop then st else desktop_loop fuel h f inde st
      end
    end
  end.

(** [add_missing_tags_from_desktop_file(pd, s, desktop_file)], on the
    name of the solvable [s], [pd->havesummary] and [pd->data]. *)
Definition add_missing_tags_from_desktop_file (pd : parsedata) (nm : Id)
    (desktop_file : list ascii) : desktop_result :=
  let filepath := pool_tmpjoin (lit "/usr/share/applications/") desktop_file [] in
  let filepath :=
    if decide (Z.land (flags pd) REPO_USE_ROOTDIR ≠ 0%Z)
    then pool_prepend_rootdir_tmp filepath else filepath in
  match fopen_r filepath with
  | None => (nm, havesummary pd, data pd)
  | Some f =>
    desktop_loop (S (length f)) (handle pd) f false
      (nm, havesummary pd, data pd)
  end.

(** ** The file name of the metadata file *)

(** [l > n && !strcmp(suffix, id + l - n)] *)
Definition has_suffix (id : list ascii) (suffix : string) : bool :=
  bool_decide (length (lit suffix) < length id)
  && streq (lit suffix) (drop (length id - length (lit suffix)) id).

(** [guess_filename_from_id]; [None] is the null pointer.  [r] is the
    array that [pool_tmpjoin] fills; it is long enough for every
    [strcpy] of the function. *)
Definition guess_filename_from_id (id : list ascii) : option (list ascii) :=
  let l := length id in
  let r := pool_tmpjoin id (lit ".metainfo.xml") [] ++ [NUL] in
  if has_suffix id ".desktop" then
    strcpy_at r (l - 8) (lit ".appdata.xml") ≫= c_str
  else if has_suffix id ".ttf" then
    strcpy_at r (l - 4) (lit ".metainfo.xml") ≫= c_str
  else if has_suffix id ".otf" then
    strcpy_at r (l - 4) (lit ".metainfo.xml") ≫= c_str
  else if has_suffix id ".xml" then
    strcpy_at r (l - 4) (lit ".metainfo.xml") ≫= c_str
  else if has_suffix id ".db" then
    strcpy_at r (l - 3) (lit ".metainfo.xml") ≫= c_str
  else None.

(** ** The three handlers *)

(** [find_attr]; [atts] is the array of names and values that the
    tokenizer hands over, as a list of pairs. *)
Fixpoint find_attr (txt : list ascii) (atts : list (list ascii * list ascii))
  : option (list ascii) :=
  match atts with
  | [] => None
  | (k, v) :: atts' => if streq k txt then Some v else find_attr txt atts'
  end.

(** Modelled from the spec: [repo_add_solvable] followed by
    [pool_id2solvable] ([repo.c] and [pool.h] are not part of the sources
    at hand): "create a new record".  The new solvable is the next entry
    of [pool->solvables], with every field zero. *)
Definition repo_add_solvable (p : list Solvable) : list Solvable * nat :=
  (p ++ [new_solvable], length p).

(** The [switch] of [startElement], on the state that is entered. *)
Definition start_switch (pd : parsedata)
    (atts : list (list ascii * list ascii)) : parsedata :=
  match pstate pd with
  | STATE_APPLICATION =>
    let '(p, h) := repo_add_solvable (pool pd) in
    let pd := set_solvable (set_pool pd p) (Some h) in
    let pd := set_handle pd h in
    let pd := set_havesummary pd false in
    let type :=
      match find_attr (lit "type") atts with
      | None | Some [] => lit "desktop"
      | Some t => t
      end in
    set_data pd
      (repodata_set_poolstr (data pd) (handle pd) SOLVABLE_CATEGORY type)
  | STATE_DESCRIPTION => set_description pd None
  | STATE_OL | STATE_UL => set_licnt pd 0
  | _ => pd
  end.

Definition startElement (pd : parsedata) (nm : list ascii)
    (atts : list (list ascii * list ascii)) : option parsedata :=
  if decide (depth pd ≠ statedepth pd) then
    Some (set_depth pd (depth pd + 1))
  else
    let pd := set_depth pd (depth pd + 1) in
    match swtab (pstate pd) with
    | None => Some pd
    | Some i =>
      match find_switch (drop i stateswitches) (pstate pd) nm with
      | None => Some pd
      | Some s =>
        let pd := set_state pd (to s) in
        let pd := set_docontent pd (sw_docontent s) in
        let pd := set_statedepth pd (depth pd) in
        c ← store (content pd) 0 NUL;
        let pd := set_buf pd c 0 (acontent pd) in
        let pd :=
          if decide (skip_depth pd = 0%Z
                     ∧ is_Some (find_attr (lit "xml:lang") atts))
          then set_skip_depth pd (depth pd) else pd in
        if decide (skip_depth pd ≠ 0%Z) then Some (set_docontent pd false)
        else Some (start_switch pd atts)
      end
    end.

(** [while (len-- > 0) *c++ = *s++;] with [c] at index [at]. *)
Fixpoint copy_bytes (b : list ascii) (at_ : nat) (s : list ascii)
  : option (list ascii) :=
  match s with
  | [] => Some b
  | x :: s' => b' ← store b at_ x; copy_bytes b' (S at_) s'
  end.

(** [characterData]; [len] is the length of [s]. *)
Definition characterData (pd : parsedata) (s : list ascii) : option parsedata :=
  if negb (docontent pd) then Some pd
  else
    let l := lcontent pd + length s + 1 in
    let '(c, a) :=
      if decide (acontent pd < l)
      then (realloc (content pd) (l + 256), l + 256)
      else (content pd, acontent pd) in
    c ← copy_bytes c (lcontent pd) s;
    c ← store c (lcontent pd + length s) NUL;
    Some (set_buf pd c (lcontent pd + length s) a).

(** The solvable [pd->solvable] points to; [None] for the null pointer,
    which the handlers would dereference. *)
Definition cur_solvable (pd : parsedata) : option (nat * Solvable) :=
  i ← solvable pd; s ← pool pd !! i; Some (i, s).

(** Assignments through the pointer [s]. *)
Definition set_name (s : Solvable) (v : Id) : Solvable :=
  mkSolvable v (arch s) (evr s) (requires s) (provides s).
Definition set_arch (s : Solvable) (v : Id) : Solvable :=
  mkSolvable (name s) v (evr s) (requires s) (provides s).
Definition set_evr (s : Solvable) (v : Id) : Solvable :=
  mkSolvable (name s) (arch s) v (requires s) (provides s).
Definition set_requires (s : Solvable) (v : list Id) : Solvable :=
  mkSolvable (name s) (arch s) (evr s) v (provides s).
Definition set_provides (s : Solvable) (v : list Id) : Solvable :=
  mkSolvable (name s) (arch s) (evr s) (requires s) v.

(** The loop over [pd->owners] at the close of an application; [p] is
    the array of solvables with the current state of [s] in it. *)
Fixpoint add_owners (p : list Solvable) (i : nat) (os : list nat)
  : option (list Solvable) :=
  match os with
  | [] => Some p
  | o :: os' =>
    osolv ← p !! o;
    s ← p !! i;
    let s := set_requires s (repo_addid_dep (requires s) (name osolv)) in
    let id := pool_str2id
                (pool_tmpjoin (lit "application-appdata(")
                   (pool_id2str (name osolv)) (lit ")")) in
    let s := set_provides s (repo_addid_dep (provides s) id) in
    add_owners (<[i:=s]> p) i os'
  end.

(** The case [STATE_APPLICATION] of [endElement], statement by
    statement.  First [if (!s->arch) s->arch = ARCH_NOARCH;] and
    [if (!s->evr) s->evr = ID_EMPTY;]. *)
Definition default_arch_evr (s : Solvable) : Solvable :=
  let s := if decide (arch s = ID_NULL) then set_arch s ARCH_NOARCH else s in
  if decide (evr s = ID_NULL) then set_evr s ID_EMPTY else s.

(** [if ((!s->name || !pd->havesummary)
         && (pd->flags & APPDATA_CHECK_DESKTOP_FILE) != 0 && pd->desktop_file)
      add_missing_tags_from_desktop_file(pd, s, pd->desktop_file);] *)
Definition desktop_tags (pd : parsedata) (s : Solvable)
  : Solvable * parsedata :=
  match desktop_file pd with
  | Some df =>
    if (bool_decide (name s = ID_NULL) || negb (havesummary pd))
       && bool_decide (Z.land (flags pd) APPDATA_CHECK_DESKTOP_FILE ≠ 0%Z)
    then
      let '(nm, hs, dat) := add_missing_tags_from_desktop_file pd (name s) df in
      (set_name s nm, set_data (set_havesummary pd hs) dat)
    else (s, pd)
  | None => (s, pd)
  end.

(** [if (!s->name && pd->desktop_file)]: the name is the desktop file
    without a trailing [.desktop], behind [application:]. *)
Definition name_from_desktop_file (pd : parsedata) (s : Solvable) : Solvable :=
  match desktop_file pd with
  | Some df =>
    if decide (name s = ID_NULL) then
      let nm := pool_tmpjoin (lit "application:") df [] in
      let l := length nm in
      let l := if has_suffix nm ".desktop" then l - 8 else l in
      set_name s (pool_strn2id nm l)
    else s
  | None => s
  end.

(** [if (!s->requires && pd->owners)]: the loop over the owners, on the
    array of solvables. *)
Definition owner_links (pd : parsedata) (p : list Solvable) (i : nat)
    (s : Solvable) : option (list Solvable) :=
  match owners pd with
  | Some os => if decide (requires s = []) then add_owners p i os else Some p
  | None => Some p
  end.

(** [if (!s->requires && (pd->desktop_file || pd->filename))]: "add
    appdata() link requires/provides". *)
Definition appdata_link (pd : parsedata) (s : Solvable) : Solvable :=
  if decide (requires s = []
             ∧ (is_Some (desktop_file pd) ∨ is_Some (filename pd)))
  then
    let fn :=
      match filename pd with
      | Some fn => Some fn
      | None => desktop_file pd ≫= guess_filename_from_id
      end in
    match fn with
    | Some fn =>
      let fn := pool_tmpjoin (lit "application-appdata(") fn (lit ")") in
      let s := set_requires s
                 (repo_addid_dep (requires s) (pool_str2id (drop 12 fn))) in
      set_provides s (repo_addid_dep (provides s) (pool_str2id fn))
    | None => s
    end
  else s.

(** [if (s->name && s->arch != ARCH_SRC && s->arch != ARCH_NOSRC)]: the
    solvable provides its own name and version. *)
Definition self_provide (s : Solvable) : Solvable :=
  if decide (name s ≠ ID_NULL ∧ arch s ≠ ARCH_SRC ∧ arch s ≠ ARCH_NOSRC)
  then set_provides s
         (repo_addid_dep (provides s) (pool_rel2id (name s) (evr s) REL_EQ))
  else s.

(** The whole case: the statements above in their order, then
    [pd->solvable = 0] and [pd->desktop_file = solv_free(...)]. *)
Definition end_application (pd : parsedata) : option parsedata :=
  '(i, s) ← cur_solvable pd;
  let s := default_arch_evr s in
  let '(s, pd) := desktop_tags pd s in
  let s := name_from_desktop_file pd s in
  p ← owner_links pd (<[i:=s]> (pool pd)) i s;
  s ← p !! i;
  let s := appdata_link pd s in
  let s := self_provide s in
  let pd := set_pool pd (<[i:=s]> p) in
  Some (set_desktop_file (set_solvable pd None) None).

(** Writing through [s] in the other cases of [endElement]. *)
Definition update_solvable (pd : parsedata) (f : Solvable → Solvable)
  : option parsedata :=
  '(i, s) ← cur_solvable pd;
  Some (set_pool pd (<[i:=f s]> (pool pd))).

(** The ordered-list marker digits: ['0' + n] as a [char]. *)
Definition digit (n : Z) : ascii := ascii_of_N (Z.to_N ((48 + n) mod 256)).

(** The loop of the case [STATE_DESCRIPTION] that strips the trailing
    newlines; [l] counts down from [strlen(pd->description)]. *)
Fixpoint strip_trailing_newlines (l : nat) (d : list ascii) : list ascii :=
  match l with
  | 0 => []
  | S l' =>
    if decide (d !! l' = Some NL) then strip_trailing_newlines l' d
    else take l d
  end.

(** The string [pd->content] is handed over as. *)
Definition content_str (pd : parsedata) : option (list ascii) :=
  c_str (content pd).

(** [pd->content[i] = c] *)
Definition store_content (pd : parsedata) (i : nat) (c : ascii)
  : option parsedata :=
  b ← store (content pd) i c;
  Some (set_buf pd b (lcontent pd) (acontent pd)).

(** The case [STATE_P] of [endElement]. *)
Definition end_p (pd : parsedata) : option parsedata :=
  pd ← wsstrip pd;
  c ← content_str pd;
  Some (set_description pd (solv_dupappend (description pd) c [NL; NL])).

(** The case [STATE_UL_LI] of [endElement]. *)
Definition end_ul_li (pd : parsedata) : option parsedata :=
  pd ← wsstrip pd;
  pd ← indent pd 4;
  pd ← store_content pd 2 "-"%char;
  c ← content_str pd;
  Some (set_description pd (solv_dupappend (description pd) c [NL])).

(** The case [STATE_OL_LI] of [endElement]. *)
Definition end_ol_li (pd : parsedata) : option parsedata :=
  pd ← wsstrip pd;
  pd ← indent pd 4;
  let pd := set_licnt pd (licnt pd + 1) in
  pd ← (if decide (10 ≤ licnt pd)%Z
        then store_content pd 0 (digit (Z.rem (Z.quot (licnt pd) 10) 10))
        else Some pd);
  pd ← store_content pd 1 (digit (Z.rem (licnt pd) 10));
  pd ← store_content pd 2 "."%char;
  c ← content_str pd;
  Some (set_description pd (solv_dupappend (description pd) c [NL])).

(** The [switch] of [endElement], on the state of the element that is
    closed. *)
Definition end_switch (pd : parsedata) : option parsedata :=
  match pstate pd with
  | STATE_APPLICATION => end_application pd
  | STATE_ID =>
    c ← content_str pd; Some (set_desktop_file pd (Some c))
  | STATE_NAME =>
    c ← content_str pd;
    update_solvable pd (λ s,
      set_name s (pool_str2id (pool_tmpjoin (lit "application:") c [])))
  | STATE_LICENCE =>
    c ← content_str pd;
    Some (set_data pd (repodata_add_poolstr_array (data pd) (handle pd)
                         SOLVABLE_LICENSE c))
  | STATE_SUMMARY =>
    let pd := set_havesummary pd true in
    c ← content_str pd;
    Some (set_data pd (repodata_set_str (data pd) (handle pd)
                         SOLVABLE_SUMMARY c))
  | STATE_URL =>
    c ← content_str pd;
    Some (set_data pd (repodata_set_str (data pd) (handle pd)
                         SOLVABLE_URL c))
  | STATE_GROUP =>
    c ← content_str pd;
    Some (set_data pd (repodata_add_poolstr_array (data pd) (handle pd)
                         SOLVABLE_GROUP c))
  | STATE_EXTENDS =>
    c ← content_str pd;
    Some (set_data pd (repodata_add_poolstr_array (data pd) (handle pd)
                         SOLVABLE_EXTENDS c))
  | STATE_DESCRIPTION =>
    match description pd with
    | Some d =>
      let d := strip_trailing_newlines (length d) d in
      Some (set_data (set_description pd (Some d))
              (repodata_set_str (data pd) (handle pd)
                 SOLVABLE_DESCRIPTION d))
    | None => Some pd
    end
  | STATE_P => end_p pd
  | STATE_UL_LI => end_ul_li pd
  | STATE_OL_LI => end_ol_li pd
  | STATE_UL | STATE_OL =>
    Some (set_description pd (solv_dupappend (description pd) [NL] []))
  | STATE_PKGNAME =>
    c ← content_str pd;
    update_solvable pd (λ s,
      let s := set_requires s
                 (repo_addid_dep (requires s) (pool_str2id c)) in
      set_provides s
        (repo_addid_dep (provides s)
           (pool_str2id
              (pool_tmpjoin (lit "application-appdata(") c (lit ")")))))
  | STATE_KEYWORD =>
    c ← content_str pd;
    Some (set_data pd (repodata_add_poolstr_array (data pd) (handle pd)
                         SOLVABLE_KEYWORDS c))
  | _ => Some pd
  end.

(** [endElement]. *)
Definition endElement (pd : parsedata) (nm : list ascii) : option parsedata :=
  if decide (depth pd ≠ statedepth pd) then
    Some (set_depth pd (depth pd - 1))
  else
    let pd := set_depth pd (depth pd - 1) in
    let pd := set_statedepth pd (statedepth pd - 1) in
    if decide (skip_depth pd ≠ 0%Z ∧ (skip_depth pd ≤ depth pd + 1)%Z) then
      let pd := if decide (depth pd + 1 = skip_depth pd)%Z
                then set_skip_depth pd 0 else pd in
      Some (set_docontent (set_state pd (sbtab (pstate pd))) false)
    else
      let pd := set_skip_depth pd 0 in
      pd ← end_switch pd;
      Some (set_docontent (set_state pd (sbtab (pstate pd))) false).

(** ** The driver *)

(** The calls the tokenizer makes, in document order. *)
Inductive event :=
  | Start (nm : list ascii) (atts : list (list ascii * list ascii))
  | End_ (nm : list ascii)
  | Text (s : list ascii).

Definition handle_event (pd : parsedata) (e : event) : option parsedata :=
  match e with
  | Start nm atts => startElement pd nm atts
  | End_ nm => endElement pd nm
  | Text s => characterData pd s
  end.

Fixpoint run (evs : list event) (pd : parsedata) : option parsedata :=
  match evs with
  | [] => Some pd
  | e :: evs' => pd' ← handle_event pd e; run evs' pd'
  end.

(** The parser state [repo_add_appdata_fn] starts from: [pd] is cleared
    by [memset], then the fields [pool], [data], [flags], [filename] and
    [owners] are set, and [content] is 256 bytes fresh from [malloc]. *)
Definition init_parsedata (p : list Solvable) (dat : Repodata) (fl : Z)
    (fn : option (list ascii)) (os : option (list nat)) : parsedata :=
  mkPd 0 STATE_START 0 (junk <$> seq 0 256) 0 256 false p dat None 0 None
    0 0 fl None false fn os.

End Env.

(** ** The owner lookup *)

(** The test that [search_uninternalized_filelist] makes on one string
    [str] of a file list: the identifier that is pushed, [None] for
    [continue]. *)
Definition filelist_entry (str : list ascii) : option Id :=
  let l := length str in
  if bool_decide (12 < l)
     && negb (strneq (drop (l - 12) str) (lit ".appdata.xml") 12)
  then Some (pool_str2id str)
  else if bool_decide (13 < l)
          && negb (strneq (drop (l - 13) str) (lit ".metainfo.xml") 13)
  then Some (pool_str2id str)
  else None.

(** The innermost loop for the solvable [p]; [strs] are the strings that
    [repodata_lookup_dirstrarray_uninternalized] hands out one after the
    other; [res] is the queue, a pair for each [queue_push2]. *)
Fixpoint search_filelist (p : nat) (strs : list (list ascii))
    (res : list (nat * Id)) : list (nat * Id) :=
  match strs with
  | [] => res
  | str :: strs' =>
    match filelist_entry str with
    | Some id => search_filelist p strs' (res ++ [(p, id)])
    | None => search_filelist p strs' res
    end
  end.

(** [search_uninternalized_filelist] on the file lists of the directory:
    for every repodata that has file lists and the directory, for every
    solvable [p] of the repo in its range, the strings of the lookup. *)
Definition search_uninternalized_filelist
    (filelists : list (list (nat * list (list ascii))))
    (res : list (nat * Id)) : list (nat * Id) :=
  foldl (λ res rd, foldl (λ res e, search_filelist e.1 e.2 res) res rd)
    res filelists.

(** The test of [repo_add_appdata_dir] on the name of a directory entry:
    [true] when the entry is read. *)
Definition appdata_dir_entry (d_name : list ascii) : bool :=
  has_suffix d_name ".appdata.xml" || has_suffix d_name ".metainfo.xml".

(** ** The normalisations as functions on strings *)

(** What the loop of [wsstrip] writes for the rest [s] of the input;
    [started] says that something has been written before ([j] is not 0),
    [ws] is the variable of the loop. *)
Fixpoint ws_go (started : bool) (ws : Z) (s : list ascii) : list ascii :=
  match s with
  | [] => []
  | c :: s' =>
    if is_ws c then
      ws_go started (Z.lor ws (if decide (c = NL) then 2 else 1)) s'
    else
      (if decide (ws ≠ 0%Z ∧ started = true)
       then [if decide (Z.land ws 2 ≠ 0%Z) then NL else SP] else [])
      ++ c :: ws_go true 0 s'
  end.

Definition wsstrip_str (s : list ascii) : list ascii := ws_go false 0 s.

(** What the loop of [indent] makes of the rest [s] of the input; [bol]
    says that [s] starts a line. *)
Fixpoint indent_go (il : nat) (bol : bool) (s : list ascii) : list ascii :=
  match s with
  | [] => []
  | c :: s' =>
    if decide (c = NL) then c :: indent_go il true s'
    else (if bol then replicate il SP else []) ++ c :: indent_go il false s'
  end.

Definition indent_str (il : nat) (s : list ascii) : list ascii :=
  indent_go il true s.

(** The lines of a string: the text between consecutive newlines or the
    ends of the string. *)
Fixpoint lines (s : list ascii) : list (list ascii) :=
  match s with
  | [] => [[]]
  | c :: s' =>
    if decide (c = NL) then [] :: lines s'
    else match lines s' with
         | [] => [[c]]
         | l :: ls => (c :: l) :: ls
         end
  end.

(** The separator a run of whitespace collapses to. *)
Definition ws_sep (w : list ascii) : ascii :=
  if decide (NL ∈ w) then NL else SP.

(** The three bytes in front of the [n]th item of an ordered list. *)
Definition ol_marker (n : Z) : list ascii :=
  [if decide (10 ≤ n)%Z then digit (Z.rem (Z.quot n 10) 10) else SP;
   digit (Z.rem n 10); "."%char].

(** The parser state of [startElement] after the assignments that
    follow a row [s] of the state table, the content buffer being [b]
    after [*pd->content = 0]. *)
Definition opening (pd : parsedata) (s : stateswitch) (b : list ascii)
  : parsedata :=
  set_buf
    (set_statedepth
       (set_docontent (set_state (set_depth pd (depth pd + 1)) (to s))
          (sw_docontent s))
       (depth pd + 1))
    b 0 (acontent pd).

(** The row of the state table for an element [nm] in the state [st]. *)
Definition lookup_switch (st : state) (nm : list ascii) : option stateswitch :=
  i ← swtab st; find_switch (drop i stateswitches) st nm.

(** The parser state after the two decrements of [endElement] when the
    element is not in a skipped subtree. *)
Definition closing (pd : parsedata) : parsedata :=
  set_skip_depth
    (set_statedepth (set_depth pd (depth pd - 1)) (statedepth pd - 1)) 0.

(** A string ends in a suffix. *)
Definition ends_in (id : list ascii) (suffix : string) : Prop :=
  length (lit suffix) ≤ length id
  ∧ drop (length id - length (lit suffix)) id = lit suffix.

Global Instance ends_in_dec id suffix : Decision (ends_in id suffix).
Proof. unfold ends_in. apply _. Defined.

(** Identifiers that are relations. *)
Definition is_rel (i : Id) : bool :=
  match i with IdRel _ _ _ => true | _ => false end.

(** The value [wsstrip] ors into [ws] for a whitespace byte. *)
Definition ws_flag (c : ascii) : Z := if decide (c = NL) then 2%Z else 1%Z.

(** The bytes of a string that are not whitespace. *)
Definition nonws (s : list ascii) : list ascii :=
  List.filter (λ c, negb (is_ws c)) s.

(** No two bytes next to each other are both whitespace. *)
Fixpoint no_adjacent_ws (l : list ascii) : Prop :=
  match l with
  | c :: l' =>
    match l' with
    | d :: _ => (is_ws c = true → is_ws d = false)
    | [] => True
    end ∧ no_adjacent_ws l'
  | [] => True
  end.

(** A line after [indent]: empty lines stay empty. *)
Definition indent_line (il : nat) (ln : list ascii) : list ascii :=
  match ln with [] => [] | _ => replicate il SP ++ ln end.

(** The number of lines of a string that are not empty. *)
Definition nonempty_lines (s : list ascii) : nat :=
  length (filter (λ ln, ln ≠ []) (lines s)).

(** ** An instance of the outside world, for the examples *)

Definition demo_fs (path : list ascii) : option (list ascii) :=
  if streq path (lit "/usr/share/applications/demo.desktop")
  then Some (lit "[Desktop Entry]" ++ [NL] ++ lit "Name = Demo" ++ [NL]
             ++ lit "Comment=A demo" ++ [NL])
  else None.

Definition demo : Externals := {|
  junk := λ _, "?"%char;
  APPDATA_CHECK_DESKTOP_FILE := 1073741824;
  REPO_USE_ROOTDIR := 32;
  REL_EQ := 2;
  ARCH_NOARCH := IdStr (lit "noarch");
  ARCH_SRC := IdStr (lit "src");
  ARCH_NOSRC := IdStr (lit "nosrc");
  ID_EMPTY := IdStr [];
  pool_id2str := λ i, match i with IdStr s => s | _ => [] end;
  pool_prepend_rootdir_tmp := λ p, lit "/root" ++ p;
  fopen_r := demo_fs
|}.

(** The parser state at the start of a document without file name and
    owners, on an empty store. *)
Definition demo_init : parsedata :=
  init_parsedata (ext:=demo) [] (λ _ _, None) 0 None None.

(** A byte array that holds the string [s], with eight more bytes behind
    the terminator. *)
Definition demo_buf (s : list ascii) : list ascii :=
  s ++ NUL :: replicate 8 "?"%char.

(** A parser state inside an application at depth 2, in state [st], with
    the string [s] captured in the content buffer. *)
Definition demo_pd (st : state) (s : list ascii) : parsedata :=
  mkPd 2 st 2 (demo_buf s) (length s) (length (demo_buf s)) true
    [new_solvable] (λ _ _, None) (Some 0) 0 None 0 0 0 None false None None.

(** The events of an element without attributes, and of a text. *)
Definition elem (tag : string) (body : list event) : list event :=
  Start (lit tag) [] :: body ++ [End_ (lit tag)].
Definition text (s : string) : event := Text (lit s).

(** An application whose identifier ends in no suffix that
    [guess_filename_from_id] knows. *)
Definition doc_unrecognized_id : list event :=
  elem "application" (elem "id" [text "foo.bin"]).

(** An application whose summary has whitespace around and between its
    words; the application is not closed yet. *)
Definition doc_summary : list event :=
  Start (lit "application") [] :: elem "summary" [text "  Does   foo "].

(** An application with two descriptions, the second one with an empty
    paragraph; the application is not closed yet. *)
Definition doc_description_1 : list event :=
  Start (lit "application") [] :: elem "description" (elem "p" [text "x"]).
Definition doc_description_2 : list event :=
  doc_description_1 ++ elem "description" (elem "p" []).

(** The parser is in the state [st], outside of unknown and skipped
    subtrees, and its content buffer is allocated. *)
Definition ready (pd : parsedata) (st : state) : Prop :=
  pstate pd = st ∧ depth pd = statedepth pd ∧ skip_depth pd = 0%Z
  ∧ acontent pd = length (content pd) ∧ 0 < acontent pd.

(** The events of a list item with the attributes [atts] whose text
    comes in the pieces [ts]. *)
Definition li_events (atts : list (list ascii * list ascii))
    (ts : list (list ascii)) : list event :=
  Start (lit "li") atts :: (Text <$> ts) ++ [End_ (lit "li")].



(** An item of a list: its pieces of text have no NUL in them, and it
    is not blank. *)
Definition li_item (ts : list (list ascii)) : Prop :=
  Forall (λ t, NUL ∉ t) ts ∧ wsstrip_str (concat ts) ≠ [].

Global Instance li_item_dec ts : Decision (li_item ts).
Proof. unfold li_item. apply _. Defined.


(** A description with an ordered list of nine items [x], not closed
    yet, and the same with an empty tenth item. *)
Definition doc_nine_items : list event :=
  Start (lit "application") [] :: Start (lit "description") []
  :: Start (lit "ol") [] :: concat (replicate 9 (elem "li" [text "x"])).
Definition doc_empty_tenth_item : list event :=
  doc_nine_items ++ elem "li" [].


(** The attribute [xml:lang="de"]. *)
Definition lang_de : list (list ascii * list ascii) :=
  [(lit "xml:lang", lit "de")].


(** No relation is among the dependencies [deps]. *)
Definition no_rel (deps : list Id) : Prop := List.filter is_rel deps = [].

(** The owners that [repo_add_appdata_fn] is called with are solvables
    of the pool. *)
Definition owners_ok (pd : parsedata) : Prop :=
  match owners pd with
  | Some os => Forall (λ o, o < length (pool pd)) os
  | None => True
  end.

(** What holds of the record of an application from its start to its
    close: nothing but strings is among its provides. *)
Definition record_inv (pd : parsedata) : Prop :=
  owners_ok pd
  ∧ ∀ i s, cur_solvable pd = Some (i, s) → no_rel (provides s).

(** An application with a name and a package name. *)
Definition doc_named_application : list event :=
  elem "application"
    (elem "name" [text "Foo"] ++ elem "pkgname" [text "foo"]).

(** The part of the parser state that the records live in. *)
Definition store_of (pd : parsedata)
  : option nat * list Solvable * option (list nat) :=
  (solvable pd, pool pd, owners pd).

(** The same document up to, and without, the close of its top
    element. *)
Definition doc_named_application_open : list event :=
  Start (lit "application") []
    :: elem "name" [text "Foo"] ++ elem "pkgname" [text "foo"].

(** ** Well-formed documents *)

(** A node of a well-formed document: an element with its attributes and
    children, or a piece of character data. *)
Inductive node :=
  | Elem (nm : list ascii) (atts : list (list ascii * list ascii))
         (children : list node)
  | Txt (s : list ascii).

(** The calls of the handlers that the tokenizer makes for a node, in
    document order: [startElement], the calls for the children, and
    [endElement] with the same name. *)
Fixpoint events_of (n : node) : list event :=
  match n with
  | Elem nm atts children =>
    Start nm atts :: concat (List.map events_of children) ++ [End_ nm]
  | Txt s => [Text s]
  end.

(** The character data of a node, in document order. *)
Fixpoint texts_of (n : node) : list (list ascii) :=
  match n with
  | Elem _ _ children => concat (List.map texts_of children)
  | Txt s => [s]
  end.

(** The content buffer after [pd->lcontent = 0; *pd->content = 0;]. *)
Definition reset_buf (pd : parsedata) : parsedata :=
  set_buf pd (<[0:=NUL]> (content pd)) 0 (acontent pd).

(** The parser is inside a subtree that is skipped for its language. *)
Definition skipping (pd : parsedata) : Prop :=
  skip_depth pd ≠ 0%Z ∧ (skip_depth pd ≤ depth pd)%Z
  ∧ docontent pd = false ∧ (statedepth pd ≤ depth pd)%Z
  ∧ 0 < length (content pd).

(** ** Descriptions *)

(** The blocks of a description: a paragraph with its pieces of text, an
    unordered and an ordered list with the pieces of text of their
    items. *)
Inductive block :=
  | BlockP (ts : list (list ascii))
  | BlockUL (items : list (list (list ascii)))
  | BlockOL (items : list (list (list ascii))).

Definition p_events (ts : list (list ascii)) : list event :=
  Start (lit "p") [] :: (Text <$> ts) ++ [End_ (lit "p")].

Definition block_events (b : block) : list event :=
  match b with
  | BlockP ts => p_events ts
  | BlockUL items =>
    Start (lit "ul") [] :: concat (li_events [] <$> items) ++ [End_ (lit "ul")]
  | BlockOL items =>
    Start (lit "ol") [] :: concat (li_events [] <$> items) ++ [End_ (lit "ol")]
  end.

Definition description_events (blocks : list block) : list event :=
  Start (lit "description") []
    :: concat (block_events <$> blocks) ++ [End_ (lit "description")].



(** The text of a block has no NUL in it, and no item of a list is
    blank. *)
Definition block_ok (b : block) : Prop :=
  match b with
  | BlockP ts => Forall (λ t, NUL ∉ t) ts
  | BlockUL items | BlockOL items => Forall li_item items
  end.

Global Instance block_ok_dec b : Decision (block_ok b).
Proof. destruct b; apply _. Defined.


(** The description of the spec's scenario: a paragraph and an unordered
    list of two items. *)
Definition blocks_scenario : list block :=
  [BlockP [lit "Line one."]; BlockUL [[lit "Item A"]; [lit "Item B"]]].

(** ** The links of a record *)

Section Links.
Context {ext : Externals}.

(** The body of the loop over the owners at the close of an application,
    on the solvable [s] and the name [oname] of an owner. *)
Definition owner_link (s : Solvable) (oname : Id) : Solvable :=
  let s := set_requires s (repo_addid_dep (requires s) oname) in
  set_provides s
    (repo_addid_dep (provides s)
       (pool_str2id
          (pool_tmpjoin (lit "application-appdata(") (pool_id2str oname)
             (lit ")")))).

(** The provides of a record after [self_provide]: the provides before
    it, with the relation of the name and the version when the record
    has a name and no source architecture. *)
Definition with_self_provide (s : Solvable) (deps : list Id) : list Id :=
  if decide (name s ≠ ID_NULL ∧ arch s ≠ ARCH_SRC ∧ arch s ≠ ARCH_NOSRC)
  then repo_addid_dep deps (pool_rel2id (name s) (evr s) REL_EQ)
  else deps.

End Links.

(** A parser state at the close of an application: the pool holds a
    package [pkg] and, behind it, the record [s] of the application; the
    document has the file name [fn] and the owners [os]. *)
Definition demo_pd_links (s : Solvable) (fn : option (list ascii))
    (os : option (list nat)) : parsedata :=
  mkPd 1 STATE_APPLICATION 1 (demo_buf []) 0 (length (demo_buf [])) false
    [mkSolvable (pool_str2id (lit "pkg")) ID_NULL ID_NULL [] []; s]
    (λ _ _, None) (Some 1) 1 None 0 0 0 None false fn os.

(** ** The desktop file *)

(** What [add_missing_tags_from_desktop_file] leaves alone, between the
    values [st] before and [st'] after a part of its loop for the record
    [h]: a name that is set, a summary that is there, and every attribute
    but the summary of the record. *)
Definition desktop_keeps (h : nat) (st st' : desktop_result) : Prop :=
  (st.1.1 ≠ ID_NULL → st'.1.1 = st.1.1)
  ∧ (st.1.2 = true → st'.1.2 = true ∧ st'.2 = st.2)
  ∧ (st'.1.2 = false → st'.2 = st.2)
  ∧ (∀ h' k, h' ≠ h ∨ k ≠ SOLVABLE_SUMMARY → st'.2 h' k = st.2 h' k).

(** A value of a line of a desktop file that the loop takes as it
    stands: not empty, on one line, without blanks at its ends, and short
    enough for the line to fit the buffer of 1024 bytes. *)
Definition clean_value (v : list ascii) : Prop :=
  NL ∉ v ∧ NUL ∉ v ∧ length v ≤ 1000
  ∧ (∃ c, head v = Some c ∧ is_blank c = false)
  ∧ (∃ c, list.last v = Some c ∧ is_blank c = false).

Global Instance clean_value_dec v : Decision (clean_value v).
Proof.
  unfold clean_value.
  assert (∀ l : option ascii,
            Decision (∃ c, l = Some c ∧ is_blank c = false)) as Hdec.
  { intros [c|].
    - destruct (is_blank c) eqn:E.
      + right. intros (c' & [= <-] & H). congruence.
      + left. by exists c.
    - right. by intros (c' & [=] & _). }
  apply _.
Defined.

(** A second file system for the examples, with a desktop file whose
    lines have no blanks around the equals sign. *)
Definition demo_fs2 (path : list ascii) : option (list ascii) :=
  if streq path (lit "/usr/share/applications/demo2.desktop")
  then Some (lit "[Desktop Entry]"
             ++ NL :: (lit "Name" ++ ["="%char] ++ lit "Demo")
             ++ NL :: (lit "Comment" ++ ["="%char] ++ lit "A demo")
             ++ NL :: lit "Icon=demo" ++ [NL])
  else demo_fs path.

Definition demo2 : Externals := {|
  junk := λ _, "?"%char;
  APPDATA_CHECK_DESKTOP_FILE := 1073741824;
  REPO_USE_ROOTDIR := 32;
  REL_EQ := 2;
  ARCH_NOARCH := IdStr (lit "noarch");
  ARCH_SRC := IdStr (lit "src");
  ARCH_NOSRC := IdStr (lit "nosrc");
  ID_EMPTY := IdStr [];
  pool_id2str := λ i, match i with IdStr s => s | _ => [] end;
  pool_prepend_rootdir_tmp := λ p, lit "/root" ++ p;
  fopen_r := demo_fs2
|}.

(** ** The records of the pool *)

(** What a call of a handler does to the pool, from the parser state
    [pd] to [pd']: nothing; or it writes the solvable that [pd->solvable]
    points to, and may clear the pointer; or it adds one solvable with
    every field zero and points to it. *)
Definition pool_step (pd pd' : parsedata) : Prop :=
  (pool pd' = pool pd ∧ solvable pd' = solvable pd)
  ∨ (∃ i s', solvable pd = Some i ∧ i < length (pool pd)
             ∧ pool pd' = <[i:=s']> (pool pd)
             ∧ (solvable pd' = Some i ∨ solvable pd' = None))
  ∨ (pool pd' = pool pd ++ [new_solvable]
     ∧ solvable pd' = Some (length (pool pd))).

(** ** The owners of a metadata file *)

(** Modelled from the spec: [pool_str2id(pool, str, 0)] of the pool
    ([pool.h] and [poolid.h] are not part of the sources at hand),
    "intern a string to an identifier" without creating it: the
    identifier of a string that the pool holds, 0 for any other;
    [interned] tells the strings that the pool holds. *)
Definition pool_str2id_nocreate (interned : list ascii → bool)
    (s : list ascii) : Id :=
  if interned s then pool_str2id s else ID_NULL.

(** The loop of [repo_add_appdata_dir] over the pairs of [flq]:
    [if (flq.elements[i + 1] == id) queue_push(&oq, flq.elements[i]);] *)
Fixpoint owners_loop (flq : list (nat * Id)) (id : Id) (oq : list nat)
  : list nat :=
  match flq with
  | [] => oq
  | (p, id') :: flq' =>
    owners_loop flq' id (if decide (id' = id) then oq ++ [p] else oq)
  end.

(** The owners that [repo_add_appdata_dir] hands to
    [repo_add_appdata_fn] for the directory entry [d_name]:
    [oq.count ? &oq : 0], [None] being the null pointer. *)
Definition dir_owners (interned : list ascii → bool) (flq : list (nat * Id))
    (d_name : list ascii) : option (list nat) :=
  let id := pool_str2id_nocreate interned d_name in
  let oq := if decide (id ≠ ID_NULL) then owners_loop flq id [] else [] in
  match oq with
  | [] => None
  | _ => Some oq
  end.

(** The two tests of [repo_add_appdata_dir] on the name of a directory
    entry: [true] when the file is opened.  The first is
    [if (entry->d_name[0] == '.') continue;]. *)
Definition dir_entry_read (d_name : list ascii) : bool :=
  negb (bool_decide (head d_name = Some "."%char))
  && appdata_dir_entry d_name.

(** The solvables whose file lists hold the file name [d_name], in the
    order of the file lists, once for every time it is listed. *)
Definition listed_in (d_name : list ascii) (e : nat * list (list ascii))
  : list nat :=
  (λ _, e.1) <$> filter (λ s, s = d_name) e.2.

Definition listed (d_name : list ascii)
    (filelists : list (list (nat * list (list ascii)))) : list nat :=
  concat ((λ rd : list (nat * list (list ascii)),
             concat (listed_in d_name <$> rd)) <$> filelists).

(** The events of a [pkgname] element whose text comes in the pieces
    [ts]. *)
Definition pkgname_events (ts : list (list ascii)) : list event :=
  Start (lit "pkgname") [] :: (Text <$> ts) ++ [End_ (lit "pkgname")].

(** The part of the parser state that follows the nesting of the
    elements: the two depths, the state and the depth of the skip. *)
Definition machine (pd : parsedata) : Z * Z * state * Z :=
  (depth pd, statedepth pd, pstate pd, skip_depth pd).

(** A collection of two components: the first has a desktop file, a
    name in German and an element that the parser does not know, the
    second a name. *)
Definition doc_components : node :=
  Elem (lit "components") []
    [Elem (lit "component") [(lit "type", lit "font")]
       [Elem (lit "id") [] [Txt (lit "a.ttf")];
        Elem (lit "name") [(lit "xml:lang", lit "de")] [Txt (lit "A")];
        Elem (lit "screenshots") []
          [Elem (lit "image") [] [Txt (lit "x")]]];
     Txt (lit " ");
     Elem (lit "component") [] [Elem (lit "name") [] [Txt (lit "B")]]].




(** ** Documents that are processed to their end *)

(** The text of a node is blank: nothing is left of it after
    [wsstrip]. *)
Definition blank_node (c : node) : bool :=
  bool_decide (wsstrip_str (concat (texts_of c)) = []).

(** The node is an [li] element. *)
Definition is_li (c : node) : bool :=
  match c with
  | Elem nm _ _ => bool_decide (nm = lit "li")
  | Txt _ => false
  end.

(** Of the [li] elements among the children [cs] of an [ol], [k] of
    which have gone before, those from the tenth on are not blank. *)
Fixpoint ol_items_ok (k : nat) (cs : list node) : bool :=
  match cs with
  | [] => true
  | c :: cs' =>
    if is_li c
    then (bool_decide (k < 9) || negb (blank_node c)) && ol_items_ok (S k) cs'
    else ol_items_ok k cs'
  end.

(** The documents that the tokenizer can hand over and that stay clear
    of the tenth blank item of an ordered list: no character data holds
    a NUL, and the [li] children of every [ol] element are as
    [ol_items_ok] says. *)
Fixpoint wf_node (n : node) : bool :=
  match n with
  | Txt s => bool_decide (NUL ∉ s)
  | Elem nm atts cs =>
    forallb wf_node cs
    && (if decide (nm = lit "ol") then ol_items_ok 0 cs else true)
  end.

(** The parser between two nodes of a document, outside of unknown and
    skipped subtrees and of captured text: it is in a state that has rows
    in the state table, the content buffer is allocated with room for the
    marker of a list item, and below the start state it has a record. *)
Definition parser_ok (pd : parsedata) : Prop :=
  depth pd = statedepth pd ∧ (0 ≤ depth pd)%Z ∧ skip_depth pd = 0%Z
  ∧ docontent pd = false
  ∧ acontent pd = length (content pd) ∧ 3 ≤ acontent pd
  ∧ is_Some (swtab (pstate pd))
  ∧ (pstate pd ≠ STATE_START → is_Some (cur_solvable pd))
  ∧ record_inv pd.

(** A component with a description: a paragraph with markup in it and
    an ordered list of eleven items, the second of which is empty. *)
Definition doc_long_list : node :=
  Elem (lit "component") []
    [Elem (lit "id") [] [Txt (lit "a.desktop")];
     Txt (lit " ");
     Elem (lit "description") []
       [Elem (lit "p") []
          [Txt (lit "Text "); Elem (lit "em") [] [Txt (lit "here")]];
        Elem (lit "ol") []
          ((λ s, Elem (lit "li") [] [Txt (lit s)])
             <$> ["one"; ""; "three"; "four"; "five"; "six"; "seven";
                  "eight"; "nine"; "ten"; "eleven"])]].

(** * Properties *)

Section Properties.
Context {ext : Externals}.

(** ** Byte arrays and C strings *)

Lemma c_str_app (s tail : list ascii) :
  NUL ∉ s → c_str (s ++ NUL :: tail) = Some s.
Proof.
  induction s as [|c s IH]; simpl; intros Hn.
  - done.
  - apply not_elem_of_cons in Hn as [Hc Hs].
    destruct (decide (c = NUL)); [congruence|]. by rewrite IH.
Qed.

Lemma c_str_Some (b s : list ascii) :
  c_str b = Some s → ∃ tail, b = s ++ NUL :: tail ∧ NUL ∉ s.
Proof.
  revert s. induction b as [|c b IH]; simpl; intros s Hs; [done|].
  destruct (decide (c = NUL)) as [->|Hc].
  - simplify_eq. exists b. split; [done|]. apply not_elem_of_nil.
  - destruct (c_str b) as [s'|] eqn:E; simplify_eq/=.
    destruct (IH _ eq_refl) as (tail & -> & Hn).
    exists tail. split; [done|]. apply not_elem_of_cons. done.
Qed.

Lemma store_app_l (pre post : list ascii) i c :
  i < length pre → store (pre ++ post) i c = Some (<[i:=c]> pre ++ post).
Proof.
  intros Hi. unfold store. rewrite decide_True by (rewrite length_app; lia).
  by rewrite insert_app_l.
Qed.

Lemma store_middle (pre post : list ascii) x c :
  store (pre ++ x :: post) (length pre) c = Some (pre ++ c :: post).
Proof.
  unfold store. rewrite decide_True by (rewrite length_app; simpl; lia).
  f_equal. rewrite insert_app_r_alt by lia. by rewrite Nat.sub_diag.
Qed.

Lemma ws_go_not_started_ws ws s : ws_go false ws s = ws_go false 0 s.
Proof.
  revert ws. induction s as [|c s IH]; intros ws; simpl; [done|].
  destruct (is_ws c).
  - rewrite IH. symmetry. apply IH.
  - rewrite !decide_False by (by intros [_ ?]). done.
Qed.

Lemma store_le (pre post : list ascii) j c :
  j ≤ length pre →
  store (pre ++ c :: post) j c = Some (<[j:=c]> (pre ++ [c]) ++ post).
Proof.
  intros Hj. unfold store.
  rewrite decide_True by (rewrite length_app; simpl; lia).
  f_equal. rewrite (cons_middle c pre post), (assoc_L (++)).
  rewrite insert_app_l by (rewrite length_app; simpl; lia). done.
Qed.

Lemma take_S_insert (l : list ascii) j x :
  j < length l → take (S j) (<[j:=x]> l) = take j l ++ [x].
Proof.
  intros Hj. rewrite (take_S_r _ _ x) by (by apply list_lookup_insert_eq).
  by rewrite take_insert_ge by lia.
Qed.

(** The loop of [wsstrip] on an array that holds [pre ++ rest] *)
Lemma wsstrip_loop_spec (rest : list ascii) :
  ∀ fuel pre tail j ws,
    length rest < fuel → NUL ∉ rest → j ≤ length pre →
    (ws ≠ 0%Z → j < length pre) →
    ∃ pre' j',
      wsstrip_loop fuel (pre ++ rest ++ NUL :: tail) (length pre) j ws
      = Some (pre' ++ NUL :: tail, j')
      ∧ length pre' = length pre + length rest
      ∧ j' ≤ length pre'
      ∧ take j' pre' = take j pre ++ ws_go (bool_decide (j ≠ 0)) ws rest.
Proof.
  induction rest as [|c rest IH]; intros fuel pre tail j ws Hf Hn Hj Hws.
  - destruct fuel as [|fuel]; [simpl in Hf; lia|]. simpl.
    rewrite lookup_app_r by lia. rewrite Nat.sub_diag. simpl.
    exists pre, j. rewrite Nat.add_0_r, app_nil_r. done.
  - destruct fuel as [|fuel]; [simpl in Hf; lia|].
    apply not_elem_of_cons in Hn as [Hc Hn]. simpl in Hf.
    cbn [wsstrip_loop ws_go].
    rewrite lookup_app_r by lia. rewrite Nat.sub_diag.
    cbn [lookup list_lookup app mbind option_bind].
    rewrite decide_False by done.
    destruct (is_ws c) eqn:Ews.
    + destruct (IH fuel (pre ++ [c]) tail j
                  (Z.lor ws (if decide (c = NL) then 2 else 1))%Z)
        as (pre' & j' & Hrun & Hlen & Hle & Htake).
      { lia. } { done. } { rewrite length_app. lia. }
      { intros _. rewrite length_app. simpl. lia. }
      exists pre', j'. rewrite length_app in Hrun, Hlen. simpl in Hrun, Hlen.
      rewrite <- (assoc_L (++)) in Hrun. simpl in Hrun.
      replace (length pre + 1) with (S (length pre)) in Hrun by lia.
      rewrite Hrun. split; [done|]. split; [simpl; lia|]. split; [done|].
      rewrite Htake. rewrite take_app_le by lia. done.
    + set (sep := if decide (Z.land ws 2 ≠ 0%Z) then NL else SP).
      assert (∃ pre1 j1,
        (if decide (ws ≠ 0%Z ∧ j ≠ 0)
         then store (pre ++ c :: rest ++ NUL :: tail) j sep
              ≫= λ content, Some (content, S j)
         else Some (pre ++ c :: rest ++ NUL :: tail, j))
        = Some (pre1 ++ c :: rest ++ NUL :: tail, j1)
        ∧ length pre1 = length pre ∧ j1 ≤ length pre1
        ∧ take j1 pre1
          = take j pre ++ (if decide (ws ≠ 0%Z ∧ bool_decide (j ≠ 0) = true)
                           then [sep] else []))
        as (pre1 & j1 & -> & Hl1 & Hj1 & Ht1).
      { destruct (decide (ws ≠ 0%Z ∧ j ≠ 0)) as [[Hw Hj0]|Hno].
        - specialize (Hws Hw). rewrite store_app_l by done. simpl.
          exists (<[j:=sep]> pre), (S j). split; [done|].
          rewrite length_insert. split; [done|]. split; [lia|].
          rewrite take_S_insert by done.
          rewrite decide_True; [done|]. split; [done|].
          by apply bool_decide_eq_true.
        - exists pre, j. split; [done|]. split; [done|]. split; [done|].
          rewrite decide_False; [by rewrite app_nil_r|].
          intros [Hw Hj0]. apply bool_decide_eq_true in Hj0. tauto. }
      cbn [mbind option_bind].
      rewrite <- Hl1. rewrite lookup_app_r by lia. rewrite Nat.sub_diag.
      cbn [lookup list_lookup mbind option_bind].
      rewrite store_le by done. cbn [mbind option_bind].
      destruct (IH fuel (<[j1:=c]> (pre1 ++ [c])) tail (S j1) 0%Z)
        as (pre' & j' & Hrun & Hlen & Hle & Htake).
      { lia. } { done. }
      { rewrite length_insert, length_app. simpl. lia. } { done. }
      rewrite length_insert, length_app in Hrun, Hlen.
      simpl in Hrun, Hlen.
      replace (length pre1 + 1) with (S (length pre1)) in Hrun by lia.
      rewrite Hrun. exists pre', j'. split; [done|]. split; [simpl; lia|].
      split; [done|]. rewrite Htake.
      rewrite take_S_insert by (rewrite length_app; simpl; lia).
      rewrite take_app_le by lia. rewrite Ht1.
      rewrite <- !(assoc_L (++)). done.
Qed.

Lemma ws_flag_lor_ne0 ws c : Z.lor ws (ws_flag c) ≠ 0%Z.
Proof.
  intros H. apply Z.lor_eq_0_iff in H as [_ H].
  unfold ws_flag in H. by destruct (decide (c = NL)).
Qed.

Lemma ws_flag_land2 ws c :
  Z.land (Z.lor ws (ws_flag c)) 2 ≠ 0%Z ↔ Z.land ws 2 ≠ 0%Z ∨ c = NL.
Proof.
  rewrite Z.land_lor_distr_l. unfold ws_flag.
  destruct (decide (c = NL)) as [->|Hc].
  - change (Z.land 2 2) with 2%Z. split; [auto|]. intros _ H.
    by apply Z.lor_eq_0_iff in H as [_ H].
  - change (Z.land 1 2) with 0%Z. rewrite Z.lor_0_r. naive_solver.
Qed.

Lemma nonws_app s t : nonws (s ++ t) = nonws s ++ nonws t.
Proof. apply List.filter_app. Qed.

Lemma is_ws_SP : is_ws SP = true. Proof. done. Qed.
Lemma is_ws_NL : is_ws NL = true. Proof. done. Qed.

Lemma nonws_ws_go st ws s : nonws (ws_go st ws s) = nonws s.
Proof.
  revert st ws. induction s as [|c s IH]; intros st ws; simpl; [done|].
  destruct (is_ws c) eqn:E; simpl.
  - apply IH.
  - rewrite nonws_app. simpl. rewrite E. simpl. rewrite IH.
    destruct (decide _); [|done]. simpl.
    by destruct (decide (Z.land ws 2 ≠ 0%Z)).
Qed.

Lemma ws_go_snoc_nonws a x rest st ws :
  is_ws x = false →
  ws_go st ws (a ++ x :: rest) = ws_go st ws (a ++ [x]) ++ ws_go true 0 rest.
Proof.
  intros Hx. revert st ws. induction a as [|c a IH]; intros st ws; simpl.
  - rewrite Hx. by rewrite <- !(assoc_L (++)).
  - destruct (is_ws c); [apply IH|].
    rewrite IH. by rewrite <- !(assoc_L (++)).
Qed.

Lemma ws_go_snoc_last a x st ws :
  is_ws x = false →
  ∃ a', ws_go st ws (a ++ [x]) = a' ++ [x] ∧ nonws a' = nonws a.
Proof.
  intros Hx. revert st ws. induction a as [|c a IH]; intros st ws; simpl.
  - rewrite Hx.
    exists (if decide (ws ≠ 0%Z ∧ st = true)
            then [if decide (Z.land ws 2 ≠ 0%Z) then NL else SP] else []).
    split; [done|].
    destruct (decide _); [|done]. simpl.
    by destruct (decide (Z.land ws 2 ≠ 0%Z)).
  - destruct (is_ws c) eqn:E; [apply IH|].
    destruct (IH true 0%Z) as (a' & -> & Ha').
    set (seps := if decide (ws ≠ 0%Z ∧ st = true)
                 then [if decide (Z.land ws 2 ≠ 0%Z) then NL else SP]
                 else []).
    exists (seps ++ c :: a'). split; [by rewrite <- (assoc_L (++))|].
    rewrite nonws_app. simpl. rewrite E. simpl. rewrite Ha'.
    unfold seps. destruct (decide _); [|done]. simpl.
    by destruct (decide (Z.land ws 2 ≠ 0%Z)).
Qed.

Lemma ws_go_run w y b ws :
  Forall (λ c, is_ws c = true) w → is_ws y = false →
  (ws ≠ 0%Z ∨ w ≠ []) →
  ws_go true ws (w ++ y :: b)
  = (if decide (Z.land ws 2 ≠ 0%Z ∨ NL ∈ w) then NL else SP)
    :: y :: ws_go true 0 b.
Proof.
  intros Hw Hy. revert ws. induction Hw as [|c w Hc Hw IH]; intros ws Hne.
  - simpl. rewrite Hy. destruct Hne as [Hne|]; [|done].
    rewrite decide_True by done. simpl.
    destruct (decide (Z.land ws 2 ≠ 0%Z)).
    + rewrite decide_True by auto. done.
    + rewrite decide_False; [done|]. intros [?|H]; [done|].
      by apply elem_of_nil in H.
  - simpl. rewrite Hc. fold (ws_flag c). rewrite IH.
    2:{ left. apply ws_flag_lor_ne0. }
    f_equal. apply decide_ext. rewrite ws_flag_land2, elem_of_cons.
    naive_solver.
Qed.

Lemma ws_go_head ws s c :
  head (ws_go false ws s) = Some c → is_ws c = false.
Proof.
  revert ws. induction s as [|x s IH]; intros ws; simpl; [done|].
  destruct (is_ws x) eqn:E; [apply IH|].
  rewrite decide_False by (by intros [_ ?]). simpl. congruence.
Qed.

Lemma ws_go_last st ws s c :
  list.last (ws_go st ws s) = Some c → is_ws c = false.
Proof.
  revert st ws. induction s as [|x s IH]; intros st ws; simpl; [done|].
  destruct (is_ws x) eqn:E; [apply IH|].
  rewrite last_app. simpl.
  destruct (ws_go true 0 s) as [|y out] eqn:Eo.
  - simpl. congruence.
  - rewrite last_cons. specialize (IH true 0%Z). rewrite Eo in IH.
    destruct (list.last (y :: out)) eqn:El; [|by apply last_None in El].
    intros ?; simplify_eq. by apply IH.
Qed.

Lemma no_adjacent_ws_lookup l i c d :
  no_adjacent_ws l → l !! i = Some c → l !! S i = Some d →
  is_ws c = true → is_ws d = false.
Proof.
  revert i. induction l as [|x l IH]; intros i H Hc Hd; [done|].
  destruct H as [H1 H2]. destruct i as [|i]; simpl in *.
  - destruct l; simplify_eq/=. done.
  - eauto.
Qed.

Lemma ws_go_no_adjacent st ws s : no_adjacent_ws (ws_go st ws s).
Proof.
  revert st ws. induction s as [|x s IH]; intros st ws; simpl; [done|].
  destruct (is_ws x) eqn:E; [apply IH|].
  assert (no_adjacent_ws (x :: ws_go true 0 s)) as Hx.
  { split; [|apply IH]. destruct (ws_go true 0 s); [done|]. congruence. }
  destruct (decide _); [|done]. simpl. split; [done|]. apply Hx.
Qed.

Lemma ws_go_elem st ws s c :
  c ∈ ws_go st ws s → (c ∈ s ∧ is_ws c = false) ∨ c = SP ∨ c = NL.
Proof.
  revert st ws. induction s as [|x s IH]; intros st ws; simpl.
  - intros H. by apply elem_of_nil in H.
  - destruct (is_ws x) eqn:E.
    + intros H. destruct (IH _ _ H) as [[? ?]|?]; [|by right].
      left. split; [by apply elem_of_cons; right|done].
    + rewrite elem_of_app, elem_of_cons. intros [H|[->|H]].
      * destruct (decide _); [|by apply elem_of_nil in H].
        apply list_elem_of_singleton in H.
        destruct (decide (Z.land ws 2 ≠ 0%Z)); auto.
      * left. split; [apply elem_of_cons; by left|done].
      * destruct (IH _ _ H) as [[? ?]|?]; [|by right].
        left. split; [by apply elem_of_cons; right|done].
Qed.

Lemma c_str_insert_NUL (l tail : list ascii) j :
  j < length l → NUL ∉ take j l →
  c_str (<[j:=NUL]> l ++ tail) = Some (take j l).
Proof.
  intros Hj Hn. rewrite insert_take_drop by done.
  rewrite <- (assoc_L (++)). simpl. by apply c_str_app.
Qed.

Lemma wsstrip_str_no_NUL s : NUL ∉ s → NUL ∉ wsstrip_str s.
Proof.
  intros Hn H. apply ws_go_elem in H as [[? ?]|[?|?]]; done.
Qed.

(** [wsstrip] on a buffer that holds the string [s]. *)
Lemma wsstrip_spec pd s :
  c_str (content pd) = Some s →
  ∃ b, wsstrip pd = Some (set_buf pd b (length (wsstrip_str s)) (acontent pd))
       ∧ c_str b = Some (wsstrip_str s)
       ∧ length b = length (content pd).
Proof.
  intros Hs. apply c_str_Some in Hs as (tail & Hc & Hn).
  destruct (wsstrip_loop_spec s (S (length (content pd))) [] tail 0 0%Z)
    as (pre' & j' & Hrun & Hlen & Hle & Htake); [| done | done | done |].
  { rewrite Hc, length_app. lia. }
  cbn [app length] in Hrun. simpl in Hlen, Htake.
  fold (wsstrip_str s) in Htake.
  assert (j' = length (wsstrip_str s)) as Hj'.
  { rewrite <- Htake. by rewrite length_take_le. }
  subst j'. unfold wsstrip. rewrite Hc in Hrun |- *. rewrite Hrun.
  cbn [mbind option_bind].
  rewrite store_le by done. cbn [mbind option_bind].
  eexists. split; [done|]. split.
  - rewrite c_str_insert_NUL.
    + rewrite take_app_le by done. by rewrite Htake.
    + rewrite length_app. simpl. lia.
    + rewrite take_app_le by done. rewrite Htake.
      by apply wsstrip_str_no_NUL.
  - rewrite !length_app, length_insert, length_app. simpl. lia.
Qed.

(** *** [indent] *)

Lemma memmove_up (pre mid tail : list ascii) il :
  il ≤ length tail →
  memmove (pre ++ mid ++ tail) (length pre + il) (length pre) (length mid)
  = Some (pre ++ take il (mid ++ tail) ++ mid ++ drop il tail).
Proof.
  intros Hil. unfold memmove.
  rewrite decide_True by (rewrite !length_app; lia).
  f_equal. rewrite take_app_add. rewrite drop_app_length.
  rewrite take_app_length. rewrite <- (assoc_L (++)). do 2 f_equal.
  rewrite (assoc_L (++)).
  rewrite drop_app_ge by (rewrite length_app; lia).
  rewrite length_app. do 2 f_equal. lia.
Qed.

Lemma fill_spec (xs : list ascii) :
  ∀ pre post c,
    fill (pre ++ xs ++ post) (length pre) (length xs) c
    = Some (pre ++ replicate (length xs) c ++ post).
Proof.
  induction xs as [|x xs IH]; intros pre post c; simpl; [done|].
  rewrite store_middle. simpl.
  specialize (IH (pre ++ [c]) post c).
  rewrite length_app in IH. simpl in IH.
  rewrite <- !(assoc_L (++)) in IH. simpl in IH.
  replace (length pre + 1) with (S (length pre)) in IH by lia.
  done.
Qed.

Lemma fill_spec_len (xs pre post : list ascii) n c :
  length xs = n →
  fill (pre ++ xs ++ post) (length pre) n c
  = Some (pre ++ replicate n c ++ post).
Proof. intros <-. apply fill_spec. Qed.

Lemma skip_line_spec (seg : list ascii) :
  ∀ fuel pre stop post,
    length seg < fuel → NUL ∉ seg → NL ∉ seg → (stop = NUL ∨ stop = NL) →
    skip_line fuel (pre ++ seg ++ stop :: post) (length pre)
    = Some (length pre + length seg).
Proof.
  induction seg as [|x seg IH]; intros fuel pre stop post Hf Hn Hl Hstop;
    (destruct fuel as [|fuel]; [simpl in Hf; lia|]); simpl.
  - rewrite lookup_app_r by lia. rewrite Nat.sub_diag. simpl.
    rewrite decide_True by done. f_equal. lia.
  - apply not_elem_of_cons in Hn as [? ?].
    apply not_elem_of_cons in Hl as [? ?].
    rewrite lookup_app_r by lia. rewrite Nat.sub_diag. simpl.
    rewrite decide_False by naive_solver.
    specialize (IH fuel (pre ++ [x]) stop post).
    rewrite length_app in IH. simpl in IH, Hf.
    rewrite <- !(assoc_L (++)) in IH. simpl in IH.
    replace (length pre + 1) with (S (length pre)) in IH by lia.
    rewrite IH by (done || lia). f_equal. lia.
Qed.

(** A string is a line followed by nothing or by a newline and more. *)
Lemma first_line (s : list ascii) :
  ∃ ln rest, s = ln ++ rest ∧ NL ∉ ln ∧ (rest = [] ∨ ∃ r, rest = NL :: r).
Proof.
  induction s as [|c s (ln & rest & -> & Hln & Hrest)].
  - exists [], []. split; [done|]. split; [apply not_elem_of_nil|by left].
  - destruct (decide (c = NL)) as [->|Hc].
    + exists [], (NL :: ln ++ rest). split; [done|].
      split; [apply not_elem_of_nil|right; eauto].
    + exists (c :: ln), rest. split; [done|].
      split; [by apply not_elem_of_cons|done].
Qed.

Lemma indent_go_line il ln rest :
  NL ∉ ln → (rest = [] ∨ ∃ r, rest = NL :: r) →
  indent_go il false (ln ++ rest) = ln ++ indent_go il true rest.
Proof.
  intros Hln Hrest. induction ln as [|c ln IH]; simpl.
  - destruct Hrest as [->|[r ->]]; [done|]. simpl. done.
  - apply not_elem_of_cons in Hln as [? ?].
    rewrite decide_False by done. simpl. by rewrite IH.
Qed.

Lemma indent_go_no_NUL il bol s : NUL ∉ s → NUL ∉ indent_go il bol s.
Proof.
  revert bol. induction s as [|c s IH]; intros bol Hn; simpl; [done|].
  apply not_elem_of_cons in Hn as [? ?].
  destruct (decide (c = NL)).
  - apply not_elem_of_cons. split; [done|]. by apply IH.
  - rewrite not_elem_of_app, not_elem_of_cons. split; [|split; [done|by apply IH]].
    destruct bol; [|apply not_elem_of_nil].
    intros H'. apply elem_of_replicate in H' as [? _]. done.
Qed.


Lemma realloc_grow (b : list ascii) n :
  length b ≤ n → ∃ extra, realloc b n = b ++ extra ∧ length extra = n - length b.
Proof.
  intros Hn. unfold realloc. rewrite take_ge by done.
  eexists. split; [done|]. by rewrite length_fmap, length_seq.
Qed.

Lemma indent_loop_spec il :
  ∀ fuel done rest tail lc ac,
    length rest < fuel → NUL ∉ rest →
    lc = length done + length rest →
    ac = length done + length rest + 1 + length tail →
    ∃ tail',
      indent_loop fuel (done ++ rest ++ NUL :: tail) lc ac il (length done)
      = Some (done ++ indent_str il rest ++ NUL :: tail',
              length done + length (indent_str il rest),
              length done + length (indent_str il rest) + 1 + length tail').
Proof.
  induction fuel as [|fuel IH]; intros done rest tail lc ac Hf Hn Hlc Hac;
    [lia|].
  cbn [indent_loop].
  rewrite lookup_app_r by lia. rewrite Nat.sub_diag.
  destruct rest as [|c rest].
  { simpl. exists tail. subst. simpl. do 3 f_equal. }
  apply not_elem_of_cons in Hn as [Hc Hn]. simpl in Hf.
  cbn [lookup list_lookup app mbind option_bind].
  rewrite decide_False by done.
  destruct (decide (c = NL)) as [->|Hnl].
  - destruct (IH (done ++ [NL]) rest tail lc ac) as [tail' Hrun].
    { lia. } { done. }
    { rewrite length_app. simpl in *. lia. }
    { rewrite length_app. simpl in *. lia. }
    rewrite <- ?(assoc_L (++)) in Hrun. cbn [app] in Hrun.
    replace (length (done ++ [NL])) with (S (length done)) in Hrun
      by (rewrite length_app; simpl; lia).
    rewrite Hrun. exists tail'. unfold indent_str. cbn [indent_go].
    rewrite decide_True by done. simpl. do 2 f_equal; [f_equal|]; lia.
  - destruct (first_line rest) as (ln & rest' & -> & Hln & Hrest').
    apply not_elem_of_app in Hn as [Hn1 Hn2].
    rewrite length_app in Hf. simpl in Hlc, Hac.
    rewrite length_app in Hlc, Hac.
    set (b := done ++ c :: (ln ++ rest') ++ NUL :: tail).
    set (mid := (c :: ln) ++ rest' ++ [NUL]).
    assert (∃ tail1 ac1,
      (if decide (ac < lc + il + 1)
       then (realloc b (lc + il + 256), lc + il + 256)
       else (b, ac))
      = (done ++ mid ++ tail1, ac1)
      ∧ il ≤ length tail1
      ∧ ac1 = length done + length mid + length tail1)
      as (tail1 & ac1 & -> & Htail1 & Hac1).
    { assert (b = done ++ mid ++ tail) as Hb.
      { unfold b, mid. rewrite <- ?(assoc_L (++)). simpl.
        by rewrite <- ?(assoc_L (++)). }
      assert (length mid = S (length ln + length rest' + 1)) as Hmid.
      { unfold mid. simpl. rewrite !length_app. simpl. lia. }
      assert (length b = length done + length mid + length tail) as Hlb.
      { rewrite Hb, !length_app. lia. }
      destruct (decide (ac < lc + il + 1)).
      - destruct (realloc_grow b (lc + il + 256)) as (extra & -> & He).
        { lia. }
        exists (tail ++ extra), (lc + il + 256). split; [|split].
        + rewrite Hb. by rewrite <- ?(assoc_L (++)).
        + rewrite length_app. lia.
        + rewrite length_app. lia.
      - exists tail, ac. split; [by rewrite Hb|]. split; lia. }
    rewrite decide_True by lia. cbn [mbind option_bind].
    replace (lc - length done + 1) with (length mid).
    2:{ unfold mid. simpl. rewrite !length_app. simpl. lia. }
    rewrite memmove_up by done. cbn [mbind option_bind].
    assert (length (take il (mid ++ tail1)) = il) as Hil.
    { rewrite length_take_le; [done|]. rewrite length_app. lia. }
    rewrite (fill_spec_len _ _ _ il) by done. cbn [mbind option_bind].
    set (done' := done ++ replicate il SP ++ c :: ln).
    set (F := done' ++ rest' ++ NUL :: drop il tail1).
    replace (done ++ replicate il SP ++ mid ++ drop il tail1) with F.
    2:{ unfold F, done', mid. rewrite <- ?(assoc_L (++)). simpl.
        by rewrite <- ?(assoc_L (++)). }
    assert (skip_line (S (length F)) F (length done) = Some (length done'))
      as ->.
    { set (stop := match rest' with [] => NUL | _ => NL end).
      set (post := drop 1 rest'
                   ++ (match rest' with [] => [] | _ => [NUL] end)
                   ++ drop il tail1).
      assert (F = done ++ (replicate il SP ++ c :: ln) ++ stop :: post) as ->.
      { unfold F, done', stop, post. rewrite <- ?(assoc_L (++)). simpl.
        do 3 f_equal.
        destruct Hrest' as [->|[r ->]]; simpl; [done|].
        by rewrite <- ?(assoc_L (++)). }
      rewrite skip_line_spec.
      - unfold done'. by rewrite !length_app.
      - rewrite !length_app. simpl. lia.
      - rewrite not_elem_of_app, not_elem_of_cons. split; [|done].
        intros H'. apply elem_of_replicate in H' as [? _]. done.
      - rewrite not_elem_of_app, not_elem_of_cons. split; [|done].
        intros H'. apply elem_of_replicate in H' as [? _]. done.
      - unfold stop. destruct Hrest' as [->|[r ->]]; auto. }
    cbn [mbind option_bind].
    destruct (IH done' rest' (drop il tail1) (lc + il) ac1) as [tail' Hrun].
    { lia. } { done. }
    { unfold done'. rewrite !length_app, length_replicate. simpl. lia. }
    { unfold done'. rewrite !length_app, length_replicate, length_drop.
      simpl. unfold mid in Hac1. simpl in Hac1. rewrite !length_app in Hac1.
      simpl in Hac1. lia. }
    exists tail'. unfold F. rewrite Hrun.
    assert (indent_str il (c :: ln ++ rest')
            = replicate il SP ++ c :: ln ++ indent_str il rest') as ->.
    { unfold indent_str. simpl. rewrite decide_False by done.
      by rewrite indent_go_line. }
    unfold done'. f_equal. f_equal; [f_equal|].
    + rewrite <- ?(assoc_L (++)). simpl. by rewrite <- ?(assoc_L (++)).
    + rewrite !length_app. simpl. rewrite !length_app. lia.
    + rewrite !length_app. simpl. rewrite !length_app. lia.
Qed.


(** [indent] on a buffer that holds the string [s]. *)
Lemma indent_spec pd s il :
  c_str (content pd) = Some s → lcontent pd = length s →
  acontent pd = length (content pd) →
  ∃ b, indent pd il
       = Some (set_buf pd b (length (indent_str il s)) (length b))
       ∧ c_str b = Some (indent_str il s).
Proof.
  intros Hs Hl Ha. apply c_str_Some in Hs as (tail & Hc & Hn).
  destruct (indent_loop_spec il (S (length (content pd))) [] s tail
              (lcontent pd) (acontent pd)) as [tail' Hrun].
  { rewrite Hc, length_app. lia. } { done. } { simpl. lia. }
  { rewrite Ha, Hc, length_app. simpl. lia. }
  cbn [app length] in Hrun. unfold indent.
  rewrite Hc in Hrun |- *. rewrite Hrun. cbn [mbind option_bind].
  eexists. split.
  - do 2 f_equal. rewrite length_app. simpl. lia.
  - apply c_str_app. by apply indent_go_no_NUL.
Qed.

Lemma copy_bytes_spec (t : list ascii) :
  ∀ pre xs post,
    length xs = length t →
    copy_bytes (pre ++ xs ++ post) (length pre) t = Some (pre ++ t ++ post).
Proof.
  induction t as [|c t IH]; intros pre xs post Hlen.
  - destruct xs; [done|simpl in Hlen; lia].
  - destruct xs as [|x xs]; simpl in Hlen; [lia|]. simpl.
    rewrite store_middle. simpl.
    specialize (IH (pre ++ [c]) xs post).
    rewrite length_app in IH. simpl in IH.
    rewrite <- !(assoc_L (++)) in IH. simpl in IH.
    replace (length pre + 1) with (S (length pre)) in IH by lia.
    apply IH. lia.
Qed.

(** [characterData] appends to the string in the buffer. *)
Lemma characterData_spec pd s t :
  docontent pd = true →
  c_str (content pd) = Some s → lcontent pd = length s →
  acontent pd = length (content pd) → NUL ∉ t →
  ∃ b, characterData pd t
       = Some (set_buf pd b (length (s ++ t)) (length b))
       ∧ c_str b = Some (s ++ t)
       ∧ length (content pd) ≤ length b.
Proof.
  intros Hdo Hs Hl Ha Ht. apply c_str_Some in Hs as (tail & Hc & Hn).
  unfold characterData. rewrite Hdo. cbn [negb].
  assert (∃ R,
    (if decide (acontent pd < lcontent pd + length t + 1)
     then (realloc (content pd) (lcontent pd + length t + 1 + 256),
           lcontent pd + length t + 1 + 256)
     else (content pd, acontent pd))
    = (s ++ R, length (s ++ R))
    ∧ length t < length R
    ∧ length (content pd) ≤ length (s ++ R)) as (R & -> & HR & Hge).
  { assert (length (content pd) = length s + 1 + length tail) as Hlc.
    { rewrite Hc, length_app. simpl. lia. }
    destruct (decide _).
    - destruct (realloc_grow (content pd)
                  (lcontent pd + length t + 1 + 256)) as (extra & -> & He).
      { lia. }
      exists ((NUL :: tail) ++ extra). split; [|split].
      + rewrite Hc, <- !(assoc_L (++)). f_equal.
        rewrite !length_app. simpl. rewrite ?length_app. lia.
      + rewrite length_app. simpl. lia.
      + rewrite !length_app. simpl. lia.
    - exists (NUL :: tail). split; [|split; [simpl; lia|]].
      + rewrite <- Hc. by rewrite Ha.
      + by rewrite <- Hc. }
  rewrite Hl.
  pose proof (copy_bytes_spec t s (take (length t) R) (drop (length t) R))
    as Hcopy.
  rewrite take_drop in Hcopy.
  rewrite Hcopy by (rewrite length_take_le; lia).
  cbn [mbind option_bind].
  destruct (drop (length t) R) as [|x post] eqn:Hd.
  { apply (f_equal length) in Hd. rewrite length_drop in Hd.
    simpl in Hd. lia. }
  rewrite <- length_app, (assoc_L (++)), store_middle.
  cbn [mbind option_bind].
  assert (length ((s ++ t) ++ NUL :: post) = length (s ++ R)) as Hlen.
  { rewrite <- (take_drop (length t) R), Hd.
    rewrite !length_app. simpl. rewrite length_take_le by lia. lia. }
  eexists. split; [|split].
  - do 2 f_equal. by rewrite Hlen.
  - rewrite c_str_app; [done|]. by apply not_elem_of_app.
  - lia.
Qed.

(** *** Lines *)

Lemma lines_cons c s :
  c ≠ NL → lines (c :: s) = (c :: hd [] (lines s)) :: tl (lines s).
Proof.
  intros Hc. simpl. rewrite decide_False by done.
  destruct (lines s) eqn:E; [|done].
  by destruct s; simpl in E; repeat case_match.
Qed.

Lemma lines_app_line ln s :
  NL ∉ ln → lines (ln ++ s) = (ln ++ hd [] (lines s)) :: tl (lines s).
Proof.
  induction ln as [|c ln IH]; intros Hn.
  - simpl. destruct (lines s) eqn:E; [|done].
    by destruct s; simpl in E; repeat case_match.
  - apply not_elem_of_cons in Hn as [? ?].
    change ((c :: ln) ++ s) with (c :: (ln ++ s)).
    rewrite lines_cons by done. by rewrite IH.
Qed.

Lemma lines_indent_go il s :
  lines (indent_go il false s)
  = hd [] (lines s) :: (indent_line il <$> tl (lines s))
  ∧ lines (indent_go il true s) = indent_line il <$> lines s.
Proof.
  induction s as [|c s [IH1 IH2]]; [done|].
  cbn [indent_go]. destruct (decide (c = NL)) as [->|Hc].
  - simpl. rewrite IH2. done.
  - rewrite (lines_cons c s) by done. split.
    + simpl. rewrite decide_False by done. rewrite IH1. done.
    + rewrite lines_app_line.
      2:{ intros H'. apply elem_of_replicate in H' as [? _]. done. }
      rewrite (lines_cons c (indent_go il false s)) by done.
      rewrite IH1. done.
Qed.

Lemma length_indent_go il s :
  length (indent_go il false s)
  = length s + il * length (filter (λ ln, ln ≠ []) (tl (lines s)))
  ∧ length (indent_go il true s) = length s + il * nonempty_lines s.
Proof.
  unfold nonempty_lines.
  induction s as [|c s [IH1 IH2]]; [simpl; lia|].
  cbn [indent_go]. destruct (decide (c = NL)) as [->|Hc].
  - simpl. rewrite IH2. done.
  - rewrite (lines_cons c s) by done. split.
    + simpl. rewrite IH1. done.
    + rewrite length_app, length_replicate.
      rewrite filter_cons_True by done. simpl. rewrite IH1. lia.
Qed.

(** ** Claim C4 *)

(** C4.  For every buffer that holds a string [s], [wsstrip] leaves a
    string [out] in the buffer, of length [pd->lcontent], such that: [out]
    does not start and does not end with whitespace; no two bytes of [out]
    next to each other are both whitespace, and the only whitespace bytes
    of [out] are the space and the newline; the bytes of [s] that are not
    whitespace are the bytes of [out] that are not whitespace, in the same
    order; and a run [w] of whitespace between two other bytes [x] and [y]
    of [s] is a single byte between [x] and [y] in [out], the newline when
    [w] has a newline in it and the space otherwise. *)
Theorem wsstrip_normalises pd s :
  c_str (content pd) = Some s →
  ∃ pd' out,
    wsstrip pd = Some pd'
    ∧ c_str (content pd') = Some out
    ∧ lcontent pd' = length out
    ∧ (∀ c, head out = Some c → is_ws c = false)
    ∧ (∀ c, list.last out = Some c → is_ws c = false)
    ∧ (∀ i c d, out !! i = Some c → out !! S i = Some d →
                is_ws c = true → is_ws d = false)
    ∧ (∀ c, c ∈ out → is_ws c = true → c = SP ∨ c = NL)
    ∧ nonws out = nonws s
    ∧ (∀ a x w y b,
         s = a ++ x :: w ++ y :: b →
         is_ws x = false → is_ws y = false →
         w ≠ [] → Forall (λ c, is_ws c = true) w →
         ∃ a' b', out = a' ++ x :: ws_sep w :: y :: b'
                  ∧ nonws a' = nonws a ∧ nonws b' = nonws b).
Proof.
  intros Hs. destruct (wsstrip_spec pd s Hs) as (b & Hrun & Hb & Hlen).
  eexists _, (wsstrip_str s). split; [exact Hrun|].
  split; [exact Hb|]. split; [done|].
  split; [apply ws_go_head|]. split; [apply ws_go_last|].
  split; [intros i c d; apply no_adjacent_ws_lookup, ws_go_no_adjacent|].
  split.
  { intros c Hc Hws. apply ws_go_elem in Hc as [[_ ?]|?]; [congruence|done]. }
  split; [apply nonws_ws_go|].
  intros a x w y b' -> Hx Hy Hw Hall. unfold wsstrip_str.
  rewrite ws_go_snoc_nonws by done.
  destruct (ws_go_snoc_last a x false 0%Z Hx) as (a' & -> & Ha').
  rewrite (ws_go_run w y b' 0%Z) by auto.
  exists a', (ws_go true 0 b'). split; [|split; [done|apply nonws_ws_go]].
  rewrite <- (assoc_L (++)). simpl. do 3 f_equal. unfold ws_sep.
  apply decide_ext. change (Z.land 0 2) with 0%Z. naive_solver.
Qed.

(** ** Claim C5 *)

(** C5, amended.  For every buffer that holds a string [s] of length
    [pd->lcontent] and every [il], [indent] leaves a string [out] in the
    buffer whose lines are the lines of [s], each line that is not empty
    with [il] spaces in front of it and each empty line as it is; the
    length grows by [il] times the number of lines that are not empty. *)
Theorem indent_nonempty_lines pd s il :
  c_str (content pd) = Some s → lcontent pd = length s →
  acontent pd = length (content pd) →
  ∃ pd' out,
    indent pd il = Some pd'
    ∧ c_str (content pd') = Some out
    ∧ lcontent pd' = length out
    ∧ acontent pd' = length (content pd')
    ∧ lines out = indent_line il <$> lines s
    ∧ length out = length s + il * nonempty_lines s.
Proof.
  intros Hs Hl Ha.
  destruct (indent_spec pd s il Hs Hl Ha) as (b & Hrun & Hb).
  eexists _, (indent_str il s). split; [exact Hrun|].
  split; [exact Hb|]. split; [done|]. split; [done|]. split.
  - apply lines_indent_go.
  - apply length_indent_go.
Qed.

(** ** The close of an element *)

Lemma endElement_close pd nm :
  depth pd = statedepth pd → skip_depth pd = 0%Z →
  endElement pd nm
  = end_switch (closing pd)
    ≫= λ pd', Some (set_docontent (set_state pd' (sbtab (pstate pd'))) false).
Proof.
  intros Hd Hs. unfold endElement.
  rewrite decide_False by (by intros ?). simpl. rewrite Hs.
  rewrite decide_False by (by intros [? _]). done.
Qed.

(** ** Claim C3 *)

(** C3, amended.  At the close of a [summary], [url], [product_license],
    [project_group], [extends] or [keyword] element that is not in a
    skipped subtree, the text written into the field of the record (set
    for the summary and the url, appended for the four arrays) is the
    captured content as it is in the buffer, byte for byte: [wsstrip] is
    not applied to it. *)
Theorem captured_text_is_written_unstripped pd nm c :
  depth pd = statedepth pd → skip_depth pd = 0%Z →
  c_str (content pd) = Some c →
  (pstate pd = STATE_SUMMARY →
   ∃ pd', endElement pd nm = Some pd'
          ∧ data pd' = repodata_set_str (data pd) (handle pd)
                         SOLVABLE_SUMMARY c)
  ∧ (pstate pd = STATE_URL →
     ∃ pd', endElement pd nm = Some pd'
            ∧ data pd' = repodata_set_str (data pd) (handle pd)
                           SOLVABLE_URL c)
  ∧ (pstate pd = STATE_LICENCE →
     ∃ pd', endElement pd nm = Some pd'
            ∧ data pd' = repodata_add_poolstr_array (data pd) (handle pd)
                           SOLVABLE_LICENSE c)
  ∧ (pstate pd = STATE_GROUP →
     ∃ pd', endElement pd nm = Some pd'
            ∧ data pd' = repodata_add_poolstr_array (data pd) (handle pd)
                           SOLVABLE_GROUP c)
  ∧ (pstate pd = STATE_EXTENDS →
     ∃ pd', endElement pd nm = Some pd'
            ∧ data pd' = repodata_add_poolstr_array (data pd) (handle pd)
                           SOLVABLE_EXTENDS c)
  ∧ (pstate pd = STATE_KEYWORD →
     ∃ pd', endElement pd nm = Some pd'
            ∧ data pd' = repodata_add_poolstr_array (data pd) (handle pd)
                           SOLVABLE_KEYWORDS c).
Proof.
  intros Hd Hs Hc.
  repeat split; intros Hst; rewrite endElement_close by done;
    unfold end_switch, content_str; simpl; rewrite Hst, Hc; simpl;
    eexists; split; reflexivity.
Qed.

(** ** Claim C8 *)

Lemma strip_trailing_newlines_spec (d : list ascii) :
  ∀ l, l ≤ length d →
    ∃ k, take l d = strip_trailing_newlines l d ++ replicate k NL
         ∧ list.last (strip_trailing_newlines l d) ≠ Some NL.
Proof.
  induction l as [|l IH]; intros Hl.
  - exists 0. done.
  - destruct (lookup_lt_is_Some_2 d l) as [x Hx]; [lia|].
    rewrite (take_S_r _ _ x) by done. simpl.
    destruct (decide (d !! l = Some NL)) as [Heq|Hne].
    + destruct IH as (k & Hk & Hlast); [lia|].
      exists (S k). split; [|done].
      rewrite Hx in Heq. injection Heq as ->.
      rewrite Hk, <- (assoc_L (++)). f_equal.
      change [NL] with (replicate 1 NL). rewrite <- replicate_add.
      f_equal. lia.
    + exists 0. rewrite (take_S_r _ _ x) by done.
      split; [by rewrite app_nil_r|]. rewrite last_snoc. congruence.
Qed.

(** C8, amended.  At the close of a [description] element that is not in
    a skipped subtree: when no description has been accumulated (the
    pointer is null) the description field of the record is left as it
    is; when one has been accumulated, all its trailing newlines are
    stripped and the result is written to the description field, also
    when the result is the empty string. *)
Theorem description_close pd nm :
  depth pd = statedepth pd → skip_depth pd = 0%Z →
  pstate pd = STATE_DESCRIPTION →
  ∃ pd',
    endElement pd nm = Some pd'
    ∧ match description pd with
      | None => data pd' = data pd
      | Some d =>
        ∃ d' k,
          d = d' ++ replicate k NL
          ∧ list.last d' ≠ Some NL
          ∧ data pd' = repodata_set_str (data pd) (handle pd)
                         SOLVABLE_DESCRIPTION d'
      end.
Proof.
  intros Hd Hs Hst. rewrite endElement_close by done.
  unfold end_switch. simpl. rewrite Hst.
  destruct (description pd) as [d|] eqn:Hdesc; simpl.
  - eexists. split; [reflexivity|].
    destruct (strip_trailing_newlines_spec d (length d)) as (k & Hk & Hlast);
      [done|].
    rewrite firstn_all in Hk. eauto.
  - eexists. split; reflexivity.
Qed.

(** ** Claim C1 *)

Lemma has_suffix_ends_in id suffix :
  has_suffix id suffix = true → ends_in id suffix.
Proof.
  unfold has_suffix, streq, ends_in. intros H.
  apply andb_true_iff in H as [H1 H2].
  apply bool_decide_eq_true in H1, H2. split; [lia|done].
Qed.

Lemma guess_filename_from_id_none id :
  ¬ ends_in id ".desktop" → ¬ ends_in id ".ttf" → ¬ ends_in id ".otf" →
  ¬ ends_in id ".xml" → ¬ ends_in id ".db" →
  guess_filename_from_id id = None.
Proof.
  intros H1 H2 H3 H4 H5. unfold guess_filename_from_id.
  repeat match goal with
  | |- context [has_suffix id ?x] =>
    destruct (has_suffix id x) eqn:?;
      [exfalso; eauto using has_suffix_ends_in|]
  end. done.
Qed.

Lemma default_arch_evr_deps s :
  name (default_arch_evr s) = name s
  ∧ requires (default_arch_evr s) = requires s
  ∧ provides (default_arch_evr s) = provides s.
Proof. unfold default_arch_evr. by repeat case_decide. Qed.

Lemma desktop_tags_frame pd s s' pd' :
  desktop_tags pd s = (s', pd') →
  arch s' = arch s ∧ evr s' = evr s
  ∧ requires s' = requires s ∧ provides s' = provides s
  ∧ pool pd' = pool pd ∧ desktop_file pd' = desktop_file pd
  ∧ filename pd' = filename pd ∧ owners pd' = owners pd.
Proof.
  unfold desktop_tags. intros H.
  destruct (desktop_file pd) as [df|] eqn:Hdf; [|by simplify_eq].
  destruct (_ && _); [|by simplify_eq].
  destruct (add_missing_tags_from_desktop_file pd (name s) df) as [[nm hs] dat].
  by simplify_eq.
Qed.

Lemma name_from_desktop_file_frame pd s :
  arch (name_from_desktop_file pd s) = arch s
  ∧ evr (name_from_desktop_file pd s) = evr s
  ∧ requires (name_from_desktop_file pd s) = requires s
  ∧ provides (name_from_desktop_file pd s) = provides s.
Proof.
  unfold name_from_desktop_file. destruct (desktop_file pd); [|done].
  by case_decide.
Qed.

Lemma self_provide_frame s :
  name (self_provide s) = name s ∧ arch (self_provide s) = arch s
  ∧ evr (self_provide s) = evr s
  ∧ requires (self_provide s) = requires s.
Proof. unfold self_provide. by case_decide. Qed.

Lemma cur_solvable_Some pd i s :
  cur_solvable pd = Some (i, s) → solvable pd = Some i ∧ pool pd !! i = Some s.
Proof.
  unfold cur_solvable. intros H.
  destruct (solvable pd) as [j|]; [|done]. simpl in H.
  destruct (pool pd !! j) eqn:E; simplify_eq/=. done.
Qed.

(** C1, amended.  For every identifier from the desktop file that ends in
    none of the suffixes [.desktop], [.ttf], [.otf], [.xml] and [.db],
    [guess_filename_from_id] returns the null pointer: no file name is
    inferred.  At the close of an application that has this identifier, no
    file name of its own and no owners, the requires of the record stay as
    they are and no [application-appdata] provides is added; the provides
    gain at most the relation of the record to its own name and
    version. *)
Theorem guess_filename_unrecognized_suffix pd nm id i s :
  ¬ ends_in id ".desktop" → ¬ ends_in id ".ttf" → ¬ ends_in id ".otf" →
  ¬ ends_in id ".xml" → ¬ ends_in id ".db" →
  depth pd = statedepth pd → skip_depth pd = 0%Z →
  pstate pd = STATE_APPLICATION → cur_solvable pd = Some (i, s) →
  desktop_file pd = Some id → filename pd = None → owners pd = None →
  guess_filename_from_id id = None
  ∧ ∃ pd' s',
      endElement pd nm = Some pd'
      ∧ pool pd' !! i = Some s'
      ∧ requires s' = requires s
      ∧ (provides s' = provides s
         ∨ provides s'
           = repo_addid_dep (provides s)
               (pool_rel2id (name s') (evr s') REL_EQ)).
Proof.
  intros H1 H2 H3 H4 H5 Hd Hs Hst Hcur Hdf Hfn Hos.
  pose proof (guess_filename_from_id_none id H1 H2 H3 H4 H5) as Hg.
  split; [done|]. rewrite endElement_close by done.
  unfold end_switch. simpl. rewrite Hst.
  apply cur_solvable_Some in Hcur as [Hsolv Hpool].
  unfold end_application, cur_solvable. simpl. rewrite Hsolv. simpl.
  rewrite Hpool. simpl.
  destruct (default_arch_evr_deps s) as (_ & Hr1 & Hp1).
  destruct (desktop_tags (closing pd) (default_arch_evr s)) as [s2 pd2] eqn:E2.
  apply desktop_tags_frame in E2
    as (_ & _ & Hr2 & Hp2 & Hpool2 & Hdf2 & Hfn2 & Hos2).
  destruct (name_from_desktop_file_frame pd2 s2) as (_ & _ & Hr3 & Hp3).
  set (s3 := name_from_desktop_file pd2 s2) in *.
  unfold owner_links. rewrite Hos2. simpl. rewrite Hos. simpl.
  rewrite list_lookup_insert_eq
    by (rewrite Hpool2; simpl; by eapply lookup_lt_Some).
  simpl.
  assert (appdata_link pd2 s3 = s3) as ->.
  { unfold appdata_link. case_decide; [|done].
    rewrite Hfn2, Hdf2. simpl. rewrite Hfn, Hdf. simpl. by rewrite Hg. }
  destruct (self_provide_frame s3) as (Hn4 & _ & He4 & Hr4).
  eexists _, (self_provide s3). split; [reflexivity|]. simpl.
  split.
  { rewrite list_insert_insert_eq. apply list_lookup_insert_eq.
    rewrite Hpool2. simpl. by eapply lookup_lt_Some. }
  split; [congruence|].
  unfold self_provide. case_decide; simpl.
  - right. congruence.
  - left. congruence.
Qed.

(** ** Claim C2 *)

Lemma strneq_suffix (str : list ascii) (suffix : string) :
  length (lit suffix) < length str →
  strneq (drop (length str - length (lit suffix)) str) (lit suffix)
    (length (lit suffix))
  = bool_decide (ends_in str suffix).
Proof.
  intros Hl. unfold strneq, ends_in. apply bool_decide_ext.
  rewrite (take_ge (lit suffix)) by done.
  rewrite take_ge by (rewrite length_drop; lia).
  split; [intros ?; split; [lia|done]|by intros [_ ?]].
Qed.

(** What the test of [search_uninternalized_filelist] selects: the
    strings of more than 12 bytes that do not end in [.appdata.xml], and
    the strings of more than 13 bytes that do not end in
    [.metainfo.xml]. *)
Lemma filelist_entry_selected (str : list ascii) :
  is_Some (filelist_entry str)
  ↔ (12 < length str ∧ ¬ ends_in str ".appdata.xml")
    ∨ (13 < length str ∧ ¬ ends_in str ".metainfo.xml").
Proof.
  unfold filelist_entry.
  destruct (decide (12 < length str)) as [H12|H12].
  - rewrite (bool_decide_eq_true_2 _ H12).
    pose proof (strneq_suffix str ".appdata.xml" H12) as E1.
    change (length (lit ".appdata.xml")) with 12 in E1. rewrite E1.
    destruct (decide (ends_in str ".appdata.xml")) as [Ha|Ha].
    + rewrite (bool_decide_eq_true_2 _ Ha). cbn [negb andb].
      destruct (decide (13 < length str)) as [H13|H13].
      * rewrite (bool_decide_eq_true_2 _ H13).
        pose proof (strneq_suffix str ".metainfo.xml" H13) as E2.
        change (length (lit ".metainfo.xml")) with 13 in E2. rewrite E2.
        destruct (decide (ends_in str ".metainfo.xml")) as [Hm|Hm].
        -- rewrite (bool_decide_eq_true_2 _ Hm). cbn [negb andb].
           split; [by intros []|]. intros [[_ ?]|[_ ?]]; done.
        -- rewrite (bool_decide_eq_false_2 _ Hm). cbn [negb andb].
           split; [by right|by eexists].
      * rewrite (bool_decide_eq_false_2 _ H13). cbn [negb andb].
        split; [by intros []|]. intros [[_ ?]|[? _]]; done.
    + rewrite (bool_decide_eq_false_2 _ Ha). cbn [negb andb].
      split; [by left|by eexists].
  - rewrite (bool_decide_eq_false_2 _ H12). cbn [negb andb].
    rewrite bool_decide_eq_false_2 by lia. cbn [negb andb].
    split; [by intros []|]. intros [[? _]|[? _]]; lia.
Qed.

(** ** List items *)

Lemma digit_rem_not_NUL n : digit (Z.rem n 10) ≠ NUL.
Proof.
  unfold digit. intros H.
  pose proof (Z.rem_bound_abs n 10 ltac:(lia)) as Hb.
  assert (0 < (48 + Z.rem n 10) mod 256 < 256)%Z as Hr.
  { rewrite Z.mod_small; lia. }
  apply (f_equal N_of_ascii) in H.
  rewrite N_ascii_embedding in H by lia.
  change (N_of_ascii NUL) with 0%N in H. lia.
Qed.

Lemma c_str_store_beyond (b s : list ascii) i x :
  c_str b = Some s → length s < i → c_str (<[i:=x]> b) = Some s.
Proof.
  intros Hs Hi. apply c_str_Some in Hs as (tail & -> & Hn).
  rewrite insert_app_r_alt by lia.
  destruct (i - length s) as [|k] eqn:E; [lia|]. simpl.
  by apply c_str_app.
Qed.

Lemma indent_str_nonempty il x w :
  is_ws x = false →
  indent_str il (x :: w) = replicate il SP ++ x :: indent_go il false w.
Proof.
  intros Hx. unfold indent_str. simpl.
  rewrite decide_False; [done|]. by intros ->.
Qed.

Lemma wsstrip_str_head s x w :
  wsstrip_str s = x :: w → is_ws x = false.
Proof.
  intros H. apply (ws_go_head 0 s). fold (wsstrip_str s). by rewrite H.
Qed.

Lemma store_cons0 x (b : list ascii) m : store (x :: b) 0 m = Some (m :: b).
Proof. unfold store. by rewrite decide_True by (simpl; lia). Qed.

Lemma store_cons1 x y (b : list ascii) m :
  store (x :: y :: b) 1 m = Some (x :: m :: b).
Proof. unfold store. by rewrite decide_True by (simpl; lia). Qed.

Lemma store_cons2 x y z (b : list ascii) m :
  store (x :: y :: z :: b) 2 m = Some (x :: y :: m :: b).
Proof. unfold store. by rewrite decide_True by (simpl; lia). Qed.

Lemma c_str_cons x (b : list ascii) :
  x ≠ NUL → c_str (x :: b) = cons x <$> c_str b.
Proof. intros Hx. simpl. by rewrite decide_False. Qed.


Lemma SP_not_NUL : SP ≠ NUL.
Proof. by compute. Qed.

Local Arguments store : simpl never.
Local Arguments c_str : simpl never.
Local Arguments digit : simpl never.
Local Arguments indent_go : simpl never.
Local Arguments wsstrip_str : simpl never.
Local Arguments Z.add : simpl never.
Local Arguments Z.sub : simpl never.
Local Arguments Z.quot : simpl never.
Local Arguments Z.rem : simpl never.

(** The marker of an item of an ordered list that is not blank. *)
Lemma end_ol_li_spec pd c :
  c_str (content pd) = Some c → acontent pd = length (content pd) →
  wsstrip_str c ≠ [] →
  ∃ b,
    end_ol_li pd
    = Some (set_description
              (set_buf (set_licnt pd (licnt pd + 1)) b
                 (length (indent_str 4 (wsstrip_str c))) (length b))
              (Some (default [] (description pd)
                     ++ ol_marker (licnt pd + 1)
                     ++ drop 3 (indent_str 4 (wsstrip_str c)) ++ [NL])))
    ∧ 0 < length b.
Proof.
  intros Hc Ha Hne. unfold end_ol_li.
  destruct (wsstrip_spec pd c Hc) as (b1 & -> & Hb1 & Hl1).
  cbn [mbind option_bind].
  destruct (wsstrip_str c) as [|x w] eqn:Hw; [done|].
  pose proof (wsstrip_str_head _ _ _ Hw) as Hx.
  edestruct (indent_spec (set_buf pd b1 (length (x :: w)) (acontent pd))
               (x :: w) 4)
    as (b2 & -> & Hb2); [exact Hb1|done|simpl; congruence|].
  cbn [mbind option_bind].
  rewrite indent_str_nonempty in Hb2 |- * by done.
  apply c_str_Some in Hb2 as (tail & Hb2 & Hn).
  cbn [replicate app] in Hb2, Hn.
  do 4 (apply not_elem_of_cons in Hn as [_ Hn]).
  apply not_elem_of_cons in Hn as [HxN%not_eq_sym Hn].
  pose proof SP_not_NUL as HSP.
  pose proof (digit_rem_not_NUL (Z.quot (licnt pd + 1) 10)) as Hm0.
  pose proof (digit_rem_not_NUL (licnt pd + 1)) as Hm1.
  subst b2.
  unfold store_content, content_str, solv_dupappend, ol_marker.
  cbn [content lcontent acontent licnt description set_buf set_licnt
       set_description].
  set (rest := SP :: x :: indent_go 4 false w ++ NUL :: tail).
  set (m1 := digit (Z.rem (licnt pd + 1) 10)).
  destruct (decide (10 ≤ licnt pd + 1)%Z);
    [set (m0 := digit (Z.rem (Z.quot (licnt pd + 1) 10) 10))
    |set (m0 := SP)];
    exists (m0 :: m1 :: "."%char :: rest);
    rewrite ?store_cons0;
    cbn [mbind option_bind content lcontent acontent licnt description
         set_buf set_licnt set_description];
    rewrite store_cons1;
    cbn [mbind option_bind content lcontent acontent licnt description
         set_buf set_licnt set_description];
    rewrite store_cons2;
    cbn [mbind option_bind content lcontent acontent licnt description
         set_buf set_licnt set_description];
    unfold rest;
    rewrite !c_str_cons by done;
    rewrite c_str_app by done;
    cbn [fmap option_fmap option_map mbind option_bind];
    (split; [|simpl; lia]);
    cbn [drop replicate app length]; rewrite <- ?(assoc_L (++));
    reflexivity.
Qed.

(** ** The start of an element *)

Lemma startElement_row pd nm atts s b :
  depth pd = statedepth pd →
  lookup_switch (pstate pd) nm = Some s →
  store (content pd) 0 NUL = Some b →
  startElement pd nm atts
  = let pd' :=
      if decide (skip_depth pd = 0%Z
                 ∧ is_Some (find_attr (lit "xml:lang") atts))
      then set_skip_depth (opening pd s b) (depth pd + 1)
      else opening pd s b in
    if decide (skip_depth pd' ≠ 0%Z) then Some (set_docontent pd' false)
    else Some (start_switch pd' atts).
Proof.
  intros Hd Hlook Hb. unfold startElement.
  rewrite decide_False by (intros Hne; exact (Hne Hd)).
  cbn [pstate set_depth].
  unfold lookup_switch in Hlook.
  destruct (swtab (pstate pd)) as [i|]; [|discriminate Hlook].
  cbn [mbind option_bind] in Hlook. rewrite Hlook. clear Hlook.
  cbn [content set_depth set_state set_docontent set_statedepth].
  rewrite Hb. reflexivity.
Qed.

(** The start of an element that the state table knows, outside of a
    skipped subtree and without [xml:lang]. *)
Lemma startElement_known pd nm atts s b :
  depth pd = statedepth pd → skip_depth pd = 0%Z →
  lookup_switch (pstate pd) nm = Some s →
  store (content pd) 0 NUL = Some b →
  find_attr (lit "xml:lang") atts = None →
  startElement pd nm atts = Some (start_switch (opening pd s b) atts).
Proof.
  intros Hd Hs Hlook Hb Hl.
  rewrite (startElement_row pd nm atts s b) by assumption.
  rewrite Hl. cbv zeta.
  rewrite (decide_False (P:=_ ∧ _))
    by (intros [_ H]; exact (is_Some_None H)).
  rewrite decide_False; [reflexivity|].
  intros Hne. apply Hne. exact Hs.
Qed.

(** The start of an element that the state table knows and that has the
    [xml:lang] attribute, outside of a skipped subtree. *)
Lemma startElement_lang pd nm atts s b :
  depth pd = statedepth pd → skip_depth pd = 0%Z → (0 ≤ depth pd)%Z →
  lookup_switch (pstate pd) nm = Some s →
  store (content pd) 0 NUL = Some b →
  is_Some (find_attr (lit "xml:lang") atts) →
  startElement pd nm atts
  = Some (set_docontent
            (set_skip_depth (opening pd s b) (depth pd + 1)) false).
Proof.
  intros Hd Hs H0 Hlook Hb Hl.
  rewrite (startElement_row pd nm atts s b) by assumption.
  cbv zeta. rewrite (decide_True (P:=_ ∧ _)) by (split; assumption).
  rewrite decide_True; [reflexivity|].
  cbn [skip_depth set_skip_depth]. lia.
Qed.

Lemma store_0 (b : list ascii) c :
  0 < length b → store b 0 c = Some (<[0:=c]> b).
Proof. intros H. unfold store. by rewrite decide_True. Qed.

Lemma c_str_insert_0 (b : list ascii) :
  0 < length b → c_str (<[0:=NUL]> b) = Some [].
Proof. destruct b; simpl; [lia|done]. Qed.

(** ** Runs of events *)

Lemma run_app evs1 evs2 pd :
  run (evs1 ++ evs2) pd = run evs1 pd ≫= run evs2.
Proof.
  revert pd. induction evs1 as [|e evs1 IH]; intros pd; simpl; [done|].
  destruct (handle_event pd e); simpl; [apply IH|done].
Qed.

(** Text in a capturing element is appended to the buffer. *)
Lemma run_texts ts :
  ∀ pd s,
    docontent pd = true →
    c_str (content pd) = Some s → lcontent pd = length s →
    acontent pd = length (content pd) →
    Forall (λ t, NUL ∉ t) ts →
    ∃ b, run (Text <$> ts) pd
         = Some (set_buf pd b (length (s ++ concat ts)) (length b))
         ∧ c_str b = Some (s ++ concat ts)
         ∧ length (content pd) ≤ length b.
Proof.
  induction ts as [|t ts IH]; intros pd s Hdo Hc Hl Ha Hts.
  - exists (content pd). simpl. rewrite app_nil_r, <- Hl, <- Ha.
    split; [by destruct pd|]. split; [done|lia].
  - inversion_clear Hts as [|?? Ht Hts'].
    rewrite fmap_cons. cbn [run handle_event concat].
    destruct (characterData_spec pd s t Hdo Hc Hl Ha Ht)
      as (b1 & -> & Hb1 & Hge1).
    cbn [mbind option_bind].
    destruct (IH (set_buf pd b1 (length (s ++ t)) (length b1)) (s ++ t))
      as (b2 & -> & Hb2 & Hlen); try done.
    exists b2. rewrite <- (assoc_L (++)) in Hb2 |- *.
    split; [done|]. split; [done|]. simpl in Hlen. lia.
Qed.

(** Text outside of a capturing element is dropped. *)
Lemma run_texts_dropped ts pd :
  docontent pd = false → run (Text <$> ts) pd = Some pd.
Proof.
  intros Hdo. induction ts as [|t ts IH]; [done|].
  rewrite fmap_cons. cbn [run handle_event].
  unfold characterData. rewrite Hdo. cbn [negb mbind option_bind]. exact IH.
Qed.

(** ** Claim C6 *)



Lemma bind_Some {A B} (f : A → option B) (x : A) : Some x ≫= f = f x.
Proof. reflexivity. Qed.

Lemma run_cons e evs pd : run (e :: evs) pd = handle_event pd e ≫= run evs.
Proof. reflexivity. Qed.

Lemma run_nil pd : run [] pd = Some pd.
Proof. reflexivity. Qed.

Lemma start_switch_plain pd atts :
  pstate pd ≠ STATE_APPLICATION → pstate pd ≠ STATE_DESCRIPTION →
  pstate pd ≠ STATE_OL → pstate pd ≠ STATE_UL →
  start_switch pd atts = pd.
Proof. unfold start_switch. by destruct (pstate pd). Qed.

Lemma end_switch_OL_LI pd :
  pstate pd = STATE_OL_LI → end_switch pd = end_ol_li pd.
Proof. intros H. unfold end_switch. by rewrite H. Qed.






(** ** Blank list items *)

Lemma content_set_buf pd b l a : content (set_buf pd b l a) = b.
Proof. reflexivity. Qed.
Lemma lcontent_set_buf pd b l a : lcontent (set_buf pd b l a) = l.
Proof. reflexivity. Qed.
Lemma acontent_set_buf pd b l a : acontent (set_buf pd b l a) = a.
Proof. reflexivity. Qed.
Lemma description_set_buf pd b l a :
  description (set_buf pd b l a) = description pd.
Proof. reflexivity. Qed.
Lemma licnt_set_buf pd b l a : licnt (set_buf pd b l a) = licnt pd.
Proof. reflexivity. Qed.
Lemma content_set_licnt pd n : content (set_licnt pd n) = content pd.
Proof. reflexivity. Qed.
Lemma lcontent_set_licnt pd n : lcontent (set_licnt pd n) = lcontent pd.
Proof. reflexivity. Qed.
Lemma acontent_set_licnt pd n : acontent (set_licnt pd n) = acontent pd.
Proof. reflexivity. Qed.
Lemma description_set_licnt pd n :
  description (set_licnt pd n) = description pd.
Proof. reflexivity. Qed.
Lemma licnt_set_licnt pd n : licnt (set_licnt pd n) = n.
Proof. reflexivity. Qed.
Lemma description_set_description pd d :
  description (set_description pd d) = d.
Proof. reflexivity. Qed.
Lemma licnt_set_description pd d : licnt (set_description pd d) = licnt pd.
Proof. reflexivity. Qed.

Hint Rewrite content_set_buf lcontent_set_buf acontent_set_buf
  description_set_buf licnt_set_buf content_set_licnt lcontent_set_licnt
  acontent_set_licnt description_set_licnt licnt_set_licnt
  description_set_description licnt_set_description : pd_fields.

Lemma indent_empty pd il :
  c_str (content pd) = Some [] →
  indent pd il = Some (set_buf pd (content pd) (lcontent pd) (acontent pd)).
Proof.
  intros Hc. apply c_str_Some in Hc as (tail & Hc & _).
  unfold indent. rewrite Hc. reflexivity.
Qed.

Lemma store_content_spec pd i c :
  i < length (content pd) →
  store_content pd i c
  = Some (set_buf pd (<[i:=c]> (content pd)) (lcontent pd) (acontent pd)).
Proof.
  intros Hi. unfold store_content, store. by rewrite decide_True.
Qed.

Lemma end_switch_UL_LI pd :
  pstate pd = STATE_UL_LI → end_switch pd = end_ul_li pd.
Proof. intros H. unfold end_switch. by rewrite H. Qed.

(** The close of a blank item of an unordered list appends a newline
    and nothing else. *)
Lemma end_ul_li_blank pd c :
  c_str (content pd) = Some c → wsstrip_str c = [] →
  3 ≤ length (content pd) →
  ∃ pd', end_ul_li pd = Some pd'
         ∧ description pd' = Some (default [] (description pd) ++ [NL]).
Proof.
  intros Hc Hblank Hlen. unfold end_ul_li.
  destruct (wsstrip_spec pd c Hc) as (b1 & -> & Hb1 & Hl1).
  rewrite Hblank in Hb1 |- *. rewrite bind_Some.
  rewrite indent_empty by exact Hb1. rewrite bind_Some.
  autorewrite with pd_fields.
  rewrite store_content_spec by (autorewrite with pd_fields; lia).
  rewrite bind_Some. unfold content_str. autorewrite with pd_fields.
  rewrite c_str_store_beyond with (s := []) by (first [exact Hb1|simpl; lia]).
  rewrite bind_Some.
  eexists. split; [reflexivity|]. by autorewrite with pd_fields.
Qed.

(** The close of a blank item of an ordered list, up to the ninth item,
    appends a newline and nothing else; the item is counted. *)
Lemma end_ol_li_blank pd c :
  c_str (content pd) = Some c → wsstrip_str c = [] →
  3 ≤ length (content pd) → (licnt pd + 1 < 10)%Z →
  ∃ pd', end_ol_li pd = Some pd'
         ∧ description pd' = Some (default [] (description pd) ++ [NL])
         ∧ licnt pd' = (licnt pd + 1)%Z.
Proof.
  intros Hc Hblank Hlen Hcnt. unfold end_ol_li.
  destruct (wsstrip_spec pd c Hc) as (b1 & -> & Hb1 & Hl1).
  rewrite Hblank in Hb1 |- *. rewrite bind_Some.
  rewrite indent_empty by exact Hb1. rewrite bind_Some. cbv zeta.
  autorewrite with pd_fields.
  rewrite decide_False by lia.
  rewrite bind_Some.
  rewrite store_content_spec by (autorewrite with pd_fields; lia).
  rewrite bind_Some.
  rewrite store_content_spec
    by (autorewrite with pd_fields; rewrite length_insert; lia).
  rewrite bind_Some. unfold content_str. autorewrite with pd_fields.
  rewrite c_str_store_beyond with (s := []);
    [|apply c_str_store_beyond; [exact Hb1|simpl; lia]|simpl; lia].
  rewrite bind_Some.
  eexists. split; [reflexivity|]. by autorewrite with pd_fields.
Qed.

(** At the close of a blank list item, in an unordered list or up to the
    ninth item of an ordered list, the marker bytes are written behind the
    terminator of the empty string: the description gains a newline and
    nothing else. *)
Lemma blank_li_close pd nm c :
  depth pd = statedepth pd → skip_depth pd = 0%Z →
  c_str (content pd) = Some c → wsstrip_str c = [] →
  3 ≤ length (content pd) →
  pstate pd = STATE_UL_LI
  ∨ (pstate pd = STATE_OL_LI ∧ (licnt pd + 1 < 10)%Z) →
  ∃ pd', endElement pd nm = Some pd'
         ∧ description pd' = Some (default [] (description pd) ++ [NL]).
Proof.
  intros Hd Hs Hc Hblank Hlen Hst. rewrite endElement_close by assumption.
  destruct Hst as [Hst|[Hst Hcnt]].
  - rewrite end_switch_UL_LI by exact Hst.
    destruct (end_ul_li_blank (closing pd) c Hc Hblank Hlen)
      as (pd' & -> & Hdesc).
    rewrite bind_Some. eexists. split; [reflexivity|]. exact Hdesc.
  - rewrite end_switch_OL_LI by exact Hst.
    destruct (end_ol_li_blank (closing pd) c Hc Hblank Hlen Hcnt)
      as (pd' & -> & Hdesc & _).
    rewrite bind_Some. eexists. split; [reflexivity|]. exact Hdesc.
Qed.

(** ** Claim C7 *)

(** The start of a capturing element and its text. *)
Lemma capture_element pd st tag atts ts row :
  ready pd st →
  lookup_switch st tag = Some row → sw_docontent row = true →
  to row ≠ STATE_APPLICATION → to row ≠ STATE_DESCRIPTION →
  to row ≠ STATE_OL → to row ≠ STATE_UL →
  find_attr (lit "xml:lang") atts = None →
  Forall (λ t, NUL ∉ t) ts →
  ∃ b,
    run (Start tag atts :: (Text <$> ts)) pd
    = Some (set_buf (opening pd row (<[0:=NUL]> (content pd))) b
              (length (concat ts)) (length b))
    ∧ c_str b = Some (concat ts)
    ∧ length (content pd) ≤ length b.
Proof.
  intros (Hst & Hd & Hs & Ha & H0) Hrow Hdo H1 H2 H3 H4 Hl Hts.
  rewrite run_cons. unfold handle_event at 1.
  rewrite (startElement_known pd _ atts row (<[0:=NUL]> (content pd)));
    [|assumption|assumption|by rewrite Hst|apply store_0; lia|assumption].
  rewrite bind_Some.
  rewrite start_switch_plain by assumption.
  destruct (run_texts ts (opening pd row (<[0:=NUL]> (content pd))) [])
    as (b2 & -> & Hb2 & Hlen2);
    [exact Hdo|apply c_str_insert_0; lia|reflexivity
    |unfold opening; autorewrite with pd_fields; by rewrite length_insert
    |assumption|].
  exists b2. split; [reflexivity|]. split; [exact Hb2|].
  etrans; [|exact Hlen2]. unfold opening. autorewrite with pd_fields.
  by rewrite length_insert.
Qed.




Lemma cur_solvable_frame pd pd' :
  solvable pd' = solvable pd → pool pd' = pool pd →
  cur_solvable pd' = cur_solvable pd.
Proof. unfold cur_solvable. by intros -> ->. Qed.

Lemma update_solvable_spec pd f i s :
  cur_solvable pd = Some (i, s) →
  update_solvable pd f = Some (set_pool pd (<[i:=f s]> (pool pd)))
  ∧ cur_solvable (set_pool pd (<[i:=f s]> (pool pd))) = Some (i, f s).
Proof.
  intros Hcur. unfold update_solvable. rewrite Hcur. split; [reflexivity|].
  apply cur_solvable_Some in Hcur as [Hsolv Hpool].
  unfold cur_solvable.
  change (solvable (set_pool pd (<[i:=f s]> (pool pd)))) with (solvable pd).
  change (pool (set_pool pd (<[i:=f s]> (pool pd))))
    with (<[i:=f s]> (pool pd)).
  rewrite Hsolv. simpl.
  rewrite list_lookup_insert_eq by (by eapply lookup_lt_Some). done.
Qed.




(** ** Claim C9 *)

Lemma no_rel_addid_str deps x :
  List.filter is_rel (repo_addid_dep deps (IdStr x))
  = List.filter is_rel deps.
Proof.
  unfold repo_addid_dep. case_decide; [done|].
  rewrite List.filter_app. simpl. by rewrite app_nil_r.
Qed.

Lemma no_rel_addid_rel deps n e f :
  no_rel deps →
  List.filter is_rel (repo_addid_dep deps (IdRel n e f)) = [IdRel n e f].
Proof.
  unfold no_rel, repo_addid_dep. intros Hno. case_decide as Hin.
  - exfalso. apply list_elem_of_In in Hin.
    assert (In (IdRel n e f) (List.filter is_rel deps)) as Hin'.
    { apply List.filter_In. by split. }
    rewrite Hno in Hin'. destruct Hin'.
  - rewrite List.filter_app, Hno. done.
Qed.

Lemma add_owners_spec os :
  ∀ p i s,
    p !! i = Some s → Forall (λ o, o < length p) os →
    ∃ p' s',
      add_owners p i os = Some p'
      ∧ p' !! i = Some s' ∧ length p' = length p
      ∧ name s' = name s ∧ arch s' = arch s ∧ evr s' = evr s
      ∧ List.filter is_rel (provides s') = List.filter is_rel (provides s).
Proof.
  induction os as [|o os IH]; intros p i s Hi Hos.
  - exists p, s. by repeat split.
  - inversion_clear Hos as [|?? Ho Hos'].
    destruct (lookup_lt_is_Some_2 p o Ho) as [osolv Hosolv].
    cbn [add_owners]. rewrite Hosolv, Hi. cbn [mbind option_bind].
    set (s1 := set_provides _ _).
    destruct (IH (<[i:=s1]> p) i s1) as (p' & s' & -> & Hp' & Hlen & Hn & Ha
                                         & He & Hf).
    { apply list_lookup_insert_eq. by eapply lookup_lt_Some. }
    { by rewrite length_insert. }
    exists p', s'. split; [done|]. split; [done|].
    rewrite length_insert in Hlen. split; [done|].
    rewrite Hn, Ha, He, Hf. unfold s1. cbn [name arch evr provides
      set_provides set_requires].
    by rewrite no_rel_addid_str.
Qed.

Lemma appdata_link_frame pd s :
  name (appdata_link pd s) = name s ∧ arch (appdata_link pd s) = arch s
  ∧ evr (appdata_link pd s) = evr s
  ∧ List.filter is_rel (provides (appdata_link pd s))
    = List.filter is_rel (provides s).
Proof.
  unfold appdata_link. case_decide; [|done].
  destruct (match filename pd with
            | Some fn => Some fn
            | None => desktop_file pd ≫= guess_filename_from_id
            end); [|done].
  cbn [name arch evr provides set_provides set_requires].
  by rewrite no_rel_addid_str.
Qed.

(** The close of an application, on the record. *)
Lemma end_application_spec pd i s :
  cur_solvable pd = Some (i, s) → no_rel (provides s) → owners_ok pd →
  ∃ pd' s',
    end_application pd = Some pd'
    ∧ pool pd' !! i = Some s'
    ∧ solvable pd' = None
    ∧ length (pool pd') = length (pool pd)
    ∧ owners pd' = owners pd
    ∧ List.filter is_rel (provides s')
      = if decide (name s' ≠ ID_NULL
                   ∧ arch s' ≠ ARCH_SRC ∧ arch s' ≠ ARCH_NOSRC)
        then [pool_rel2id (name s') (evr s') REL_EQ]
        else [].
Proof.
  intros Hcur Hno Hos. unfold end_application. rewrite Hcur.
  cbn [mbind option_bind].
  apply cur_solvable_Some in Hcur as [Hsolv Hpool].
  destruct (default_arch_evr_deps s) as (_ & _ & Hp1).
  destruct (desktop_tags pd (default_arch_evr s)) as [s2 pd2] eqn:E2.
  apply desktop_tags_frame in E2
    as (_ & _ & _ & Hp2 & Hpool2 & _ & _ & Hos2).
  destruct (name_from_desktop_file_frame pd2 s2) as (_ & _ & _ & Hp3).
  set (s3 := name_from_desktop_file pd2 s2) in *.
  assert (i < length (pool pd)) as Hi by (by eapply lookup_lt_Some).
  assert (∃ p s4,
    owner_links pd2 (<[i:=s3]> (pool pd2)) i s3 = Some p
    ∧ p !! i = Some s4 ∧ length p = length (pool pd)
    ∧ name s4 = name s3 ∧ arch s4 = arch s3 ∧ evr s4 = evr s3
    ∧ List.filter is_rel (provides s4)
      = List.filter is_rel (provides s3))
    as (p & s4 & -> & Hp4 & Hlen4 & Hn4 & Ha4 & He4 & Hf4).
  { assert (<[i:=s3]> (pool pd2) !! i = Some s3) as Hs3.
    { apply list_lookup_insert_eq. by rewrite Hpool2. }
    assert (length (<[i:=s3]> (pool pd2)) = length (pool pd)) as Hl3.
    { by rewrite length_insert, Hpool2. }
    unfold owner_links. rewrite Hos2.
    unfold owners_ok in Hos.
    destruct (owners pd) as [os|]; [|by eauto 10].
    case_decide; [|by eauto 10].
    destruct (add_owners_spec os (<[i:=s3]> (pool pd2)) i s3 Hs3)
      as (p' & s' & -> & ? & ? & ? & ? & ? & ?).
    { by rewrite Hl3. }
    exists p', s'. repeat split; congruence. }
  cbn [mbind option_bind]. rewrite Hp4. cbn [mbind option_bind].
  destruct (appdata_link_frame pd2 s4) as (Hn5 & Ha5 & He5 & Hf5).
  set (s5 := appdata_link pd2 s4) in *.
  destruct (self_provide_frame s5) as (Hn6 & Ha6 & He6 & _).
  eexists _, (self_provide s5). split; [reflexivity|].
  split.
  { cbn [pool set_desktop_file set_solvable set_pool].
    apply list_lookup_insert_eq. lia. }
  split; [reflexivity|]. split.
  { cbn [pool set_desktop_file set_solvable set_pool].
    by rewrite length_insert. }
  split; [cbn [owners set_desktop_file set_solvable set_pool]; done|].
  assert (no_rel (provides s5)) as Hno5.
  { unfold no_rel. rewrite Hf5, Hf4, Hp3, Hp2, Hp1. exact Hno. }
  rewrite Hn6, Ha6, He6. unfold self_provide.
  case_decide.
  - cbn [provides set_provides]. by apply no_rel_addid_rel.
  - exact Hno5.
Qed.

(** *** The provides of a record before its close *)

Lemma record_inv_frame pd pd' :
  store_of pd' = store_of pd → record_inv pd → record_inv pd'.
Proof.
  unfold store_of, record_inv, owners_ok, cur_solvable.
  intros [= -> -> ->]. done.
Qed.

Lemma wsstrip_frame pd pd' :
  wsstrip pd = Some pd' → store_of pd' = store_of pd.
Proof.
  unfold wsstrip. intros H.
  destruct (wsstrip_loop _ _ _ _ _) as [[c j]|]; [|discriminate H].
  cbn [mbind option_bind] in H.
  destruct (store c j NUL); [|discriminate H].
  by injection H as <-.
Qed.

Lemma indent_frame pd il pd' :
  indent pd il = Some pd' → store_of pd' = store_of pd.
Proof.
  unfold indent. intros H.
  destruct (indent_loop _ _ _ _ _ _) as [[[c l] a]|]; [|discriminate H].
  by injection H as <-.
Qed.

Lemma store_content_frame pd i c pd' :
  store_content pd i c = Some pd' → store_of pd' = store_of pd.
Proof.
  unfold store_content. intros H.
  destruct (store _ _ _); [|discriminate H].
  by injection H as <-.
Qed.

Lemma characterData_frame pd t pd' :
  characterData pd t = Some pd' → store_of pd' = store_of pd.
Proof.
  unfold characterData. intros H.
  destruct (negb (docontent pd)); [by injection H as <-|].
  destruct (if decide _ then _ else _) as [c a].
  destruct (copy_bytes _ _ _); [|discriminate H].
  cbn [mbind option_bind] in H.
  destruct (store _ _ _); [|discriminate H].
  by injection H as <-.
Qed.

Lemma end_p_frame pd pd' : end_p pd = Some pd' → store_of pd' = store_of pd.
Proof.
  unfold end_p, content_str. intros H.
  destruct (wsstrip pd) as [pd1|] eqn:E1; [|discriminate H].
  cbn [mbind option_bind] in H.
  destruct (c_str (content pd1)); [|discriminate H].
  injection H as <-. by apply wsstrip_frame in E1.
Qed.

Lemma end_ul_li_frame pd pd' :
  end_ul_li pd = Some pd' → store_of pd' = store_of pd.
Proof.
  unfold end_ul_li, content_str. intros H.
  destruct (wsstrip pd) as [pd1|] eqn:E1; [|discriminate H].
  cbn [mbind option_bind] in H.
  destruct (indent pd1 4) as [pd2|] eqn:E2; [|discriminate H].
  cbn [mbind option_bind] in H.
  destruct (store_content pd2 2 _) as [pd3|] eqn:E3; [|discriminate H].
  cbn [mbind option_bind] in H.
  destruct (c_str (content pd3)); [|discriminate H].
  injection H as <-.
  apply wsstrip_frame in E1. apply indent_frame in E2.
  apply store_content_frame in E3.
  etrans; [exact E3|]. etrans; [exact E2|exact E1].
Qed.

Lemma end_ol_li_frame pd pd' :
  end_ol_li pd = Some pd' → store_of pd' = store_of pd.
Proof.
  unfold end_ol_li, content_str. intros H.
  destruct (wsstrip pd) as [pd1|] eqn:E1; [|discriminate H].
  cbn [mbind option_bind] in H.
  destruct (indent pd1 4) as [pd2|] eqn:E2; [|discriminate H].
  cbn [mbind option_bind] in H. cbv zeta in H.
  destruct (if decide _ then _ else _) as [pd3|] eqn:E3; [|discriminate H].
  cbn [mbind option_bind] in H.
  destruct (store_content pd3 1 _) as [pd4|] eqn:E4; [|discriminate H].
  cbn [mbind option_bind] in H.
  destruct (store_content pd4 2 _) as [pd5|] eqn:E5; [|discriminate H].
  cbn [mbind option_bind] in H.
  destruct (c_str (content pd5)); [|discriminate H].
  injection H as <-.
  apply wsstrip_frame in E1. apply indent_frame in E2.
  apply store_content_frame in E4, E5.
  assert (store_of pd3 = store_of pd2) as E3'.
  { case_decide; [by apply store_content_frame in E3|].
    by injection E3 as <-. }
  etrans; [exact E5|]. etrans; [exact E4|]. etrans; [exact E3'|].
  etrans; [exact E2|exact E1].
Qed.

Lemma record_inv_update pd f i s :
  cur_solvable pd = Some (i, s) →
  List.filter is_rel (provides (f s)) = List.filter is_rel (provides s) →
  record_inv pd → record_inv (set_pool pd (<[i:=f s]> (pool pd))).
Proof.
  intros Hcur Hf [Hos Hinv].
  destruct (update_solvable_spec pd f i s Hcur) as [_ Hcur'].
  split.
  - unfold owners_ok in *.
    change (owners (set_pool pd (<[i:=f s]> (pool pd)))) with (owners pd).
    change (pool (set_pool pd (<[i:=f s]> (pool pd))))
      with (<[i:=f s]> (pool pd)).
    destruct (owners pd); [|done]. by rewrite length_insert.
  - intros j s' Hj. rewrite Hcur' in Hj. injection Hj as <- <-.
    unfold no_rel. rewrite Hf. by apply (Hinv i s).
Qed.

Lemma end_switch_inv pd pd' :
  record_inv pd → end_switch pd = Some pd' → record_inv pd'.
Proof.
  intros Hinv. unfold end_switch, content_str.
  destruct (pstate pd);
    try (intros [= <-]; exact Hinv);
    try (intros H; destruct (c_str (content _)); [|discriminate H];
         injection H as <-; revert Hinv; by apply record_inv_frame).
  - (* STATE_APPLICATION *)
    intros H. destruct (cur_solvable pd) as [[i s]|] eqn:Hcur.
    2:{ unfold end_application in H. by rewrite Hcur in H. }
    destruct Hinv as [Hos Hinv].
    destruct (end_application_spec pd i s Hcur (Hinv i s Hcur) Hos)
      as (pd'' & s' & Hrun & _ & Hsolv & Hlen & Hos' & _).
    rewrite Hrun in H. injection H as <-. split.
    + unfold owners_ok in *. rewrite Hos', Hlen. exact Hos.
    + intros j s'' Hj. unfold cur_solvable in Hj. by rewrite Hsolv in Hj.
  - (* STATE_PKGNAME *)
    intros H. destruct (c_str (content pd)) as [c|]; [|discriminate H].
    cbn [mbind option_bind] in H.
    destruct (cur_solvable pd) as [[i s]|] eqn:Hcur.
    2:{ unfold update_solvable in H. by rewrite Hcur in H. }
    unfold update_solvable in H. rewrite Hcur in H. injection H as <-.
    apply (record_inv_update pd
             (λ s, set_provides
                     (set_requires s
                        (repo_addid_dep (requires s) (pool_str2id c)))
                     (repo_addid_dep
                        (provides
                           (set_requires s
                              (repo_addid_dep (requires s) (pool_str2id c))))
                        (pool_str2id
                           (pool_tmpjoin (lit "application-appdata(") c
                              (lit ")"))))) i s Hcur); [|exact Hinv].
    apply no_rel_addid_str.
  - (* STATE_NAME *)
    intros H. destruct (c_str (content pd)) as [c|]; [|discriminate H].
    cbn [mbind option_bind] in H.
    destruct (cur_solvable pd) as [[i s]|] eqn:Hcur.
    2:{ unfold update_solvable in H. by rewrite Hcur in H. }
    unfold update_solvable in H. rewrite Hcur in H. injection H as <-.
    by apply (record_inv_update pd
             (λ s, set_name s
                     (pool_str2id (pool_tmpjoin (lit "application:") c [])))
             i s Hcur).
  - (* STATE_DESCRIPTION *)
    destruct (description pd); intros [= <-]; [|exact Hinv].
    revert Hinv. by apply record_inv_frame.
  - (* STATE_P *)
    intros H. apply end_p_frame in H. revert Hinv.
    by apply record_inv_frame.
  - (* STATE_UL_LI *)
    intros H. apply end_ul_li_frame in H. revert Hinv.
    by apply record_inv_frame.
  - (* STATE_OL_LI *)
    intros H. apply end_ol_li_frame in H. revert Hinv.
    by apply record_inv_frame.
Qed.

Lemma start_switch_inv pd atts :
  record_inv pd → record_inv (start_switch pd atts).
Proof.
  intros Hinv. unfold start_switch.
  destruct (pstate pd); try exact Hinv.
  unfold repo_add_solvable. destruct Hinv as [Hos _]. split.
  - unfold owners_ok in *. cbn [owners pool set_data set_havesummary
      set_handle set_solvable set_pool]. destruct (owners pd); [|done].
    rewrite length_app. rewrite Forall_forall in Hos |- *.
    intros o Ho. specialize (Hos o Ho). lia.
  - intros i s. unfold cur_solvable.
    cbn [solvable pool set_data set_havesummary set_handle set_solvable
         set_pool mbind option_bind].
    rewrite lookup_app_r by done. rewrite Nat.sub_diag.
    intros [= <- <-]. reflexivity.
Qed.

Lemma startElement_inv pd nm atts pd' :
  record_inv pd → startElement pd nm atts = Some pd' → record_inv pd'.
Proof.
  intros Hinv. unfold startElement.
  case_decide; [intros [= <-]; exact Hinv|].
  destruct (swtab _); [|intros [= <-]; exact Hinv].
  destruct (find_switch _ _ _) as [s|]; [|intros [= <-]; exact Hinv].
  cbv zeta. destruct (store _ 0 NUL) as [c|]; [|intros [=]].
  cbn [mbind option_bind].
  repeat case_decide; intros [= <-]; try apply start_switch_inv; exact Hinv.
Qed.

Lemma endElement_inv pd nm pd' :
  record_inv pd → endElement pd nm = Some pd' → record_inv pd'.
Proof.
  intros Hinv. unfold endElement.
  case_decide; [intros [= <-]; exact Hinv|].
  cbv zeta. case_decide; [intros [= <-]; case_decide; exact Hinv|].
  destruct (end_switch _) as [pd1|] eqn:Hend; [|intros [=]].
  intros [= <-]. apply end_switch_inv in Hend; [exact Hend|exact Hinv].
Qed.

Lemma handle_event_inv pd e pd' :
  record_inv pd → handle_event pd e = Some pd' → record_inv pd'.
Proof.
  intros Hinv. destruct e as [nm atts|nm|t]; cbn [handle_event].
  - by apply startElement_inv.
  - by apply endElement_inv.
  - intros H. apply characterData_frame in H. revert Hinv.
    by apply record_inv_frame.
Qed.

Lemma run_inv evs pd pd' :
  record_inv pd → run evs pd = Some pd' → record_inv pd'.
Proof.
  revert pd. induction evs as [|e evs IH]; intros pd Hinv.
  - rewrite run_nil. by intros [= <-].
  - rewrite run_cons.
    destruct (handle_event pd e) as [pd1|] eqn:He; [|intros [=]].
    rewrite bind_Some. apply IH. by eapply handle_event_inv.
Qed.

Lemma init_parsedata_inv p dat fl fn os :
  from_option (Forall (λ o, o < length p)) True os →
  record_inv (init_parsedata p dat fl fn os).
Proof.
  intros Hos. split.
  - unfold owners_ok, init_parsedata. cbn [owners pool]. by destruct os.
  - intros i s. unfold cur_solvable, init_parsedata.
    cbn [solvable mbind option_bind]. intros [=].
Qed.

Lemma end_switch_APPLICATION pd :
  pstate pd = STATE_APPLICATION → end_switch pd = end_application pd.
Proof. intros H. unfold end_switch. by rewrite H. Qed.

(** * Further properties of the code *)

(** ** [guess_filename_from_id] *)

Lemma has_suffix_app base sfx :
  base ≠ [] → has_suffix (base ++ lit sfx) sfx = true.
Proof.
  intros Hb. unfold has_suffix. rewrite length_app.
  apply andb_true_intro. split.
  - apply bool_decide_eq_true. destruct base; [done|]. simpl. lia.
  - unfold streq. apply bool_decide_eq_true.
    replace (length base + length (lit sfx) - length (lit sfx))
      with (length base) by lia.
    by rewrite drop_app_length.
Qed.

Lemma has_suffix_last id sfx :
  lit sfx ≠ [] → list.last id ≠ list.last (lit sfx) →
  has_suffix id sfx = false.
Proof.
  intros Hs Hl. destruct (has_suffix id sfx) eqn:H; [|done].
  apply has_suffix_ends_in in H as [Hlen Hdrop]. exfalso. apply Hl.
  rewrite <- (take_drop (length id - length (lit sfx)) id), Hdrop.
  destruct (lit sfx) as [|c l] using rev_ind; [done|].
  by rewrite (assoc_L (++)), !last_snoc.
Qed.

Lemma guess_replace base old new :
  NUL ∉ base → NUL ∉ new →
  length new ≤ length old + 13 →
  strcpy_at (pool_tmpjoin (base ++ old) (lit ".metainfo.xml") [] ++ [NUL])
    (length (base ++ old) - length old) new ≫= c_str
  = Some (base ++ new).
Proof.
  intros Hb Hn Hlen. unfold strcpy_at, pool_tmpjoin.
  rewrite decide_True.
  2:{ rewrite !length_app. simpl. lia. }
  rewrite bind_Some.
  replace (length (base ++ old) - length old) with (length base)
    by (rewrite length_app; lia).
  rewrite <- !(assoc_L (++)). rewrite take_app_length.
  rewrite (assoc_L (++) base new). apply c_str_app.
  rewrite not_elem_of_app. done.
Qed.

Lemma lit_no_NUL_appdata : NUL ∉ lit ".appdata.xml".
Proof. by apply (bool_decide_unpack _). Qed.
Lemma lit_no_NUL_metainfo : NUL ∉ lit ".metainfo.xml".
Proof. by apply (bool_decide_unpack _). Qed.

(** X1.  [guess_filename_from_id] on an identifier that is a stem
    followed by one of the five suffixes of its table: [.desktop] is
    replaced by [.appdata.xml], and [.ttf], [.otf], [.xml] and [.db] by
    [.metainfo.xml].  The length tests are strict: an identifier that is
    nothing but the suffix gets no file name. *)
Theorem guess_filename_recognized base :
  NUL ∉ base →
  let guess sfx new :=
    guess_filename_from_id (base ++ lit sfx)
    = if decide (base = []) then None else Some (base ++ lit new) in
  guess ".desktop" ".appdata.xml"
  ∧ guess ".ttf" ".metainfo.xml"
  ∧ guess ".otf" ".metainfo.xml"
  ∧ guess ".xml" ".metainfo.xml"
  ∧ guess ".db" ".metainfo.xml".
Proof.
  intros Hb guess. unfold guess. clear guess.
  destruct (decide (base = [])) as [->|Hne].
  { repeat split; vm_compute; reflexivity. }
  assert (∀ sfx c, list.last (lit sfx) = Some c →
                   list.last (base ++ lit sfx) = Some c) as Hlast.
  { intros sfx c Hc. destruct (lit sfx) as [|x l] using rev_ind; [done|].
    rewrite last_snoc in Hc. by rewrite (assoc_L (++)), last_snoc. }
  repeat split; unfold guess_filename_from_id; cbv zeta.
  - rewrite has_suffix_app by done.
    apply (guess_replace base (lit ".desktop") (lit ".appdata.xml"));
      [done|apply lit_no_NUL_appdata|simpl; lia].
  - rewrite (has_suffix_last _ ".desktop")
      by (try rewrite (Hlast ".ttf" "f"%char); done).
    rewrite has_suffix_app by done.
    apply (guess_replace base (lit ".ttf") (lit ".metainfo.xml"));
      [done|apply lit_no_NUL_metainfo|simpl; lia].
  - rewrite (has_suffix_last _ ".desktop")
      by (try rewrite (Hlast ".otf" "f"%char); done).
    rewrite (has_suffix_app base ".otf") by done.
    assert (strcpy_at
              (pool_tmpjoin (base ++ lit ".otf") (lit ".metainfo.xml") []
               ++ [NUL])
              (length (base ++ lit ".otf") - 4) (lit ".metainfo.xml")
            ≫= c_str = Some (base ++ lit ".metainfo.xml")) as ->.
    { apply (guess_replace base (lit ".otf") (lit ".metainfo.xml"));
        [done|apply lit_no_NUL_metainfo|simpl; lia]. }
    by destruct (has_suffix _ ".ttf").
  - rewrite (has_suffix_last _ ".desktop")
      by (try rewrite (Hlast ".xml" "l"%char); done).
    rewrite (has_suffix_last _ ".ttf")
      by (try rewrite (Hlast ".xml" "l"%char); done).
    rewrite (has_suffix_last _ ".otf")
      by (try rewrite (Hlast ".xml" "l"%char); done).
    rewrite has_suffix_app by done.
    apply (guess_replace base (lit ".xml") (lit ".metainfo.xml"));
      [done|apply lit_no_NUL_metainfo|simpl; lia].
  - rewrite (has_suffix_last _ ".desktop")
      by (try rewrite (Hlast ".db" "b"%char); done).
    rewrite (has_suffix_last _ ".ttf")
      by (try rewrite (Hlast ".db" "b"%char); done).
    rewrite (has_suffix_last _ ".otf")
      by (try rewrite (Hlast ".db" "b"%char); done).
    rewrite (has_suffix_last _ ".xml")
      by (try rewrite (Hlast ".db" "b"%char); done).
    rewrite has_suffix_app by done.
    apply (guess_replace base (lit ".db") (lit ".metainfo.xml"));
      [done|apply lit_no_NUL_metainfo|simpl; lia].
Qed.

(** ** [wsstrip] *)

Lemma ws_go_nonws st ws c s :
  is_ws c = false →
  ws_go st ws (c :: s)
  = (if decide (ws ≠ 0%Z ∧ st = true)
     then [if decide (Z.land ws 2 ≠ 0%Z) then NL else SP] else [])
    ++ c :: ws_go true 0 s.
Proof. intros Hc. simpl. by rewrite Hc. Qed.

Lemma ws_go_sep (P Q : Prop) `{Decision P, Decision Q} c rest :
  is_ws c = false →
  ws_go true 0
    ((if decide P then [if decide Q then NL else SP] else []) ++ c :: rest)
  = (if decide P then [if decide Q then NL else SP] else [])
    ++ c :: ws_go true 0 rest.
Proof.
  intros Hc. destruct (decide P); [destruct (decide Q)|]; simpl;
    by rewrite Hc.
Qed.

Lemma ws_go_again s :
  ∀ st ws, ws_go true 0 (ws_go st ws s) = ws_go st ws s.
Proof.
  induction s as [|c s IH]; intros st ws; [done|].
  destruct (is_ws c) eqn:Hc.
  - simpl. rewrite Hc. apply IH.
  - rewrite ws_go_nonws by done. rewrite ws_go_sep by done. by rewrite IH.
Qed.

Lemma ws_go_unstarted s :
  ∀ ws, ws_go false 0 (ws_go false ws s) = ws_go false ws s.
Proof.
  induction s as [|c s IH]; intros ws; [done|].
  destruct (is_ws c) eqn:Hc.
  - simpl. rewrite Hc. apply IH.
  - rewrite ws_go_nonws by done.
    rewrite decide_False by (by intros [_ ?]).
    rewrite app_nil_l, ws_go_nonws by done.
    rewrite decide_False by (by intros [_ ?]).
    by rewrite ws_go_again.
Qed.

Lemma length_ws_go s :
  ∀ st ws,
    length (ws_go st ws s)
    ≤ length s + (if decide (ws ≠ 0%Z ∧ st = true) then 1 else 0).
Proof.
  induction s as [|c s IH]; intros st ws; simpl; [lia|].
  destruct (is_ws c).
  - specialize (IH st (Z.lor ws (if decide (c = NL) then 2 else 1))).
    repeat case_decide; lia.
  - specialize (IH true 0%Z). rewrite length_app. simpl.
    rewrite decide_False in IH by (by intros [? _]).
    case_decide; simpl; lia.
Qed.

(** X2.  [wsstrip] never makes the string longer, which is what lets it
    work in place, and it is idempotent: on a buffer that it has
    normalised a second call changes neither the string nor its recorded
    length. *)
Theorem wsstrip_idempotent pd s :
  c_str (content pd) = Some s →
  ∃ pd1 pd2 out,
    wsstrip pd = Some pd1
    ∧ c_str (content pd1) = Some out
    ∧ length out ≤ length s
    ∧ wsstrip pd1 = Some pd2
    ∧ c_str (content pd2) = Some out
    ∧ lcontent pd2 = lcontent pd1.
Proof.
  intros Hs.
  destruct (wsstrip_spec pd s Hs) as (b1 & Hw1 & Hc1 & _).
  destruct (wsstrip_spec
              (set_buf pd b1 (length (wsstrip_str s)) (acontent pd))
              (wsstrip_str s) Hc1) as (b2 & Hw2 & Hc2 & _).
  assert (wsstrip_str (wsstrip_str s) = wsstrip_str s) as Hidem
    by apply ws_go_unstarted.
  eexists _, _, _. split; [exact Hw1|]. split; [exact Hc1|].
  split.
  { pose proof (length_ws_go s false 0%Z) as H.
    rewrite decide_False in H by (by intros [? _]).
    unfold wsstrip_str. lia. }
  split; [exact Hw2|]. split.
  - change (c_str b2 = Some (wsstrip_str s)). by rewrite Hc2, Hidem.
  - change (length (wsstrip_str (wsstrip_str s)) = length (wsstrip_str s)).
    by rewrite Hidem.
Qed.

(** ** Subtrees that the state table does not know *)

Lemma node_ind' (P : node → Prop) :
  (∀ s, P (Txt s)) →
  (∀ nm atts children, Forall P children → P (Elem nm atts children)) →
  ∀ n, P n.
Proof.
  intros HT HE. fix IH 1. intros [nm atts children|s].
  - apply HE. induction children as [|c children IHc]; constructor.
    + apply IH.
    + exact IHc.
  - apply HT.
Qed.

Lemma set_depth_back pd v : set_depth (set_depth pd v) (depth pd) = pd.
Proof. by destruct pd. Qed.

Lemma characterData_set_depth pd v t :
  characterData (set_depth pd v) t
  = (λ pd', set_depth pd' v) <$> characterData pd t.
Proof.
  unfold characterData. cbn [docontent lcontent acontent content set_depth].
  destruct (negb (docontent pd)); [reflexivity|].
  destruct (if decide _ then _ else _) as [c a].
  destruct (copy_bytes c (lcontent pd) t) as [c1|]; [|reflexivity].
  cbn [mbind option_bind].
  destruct (store c1 _ NUL); reflexivity.
Qed.

Lemma characterData_depth pd t pd' :
  characterData pd t = Some pd' →
  depth pd' = depth pd ∧ statedepth pd' = statedepth pd.
Proof.
  unfold characterData. intros H.
  destruct (negb (docontent pd)); [by injection H as <-|].
  destruct (if decide _ then _ else _) as [c a].
  destruct (copy_bytes _ _ _); [|discriminate H].
  cbn [mbind option_bind] in H.
  destruct (store _ _ _); [|discriminate H].
  by injection H as <-.
Qed.

Lemma run_texts_set_depth ts :
  ∀ pd v,
    run (Text <$> ts) (set_depth pd v)
    = (λ pd', set_depth pd' v) <$> run (Text <$> ts) pd.
Proof.
  induction ts as [|t ts IH]; intros pd v; [reflexivity|].
  rewrite fmap_cons, !run_cons. cbn [handle_event].
  rewrite characterData_set_depth.
  destruct (characterData pd t) as [pd1|]; [|reflexivity].
  cbn [fmap option_fmap option_map]. rewrite !bind_Some. apply IH.
Qed.

Lemma run_texts_depth ts :
  ∀ pd pd',
    run (Text <$> ts) pd = Some pd' →
    depth pd' = depth pd ∧ statedepth pd' = statedepth pd.
Proof.
  induction ts as [|t ts IH]; intros pd pd'.
  - rewrite run_nil. by intros [= <-].
  - rewrite fmap_cons, run_cons. cbn [handle_event].
    destruct (characterData pd t) as [pd1|] eqn:E; [|intros [=]].
    rewrite bind_Some. intros H. apply IH in H as [-> ->].
    by apply characterData_depth in E.
Qed.

Lemma run_texts_app ts1 ts2 pd :
  run (Text <$> (ts1 ++ ts2)) pd
  = run (Text <$> ts1) pd ≫= run (Text <$> ts2).
Proof. by rewrite fmap_app, run_app. Qed.

Lemma startElement_inside pd nm atts :
  depth pd ≠ statedepth pd →
  startElement pd nm atts = Some (set_depth pd (depth pd + 1)).
Proof. intros H. unfold startElement. by rewrite decide_True. Qed.

Lemma endElement_inside pd nm :
  depth pd ≠ statedepth pd →
  endElement pd nm = Some (set_depth pd (depth pd - 1)).
Proof. intros H. unfold endElement. by rewrite decide_True. Qed.

Lemma startElement_unknown pd nm atts :
  depth pd = statedepth pd → lookup_switch (pstate pd) nm = None →
  startElement pd nm atts = Some (set_depth pd (depth pd + 1)).
Proof.
  intros Hd Hlook. unfold startElement.
  rewrite decide_False by (intros Hne; exact (Hne Hd)).
  cbn [pstate set_depth].
  unfold lookup_switch in Hlook.
  destruct (swtab (pstate pd)) as [i|]; [|reflexivity].
  cbn [mbind option_bind] in Hlook. rewrite Hlook. reflexivity.
Qed.

(** Between the start and the end of an element that is not taken, the
    handlers count the depth and pass the character data on. *)
Lemma run_below pd nm evs ts :
  (statedepth pd < depth pd + 1)%Z →
  (∀ pd1, (statedepth pd1 < depth pd1)%Z →
          run evs pd1 = run (Text <$> ts) pd1) →
  run (evs ++ [End_ nm]) (set_depth pd (depth pd + 1))
  = run (Text <$> ts) pd.
Proof.
  intros Hd Hevs. rewrite run_app, Hevs by (cbn [statedepth depth set_depth]; lia).
  rewrite run_texts_set_depth.
  destruct (run (Text <$> ts) pd) as [pd'|] eqn:E; [|reflexivity].
  apply run_texts_depth in E as [Hd' Hs'].
  cbn [fmap option_fmap option_map]. rewrite bind_Some, run_cons.
  cbn [handle_event]. rewrite endElement_inside
    by (cbn [statedepth depth set_depth]; lia).
  rewrite bind_Some, run_nil. f_equal.
  cbn [depth set_depth].
  replace (depth pd + 1 - 1)%Z with (depth pd') by lia.
  apply set_depth_back.
Qed.

Lemma run_inside n :
  ∀ pd, (statedepth pd < depth pd)%Z →
        run (events_of n) pd = run (Text <$> texts_of n) pd.
Proof.
  induction n as [s|nm atts children IH] using node_ind'; intros pd Hd.
  - reflexivity.
  - cbn [events_of texts_of]. rewrite run_cons. cbn [handle_event].
    rewrite startElement_inside by lia. rewrite bind_Some.
    apply run_below; [lia|].
    clear pd Hd. induction IH as [|c children Hc _ IHch]; intros pd Hd.
    + reflexivity.
    + cbn [List.map concat]. rewrite run_app, run_texts_app, Hc by done.
      destruct (run (Text <$> texts_of c) pd) as [pd1|] eqn:E; [|reflexivity].
      rewrite !bind_Some. apply IHch.
      apply run_texts_depth in E as [-> ->]. exact Hd.
Qed.

Lemma run_children_inside children :
  ∀ pd, (statedepth pd < depth pd)%Z →
        run (concat (List.map events_of children)) pd
        = run (Text <$> concat (List.map texts_of children)) pd.
Proof.
  induction children as [|c children IH]; intros pd Hd; [reflexivity|].
  cbn [List.map concat]. rewrite run_app, run_texts_app, run_inside by done.
  destruct (run (Text <$> texts_of c) pd) as [pd1|] eqn:E; [|reflexivity].
  rewrite !bind_Some. apply IH.
  apply run_texts_depth in E as [-> ->]. exact Hd.
Qed.

(** The same for an element that is not taken where it stands. *)
Lemma run_unknown_element pd nm atts children :
  (statedepth pd < depth pd)%Z
  ∨ (depth pd = statedepth pd ∧ lookup_switch (pstate pd) nm = None) →
  run (events_of (Elem nm atts children)) pd
  = run (Text <$> texts_of (Elem nm atts children)) pd.
Proof.
  intros [Hd|[Hd Hlook]]; [by apply run_inside|].
  cbn [events_of texts_of]. rewrite run_cons. cbn [handle_event].
  rewrite startElement_unknown by assumption. rewrite bind_Some.
  apply run_below; [lia|]. apply run_children_inside.
Qed.

(** X3.  An element that the state table does not know in the current
    state, or that lies inside such an element, is passed over together
    with everything below it, whatever the names of the elements there:
    the parser is left as the character data of the subtree alone would
    leave it (dropped or appended to the text that is being captured),
    and a run that fails does so on that character data. *)
Theorem unknown_subtree_keeps_only_text pd nm atts children :
  (statedepth pd < depth pd)%Z
  ∨ (depth pd = statedepth pd ∧ lookup_switch (pstate pd) nm = None) →
  run (events_of (Elem nm atts children)) pd
  = run (Text <$> texts_of (Elem nm atts children)) pd.
Proof. apply run_unknown_element. Qed.

(** ** Subtrees that are skipped for their language *)

Lemma find_switch_row rows st nm row :
  find_switch rows st nm = Some row →
  row ∈ rows ∧ from row = st ∧ ename row = Some nm.
Proof.
  induction rows as [|r rows IH]; [done|]. cbn [find_switch].
  case_decide as Hf; [|done].
  destruct (ename r) as [en|] eqn:Hen; [|done].
  unfold streq. case_bool_decide as Hnm.
  - intros [= <-]. subst en. split; [left|done].
  - intros H. apply IH in H as (Hin & ? & ?). split; [by right|done].
Qed.

Lemma stateswitches_sbtab :
  Forall (λ r, ename r ≠ None → sbtab (to r) = from r) stateswitches.
Proof. apply (bool_decide_unpack _). vm_compute. reflexivity. Qed.

Lemma lookup_switch_row st nm row :
  lookup_switch st nm = Some row →
  row ∈ stateswitches ∧ from row = st ∧ ename row = Some nm
  ∧ sbtab (to row) = st.
Proof.
  unfold lookup_switch. destruct (swtab st) as [i|];
    cbn [mbind option_bind]; [|intros [=]]. intros H.
  apply find_switch_row in H as (Hin & Hf & Hen).
  assert (row ∈ stateswitches) as Hin'.
  { apply list_elem_of_lookup in Hin as [k Hk].
    rewrite lookup_drop in Hk. by eapply list_elem_of_lookup_2. }
  repeat split; try done.
  pose proof stateswitches_sbtab as Hall.
  rewrite list.Forall_forall in Hall. rewrite <- Hf.
  apply Hall; [exact Hin'|].
  by rewrite Hen.
Qed.

Lemma parsedata_eq pd pd' :
  depth pd = depth pd' → pstate pd = pstate pd' →
  statedepth pd = statedepth pd' → content pd = content pd' →
  lcontent pd = lcontent pd' → acontent pd = acontent pd' →
  docontent pd = docontent pd' → pool pd = pool pd' → data pd = data pd' →
  solvable pd = solvable pd' → handle pd = handle pd' →
  description pd = description pd' → licnt pd = licnt pd' →
  skip_depth pd = skip_depth pd' → flags pd = flags pd' →
  desktop_file pd = desktop_file pd' → havesummary pd = havesummary pd' →
  filename pd = filename pd' → owners pd = owners pd' →
  pd = pd'.
Proof. destruct pd, pd'. cbn. intros. by subst. Qed.

Ltac pd_fields :=
  cbn [depth pstate statedepth content lcontent acontent docontent pool data
       solvable handle description licnt skip_depth flags desktop_file
       havesummary filename owners
       set_depth set_state set_statedepth set_buf set_docontent set_pool
       set_data set_solvable set_handle set_description set_licnt
       set_skip_depth set_desktop_file set_havesummary].

Lemma reset_buf_idem pd : reset_buf (reset_buf pd) = reset_buf pd.
Proof.
  unfold reset_buf. pd_fields. by rewrite list_insert_insert_eq.
Qed.

Lemma skipping_reset_buf pd : skipping pd → skipping (reset_buf pd).
Proof.
  unfold skipping, reset_buf. cbn [skip_depth depth docontent statedepth
    content set_buf]. rewrite length_insert. done.
Qed.

(** [endElement] inside a skipped subtree, below the element that
    started the skip. *)
Lemma endElement_skipping pd nm :
  depth pd = statedepth pd → skip_depth pd ≠ 0%Z →
  (skip_depth pd < depth pd)%Z →
  endElement pd nm
  = Some (set_docontent
            (set_state
               (set_statedepth (set_depth pd (depth pd - 1))
                  (statedepth pd - 1))
               (sbtab (pstate pd))) false).
Proof.
  intros Hd Hs Hlt. unfold endElement.
  rewrite decide_False by (intros Hne; exact (Hne Hd)).
  cbv zeta. cbn [skip_depth depth pstate set_depth set_statedepth].
  rewrite (decide_True (P:=_ ∧ _)) by (split; [exact Hs|lia]).
  rewrite (decide_False (P:=(_ = _)%Z)) by lia.
  reflexivity.
Qed.

(** [endElement] of the element that started the skip. *)
Lemma endElement_skip_end pd nm :
  depth pd = statedepth pd → skip_depth pd ≠ 0%Z →
  skip_depth pd = depth pd →
  endElement pd nm
  = Some (set_docontent
            (set_state
               (set_skip_depth
                  (set_statedepth (set_depth pd (depth pd - 1))
                     (statedepth pd - 1)) 0)
               (sbtab (pstate pd))) false).
Proof.
  intros Hd Hs Heq. unfold endElement.
  rewrite decide_False by (intros Hne; exact (Hne Hd)).
  cbv zeta. cbn [skip_depth depth pstate set_depth set_statedepth].
  rewrite (decide_True (P:=_ ∧ _)) by (split; [exact Hs|lia]).
  rewrite (decide_True (P:=(_ = _)%Z)) by lia.
  reflexivity.
Qed.

Lemma startElement_skipping pd nm atts row :
  depth pd = statedepth pd → skip_depth pd ≠ 0%Z →
  0 < length (content pd) →
  lookup_switch (pstate pd) nm = Some row →
  startElement pd nm atts
  = Some (set_docontent (opening pd row (<[0:=NUL]> (content pd))) false).
Proof.
  intros Hd Hs Hlen Hlook.
  rewrite (startElement_row pd nm atts row (<[0:=NUL]> (content pd)))
    by (try assumption; by apply store_0).
  cbv zeta.
  rewrite (decide_False (P:=_ ∧ _)) by (intros [H _]; exact (Hs H)).
  rewrite decide_True; [reflexivity|].
  exact Hs.
Qed.

(** A known element below the start of the skip and its end, when what
    lies between leaves the parser as it is. *)
Lemma skipped_element_back pd row :
  depth pd = statedepth pd → docontent pd = false →
  sbtab (to row) = pstate pd →
  set_docontent
    (set_state
       (set_statedepth
          (set_depth
             (set_docontent (opening pd row (<[0:=NUL]> (content pd))) false)
             (depth pd + 1 - 1))
          (depth pd + 1 - 1))
       (sbtab (to row))) false
  = reset_buf pd.
Proof.
  intros Hd Hdo Hsb. rewrite Hsb. unfold reset_buf, opening.
  apply parsedata_eq; pd_fields; first [reflexivity|lia|by symmetry].
Qed.

Lemma run_skipping n :
  ∀ pd, skipping pd →
        run (events_of n) pd = Some pd
        ∨ run (events_of n) pd = Some (reset_buf pd).
Proof.
  induction n as [s|nm atts children IH] using node_ind'; intros pd Hsk.
  - left. destruct Hsk as (_ & _ & Hdo & _).
    apply (run_texts_dropped [s]). exact Hdo.
  - destruct Hsk as (Hs & Hle & Hdo & Hsd & Hlen).
    destruct (decide (depth pd = statedepth pd)) as [Hd|Hd].
    2:{ left. rewrite run_inside by lia. apply run_texts_dropped.
        exact Hdo. }
    destruct (lookup_switch (pstate pd) nm) as [row|] eqn:Hlook.
    2:{ left.
        rewrite run_unknown_element
          by (right; split; [exact Hd|exact Hlook]).
        apply run_texts_dropped. exact Hdo. }
    right. cbn [events_of]. rewrite run_cons. cbn [handle_event].
    rewrite (startElement_skipping pd nm atts row) by assumption.
    destruct (lookup_switch_row _ _ _ Hlook) as (_ & _ & _ & Hsb).
    clear Hlook.
    rewrite bind_Some, run_app.
    set (pd1 := set_docontent (opening pd row (<[0:=NUL]> (content pd))) false).
    assert (skipping pd1) as Hsk1.
    { unfold skipping, pd1, opening. pd_fields.
      rewrite length_insert.
      split; [exact Hs|]. split; [lia|]. split; [reflexivity|].
      split; [lia|exact Hlen]. }
    assert (reset_buf pd1 = pd1) as Hreset.
    { unfold pd1, reset_buf, opening. pd_fields.
      by rewrite list_insert_insert_eq. }
    assert (run (concat (List.map events_of children)) pd1 = Some pd1) as ->.
    { clear -IH Hsk1 Hreset. revert Hsk1 Hreset. generalize pd1.
      clear pd1. induction IH as [|c children Hc _ IHch];
        intros pd1 Hsk1 Hreset; [reflexivity|].
      cbn [List.map concat]. rewrite run_app.
      destruct (Hc pd1 Hsk1) as [->| ->]; rewrite ?Hreset, bind_Some;
        by apply IHch. }
    rewrite bind_Some, run_cons. cbn [handle_event].
    assert (depth pd1 = (depth pd + 1)%Z) as Hd1 by reflexivity.
    assert (statedepth pd1 = (depth pd + 1)%Z) as Hsd1 by reflexivity.
    assert (skip_depth pd1 = skip_depth pd) as Hs1 by reflexivity.
    rewrite endElement_skipping
      by (rewrite ?Hd1, ?Hsd1, ?Hs1; first [reflexivity|exact Hs|lia]).
    rewrite bind_Some, run_nil. f_equal.
    rewrite Hd1, Hsd1. change (pstate pd1) with (to row).
    unfold pd1. apply skipped_element_back; assumption.
Qed.
Lemma run_children_skipping children :
  ∀ pd, skipping pd → reset_buf pd = pd →
        run (concat (List.map events_of children)) pd = Some pd.
Proof.
  induction children as [|c children IH]; intros pd Hsk Hreset;
    [reflexivity|].
  cbn [List.map concat]. rewrite run_app.
  destruct (run_skipping c pd Hsk) as [->| ->]; rewrite ?Hreset, bind_Some;
    by apply IH.
Qed.

Lemma skip_element_back pd row :
  depth pd = statedepth pd → skip_depth pd = 0%Z →
  sbtab (to row) = pstate pd →
  set_docontent
    (set_state
       (set_skip_depth
          (set_statedepth
             (set_depth
                (set_docontent
                   (set_skip_depth
                      (opening pd row (<[0:=NUL]> (content pd)))
                      (depth pd + 1)) false)
                (depth pd + 1 - 1))
             (depth pd + 1 - 1)) 0)
       (sbtab (to row))) false
  = set_docontent (reset_buf pd) false.
Proof.
  intros Hd Hs Hsb. rewrite Hsb. unfold reset_buf, opening.
  apply parsedata_eq; pd_fields; first [reflexivity|lia|by symmetry].
Qed.

(** The element that starts a skip, with everything below it. *)
Lemma run_lang_element pd nm atts children row :
  depth pd = statedepth pd → skip_depth pd = 0%Z → (0 ≤ depth pd)%Z →
  0 < length (content pd) →
  lookup_switch (pstate pd) nm = Some row →
  is_Some (find_attr (lit "xml:lang") atts) →
  run (events_of (Elem nm atts children)) pd
  = Some (set_docontent (reset_buf pd) false).
Proof.
  intros Hd Hs H0 Hlen Hlook Hlang.
  cbn [events_of]. rewrite run_cons. cbn [handle_event].
  rewrite (startElement_lang pd nm atts row (<[0:=NUL]> (content pd)))
    by (try assumption; by apply store_0).
  destruct (lookup_switch_row _ _ _ Hlook) as (_ & _ & _ & Hsb).
  clear Hlook.
  rewrite bind_Some, run_app.
  set (pd1 := set_docontent
                (set_skip_depth (opening pd row (<[0:=NUL]> (content pd)))
                   (depth pd + 1)) false).
  assert (skipping pd1) as Hsk1.
  { unfold skipping, pd1, opening. pd_fields. rewrite length_insert.
    split; [lia|]. split; [lia|]. split; [reflexivity|].
    split; [lia|exact Hlen]. }
  assert (reset_buf pd1 = pd1) as Hreset.
  { unfold pd1, reset_buf, opening. pd_fields.
    by rewrite list_insert_insert_eq. }
  rewrite run_children_skipping by assumption.
  rewrite bind_Some, run_cons. cbn [handle_event].
  assert (depth pd1 = (depth pd + 1)%Z) as Hd1 by reflexivity.
  assert (statedepth pd1 = (depth pd + 1)%Z) as Hsd1 by reflexivity.
  assert (skip_depth pd1 = (depth pd + 1)%Z) as Hs1 by reflexivity.
  rewrite endElement_skip_end
    by (rewrite ?Hd1, ?Hsd1, ?Hs1; first [reflexivity|lia]).
  rewrite bind_Some, run_nil. f_equal.
  rewrite Hd1, Hsd1. change (pstate pd1) with (to row).
  unfold pd1. apply skip_element_back; assumption.
Qed.

(** X4.  An element that the state table knows and that carries
    [xml:lang], met outside of a skipped subtree, is skipped with
    everything below it, whatever lies there: at its end the parser is
    in the state, at the depth and with the records, attributes and
    description it had at the start; only the content buffer has been
    reset and [docontent] cleared.  No record is created and nothing is
    written for the subtree. *)
Theorem lang_subtree_is_skipped pd nm atts children row :
  depth pd = statedepth pd → skip_depth pd = 0%Z → (0 ≤ depth pd)%Z →
  0 < length (content pd) →
  lookup_switch (pstate pd) nm = Some row →
  is_Some (find_attr (lit "xml:lang") atts) →
  run (events_of (Elem nm atts children)) pd
  = Some (set_docontent (reset_buf pd) false).
Proof.
  exact (run_lang_element pd nm atts children row).
Qed.

(** ** The state table *)

(** X5.  The scan of [startElement] from [swtab] finds a row for a state
    and an element name exactly when the table has such a row: the rows
    of a state are one run of the table ("must be sorted by first
    column"), no state has two rows of one name, and the row of the null
    name at the end is never taken.  [sbtab] leads back from the state of
    the row to the state it was found in. *)
Theorem state_table_lookup st nm row :
  (lookup_switch st nm = Some row
   ↔ row ∈ stateswitches ∧ from row = st ∧ ename row = Some nm)
  ∧ (lookup_switch st nm = Some row → sbtab (to row) = st).
Proof.
  split; [split|].
  - intros H. destruct (lookup_switch_row _ _ _ H) as (H1 & H2 & H3 & _).
    clear H. split; [exact H1|]. split; [exact H2|exact H3].
  - intros (Hin & <- & Hen). unfold stateswitches in Hin.
    repeat (apply elem_of_cons in Hin as [->|Hin];
            [first [injection Hen as <-; vm_compute; reflexivity
                   |discriminate Hen]|]).
    exfalso. revert Hin. apply not_elem_of_nil.
  - intros H. destruct (lookup_switch_row _ _ _ H) as (_ & _ & _ & H4).
    exact H4.
Qed.

(** ** The start and the end of elements *)



Lemma start_switch_APPLICATION pd atts :
  pstate pd = STATE_APPLICATION →
  start_switch pd atts
  = set_data
      (set_havesummary
         (set_handle
            (set_solvable (set_pool pd (pool pd ++ [new_solvable]))
               (Some (length (pool pd))))
            (length (pool pd))) false)
      (repodata_set_poolstr (data pd) (length (pool pd)) SOLVABLE_CATEGORY
         (match find_attr (lit "type") atts with
          | None | Some [] => lit "desktop"
          | Some t => t
          end)).
Proof. intros H. unfold start_switch. rewrite H. reflexivity. Qed.


(** ** Paragraphs and items of unordered lists *)

Lemma end_switch_P pd : pstate pd = STATE_P → end_switch pd = end_p pd.
Proof. intros H. unfold end_switch. by rewrite H. Qed.

Lemma sbtab_P : sbtab STATE_P = STATE_DESCRIPTION.
Proof. vm_compute. reflexivity. Qed.
Lemma sbtab_UL_LI : sbtab STATE_UL_LI = STATE_UL.
Proof. vm_compute. reflexivity. Qed.

Lemma end_p_spec pd c :
  c_str (content pd) = Some c →
  ∃ b,
    end_p pd
    = Some (set_description
              (set_buf pd b (length (wsstrip_str c)) (acontent pd))
              (Some (default [] (description pd)
                     ++ wsstrip_str c ++ [NL; NL])))
    ∧ length b = length (content pd).
Proof.
  intros Hc. unfold end_p, content_str.
  destruct (wsstrip_spec pd c Hc) as (b & -> & Hb & Hlen).
  rewrite bind_Some. pd_fields. rewrite Hb, bind_Some.
  exists b. split; [reflexivity|exact Hlen].
Qed.

Lemma end_ul_li_spec pd c :
  c_str (content pd) = Some c → acontent pd = length (content pd) →
  wsstrip_str c ≠ [] →
  ∃ b,
    end_ul_li pd
    = Some (set_description
              (set_buf pd b (length (indent_str 4 (wsstrip_str c)))
                 (length b))
              (Some (default [] (description pd)
                     ++ lit "  -"
                     ++ drop 3 (indent_str 4 (wsstrip_str c)) ++ [NL])))
    ∧ 0 < length b.
Proof.
  intros Hc Ha Hne. unfold end_ul_li.
  destruct (wsstrip_spec pd c Hc) as (b1 & -> & Hb1 & Hl1).
  rewrite bind_Some.
  destruct (wsstrip_str c) as [|x w] eqn:Hw; [done|].
  pose proof (wsstrip_str_head _ _ _ Hw) as Hx.
  edestruct (indent_spec (set_buf pd b1 (length (x :: w)) (acontent pd))
               (x :: w) 4)
    as (b2 & -> & Hb2); [exact Hb1|done|simpl; congruence|].
  rewrite bind_Some.
  rewrite indent_str_nonempty in Hb2 |- * by done.
  apply c_str_Some in Hb2 as (tail & Hb2 & Hn).
  cbn [replicate app] in Hb2, Hn.
  do 4 (apply not_elem_of_cons in Hn as [_ Hn]).
  apply not_elem_of_cons in Hn as [HxN%not_eq_sym Hn].
  pose proof SP_not_NUL as HSP.
  subst b2.
  unfold store_content, content_str, solv_dupappend. pd_fields.
  set (rest := SP :: x :: indent_go 4 false w ++ NUL :: tail).
  exists (SP :: SP :: "-"%char :: rest).
  rewrite store_cons2, !bind_Some. pd_fields.
  unfold rest. rewrite !c_str_cons by done.
  rewrite c_str_app by done.
  cbn [fmap option_fmap option_map mbind option_bind].
  split; [|simpl; lia].
  cbn [drop replicate app length]. rewrite <- ?(assoc_L (++)).
  reflexivity.
Qed.

Lemma indent_str_one_line il x w :
  is_ws x = false → NL ∉ w →
  indent_str il (x :: w) = replicate il SP ++ x :: w.
Proof.
  intros Hx Hw. rewrite indent_str_nonempty by done.
  pose proof (indent_go_line il w [] Hw (or_introl eq_refl)) as H.
  rewrite app_nil_r in H. rewrite H. f_equal. f_equal.
  rewrite <- (app_nil_r w) at 2. f_equal.
Qed.

(** X7.  The close of a [p] element outside of a skipped subtree: the
    captured text, normalised by [wsstrip], and two newlines are appended
    to the description (which starts empty), also when the paragraph is
    blank; the parser is back in the state of the description and the
    attributes of the record are as they were. *)
Theorem paragraph_close pd nm c :
  depth pd = statedepth pd → skip_depth pd = 0%Z →
  pstate pd = STATE_P → c_str (content pd) = Some c →
  ∃ pd',
    endElement pd nm = Some pd'
    ∧ description pd'
      = Some (default [] (description pd) ++ wsstrip_str c ++ [NL; NL])
    ∧ pstate pd' = STATE_DESCRIPTION ∧ docontent pd' = false
    ∧ data pd' = data pd ∧ pool pd' = pool pd.
Proof.
  intros Hd Hs Hst Hc. rewrite endElement_close by assumption.
  rewrite end_switch_P by exact Hst.
  destruct (end_p_spec (closing pd) c Hc) as (b & -> & _).
  rewrite bind_Some. eexists. split; [reflexivity|].
  unfold closing. pd_fields.
  split; [reflexivity|]. split; [|by repeat split].
  rewrite Hst. apply sbtab_P.
Qed.

(** X8.  The close of an item of an unordered list that is not blank,
    outside of a skipped subtree: the normalised text is indented by four
    spaces line by line, the third of the first four spaces is replaced
    by a dash, and the result and a newline are appended to the
    description.  An item of one line is appended as two spaces, the
    dash, a space and the text. *)
Theorem unordered_item_close pd nm c :
  depth pd = statedepth pd → skip_depth pd = 0%Z →
  pstate pd = STATE_UL_LI → c_str (content pd) = Some c →
  acontent pd = length (content pd) → wsstrip_str c ≠ [] →
  ∃ pd',
    endElement pd nm = Some pd'
    ∧ description pd'
      = Some (default [] (description pd)
              ++ lit "  -" ++ drop 3 (indent_str 4 (wsstrip_str c)) ++ [NL])
    ∧ lines (indent_str 4 (wsstrip_str c))
      = indent_line 4 <$> lines (wsstrip_str c)
    ∧ (NL ∉ wsstrip_str c →
       description pd'
       = Some (default [] (description pd)
               ++ lit "  - " ++ wsstrip_str c ++ [NL]))
    ∧ pstate pd' = STATE_UL ∧ licnt pd' = licnt pd ∧ data pd' = data pd.
Proof.
  intros Hd Hs Hst Hc Ha Hne. rewrite endElement_close by assumption.
  rewrite end_switch_UL_LI by exact Hst.
  destruct (end_ul_li_spec (closing pd) c Hc Ha Hne) as (b & -> & _).
  rewrite bind_Some. eexists. split; [reflexivity|].
  unfold closing. pd_fields.
  split; [reflexivity|].
  split; [apply lines_indent_go|].
  split.
  { intros Hnl. destruct (wsstrip_str c) as [|x w] eqn:Hw; [done|].
    apply not_elem_of_cons in Hnl as [_ Hnl].
    rewrite indent_str_one_line
      by (first [exact Hnl|exact (wsstrip_str_head _ _ _ Hw)]).
    reflexivity. }
  split; [|by split].
  rewrite Hst. apply sbtab_UL_LI.
Qed.

(** ** The description of a record *)
















(** ** The links of a record at the close of an application *)

(** The close of an application when the loop over the owners is not
    entered. *)
Lemma end_application_no_owners pd i s s2 pd2 :
  cur_solvable pd = Some (i, s) →
  desktop_tags pd (default_arch_evr s) = (s2, pd2) →
  owners pd = None ∨ requires s ≠ [] →
  end_application pd
  = Some (set_desktop_file
            (set_solvable
               (set_pool pd2
                  (<[i:=self_provide
                          (appdata_link pd2 (name_from_desktop_file pd2 s2))]>
                     (pool pd)))
               None) None).
Proof.
  intros Hcur E2 Hno. unfold end_application. rewrite Hcur.
  cbn [mbind option_bind]. rewrite E2.
  apply cur_solvable_Some in Hcur as [Hsolv Hpool].
  destruct (default_arch_evr_deps s) as (_ & Hr1 & _).
  apply desktop_tags_frame in E2
    as (_ & _ & Hr2 & _ & Hpool2 & _ & _ & Hos2).
  destruct (name_from_desktop_file_frame pd2 s2) as (_ & _ & Hr3 & _).
  set (s3 := name_from_desktop_file pd2 s2) in *.
  assert (i < length (pool pd)) as Hi by (by eapply lookup_lt_Some).
  assert (owner_links pd2 (<[i:=s3]> (pool pd2)) i s3
          = Some (<[i:=s3]> (pool pd2))) as ->.
  { unfold owner_links. rewrite Hos2. destruct (owners pd) as [os|].
    - destruct Hno as [?|Hne]; [done|].
      rewrite decide_False; [done|]. by rewrite Hr3, Hr2, Hr1.
    - done. }
  rewrite bind_Some.
  rewrite list_lookup_insert_eq by (by rewrite Hpool2).
  rewrite bind_Some, list_insert_insert_eq, Hpool2. reflexivity.
Qed.

Lemma self_provide_provides s :
  provides (self_provide s) = with_self_provide s (provides s).
Proof. unfold self_provide, with_self_provide. by case_decide. Qed.

Lemma with_self_provide_ext s s' deps :
  name s = name s' → arch s = arch s' → evr s = evr s' →
  with_self_provide s deps = with_self_provide s' deps.
Proof. unfold with_self_provide. by intros -> -> ->. Qed.

(** X10.  At the close of an application whose record has requires
    already (a [pkgname] element was closed in it), neither the owners
    nor the file name of the document add a link: the requires of the
    record stay as they are and its provides gain nothing but the
    self-provide. *)
Theorem pkgname_suppresses_links pd nm i s :
  depth pd = statedepth pd → skip_depth pd = 0%Z →
  pstate pd = STATE_APPLICATION → cur_solvable pd = Some (i, s) →
  requires s ≠ [] →
  ∃ pd' s',
    endElement pd nm = Some pd'
    ∧ pool pd' !! i = Some s'
    ∧ requires s' = requires s
    ∧ provides s' = with_self_provide s' (provides s).
Proof.
  intros Hd Hs Hst Hcur Hne. rewrite endElement_close by assumption.
  rewrite end_switch_APPLICATION by exact Hst.
  destruct (desktop_tags (closing pd) (default_arch_evr s)) as [s2 pd2] eqn:E2.
  rewrite (end_application_no_owners (closing pd) i s s2 pd2)
    by (first [exact Hcur|exact E2|by right]).
  rewrite bind_Some.
  apply cur_solvable_Some in Hcur as [Hsolv Hpool].
  destruct (default_arch_evr_deps s) as (_ & Hr1 & Hp1).
  apply desktop_tags_frame in E2
    as (_ & _ & Hr2 & Hp2 & Hpool2 & _ & _ & Hos2).
  destruct (name_from_desktop_file_frame pd2 s2) as (_ & _ & Hr3 & Hp3).
  set (s3 := name_from_desktop_file pd2 s2) in *.
  assert (appdata_link pd2 s3 = s3) as ->.
  { unfold appdata_link. rewrite decide_False; [done|].
    intros [Hr _]. apply Hne. by rewrite <- Hr1, <- Hr2, <- Hr3. }
  destruct (self_provide_frame s3) as (Hn4 & Ha4 & He4 & Hr4).
  eexists _, (self_provide s3). split; [reflexivity|]. pd_fields.
  split.
  { apply list_lookup_insert_eq. by eapply lookup_lt_Some. }
  split; [by rewrite Hr4, Hr3, Hr2, Hr1|].
  rewrite self_provide_provides, Hp3, Hp2, Hp1.
  by apply with_self_provide_ext.
Qed.

Lemma repo_addid_dep_nil id : repo_addid_dep [] id = [id].
Proof. unfold repo_addid_dep. by rewrite decide_False by apply not_elem_of_nil. Qed.

Lemma repo_addid_dep_not_nil deps id : repo_addid_dep deps id ≠ [].
Proof.
  unfold repo_addid_dep. case_decide as Hin.
  - intros ->. by apply not_elem_of_nil in Hin.
  - by destruct deps.
Qed.

Lemma foldl_repo_addid_dep_not_nil names :
  ∀ deps, deps ≠ [] → foldl repo_addid_dep deps names ≠ [].
Proof.
  induction names as [|n names IH]; intros deps H; [exact H|].
  cbn [foldl]. apply IH, repo_addid_dep_not_nil.
Qed.

(** X11.  At the close of an application whose record has no requires
    and no owners, the file name of the document, or else the file name
    guessed from the identifier of the desktop file, links the record to
    the package of the file: the record requires [appdata(file)] and
    provides [application-appdata(file)]. *)
Theorem file_link pd nm i s fn :
  depth pd = statedepth pd → skip_depth pd = 0%Z →
  pstate pd = STATE_APPLICATION → cur_solvable pd = Some (i, s) →
  requires s = [] → owners pd = None →
  filename pd = Some fn
  ∨ (filename pd = None
     ∧ ∃ id, desktop_file pd = Some id
             ∧ guess_filename_from_id id = Some fn) →
  ∃ pd' s',
    endElement pd nm = Some pd'
    ∧ pool pd' !! i = Some s'
    ∧ requires s' = [pool_str2id (lit "appdata(" ++ fn ++ lit ")")]
    ∧ provides s'
      = with_self_provide s'
          (repo_addid_dep (provides s)
             (pool_str2id (lit "application-appdata(" ++ fn ++ lit ")"))).
Proof.
  intros Hd Hs Hst Hcur Hreq Hos Hfn. rewrite endElement_close by assumption.
  rewrite end_switch_APPLICATION by exact Hst.
  destruct (desktop_tags (closing pd) (default_arch_evr s)) as [s2 pd2] eqn:E2.
  rewrite (end_application_no_owners (closing pd) i s s2 pd2)
    by (first [exact Hcur|exact E2|by left]).
  rewrite bind_Some.
  apply cur_solvable_Some in Hcur as [Hsolv Hpool].
  destruct (default_arch_evr_deps s) as (_ & Hr1 & Hp1).
  apply desktop_tags_frame in E2
    as (_ & _ & Hr2 & Hp2 & Hpool2 & Hdf2 & Hfn2 & Hos2).
  destruct (name_from_desktop_file_frame pd2 s2) as (_ & _ & Hr3 & Hp3).
  set (s3 := name_from_desktop_file pd2 s2) in *.
  assert (requires s3 = []) as Hreq3 by (by rewrite Hr3, Hr2, Hr1).
  assert (provides s3 = provides s) as Hprov3 by (by rewrite Hp3, Hp2, Hp1).
  change (desktop_file (closing pd)) with (desktop_file pd) in Hdf2.
  change (filename (closing pd)) with (filename pd) in Hfn2.
  assert (appdata_link pd2 s3
          = set_provides
              (set_requires s3
                 [pool_str2id (lit "appdata(" ++ fn ++ lit ")")])
              (repo_addid_dep (provides s)
                 (pool_str2id (lit "application-appdata(" ++ fn ++ lit ")"))))
    as Hlink.
  { unfold appdata_link. rewrite Hfn2, Hdf2.
    assert (match filename pd with
            | Some fn0 => Some fn0
            | None => desktop_file pd ≫= guess_filename_from_id
            end = Some fn) as ->.
    { destruct Hfn as [-> |(-> & id & -> & Hg)]; [done|].
      by rewrite bind_Some. }
    rewrite decide_True.
    2:{ split; [exact Hreq3|].
        destruct Hfn as [-> |(_ & id & -> & _)]; [by right|by left]. }
    cbv zeta. cbn [requires provides set_requires].
    rewrite Hreq3, Hprov3, repo_addid_dep_nil. reflexivity. }
  rewrite Hlink.
  set (s5 := set_provides _ _).
  destruct (self_provide_frame s5) as (Hn6 & Ha6 & He6 & Hr6).
  eexists _, (self_provide s5). split; [reflexivity|]. pd_fields.
  split.
  { apply list_lookup_insert_eq. by eapply lookup_lt_Some. }
  split; [by rewrite Hr6|].
  rewrite self_provide_provides.
  by apply with_self_provide_ext.
Qed.

Lemma add_owners_cons p i o os osolv s :
  p !! o = Some osolv → p !! i = Some s →
  add_owners p i (o :: os)
  = add_owners (<[i:=owner_link s (name osolv)]> p) i os.
Proof. intros Ho Hi. cbn [add_owners]. rewrite Ho, Hi. reflexivity. Qed.

(** The loop over the owners, as a fold of its body over the names of
    the owners. *)
Lemma add_owners_fold os :
  ∀ p i s names,
    p !! i = Some s →
    Forall2 (λ o n, name <$> p !! o = Some n) os names →
    add_owners p i os
    = Some (match os with
            | [] => p
            | _ => <[i:=foldl owner_link s names]> p
            end).
Proof.
  induction os as [|o os IH]; intros p i s names Hi Hos.
  - reflexivity.
  - inversion Hos as [|? n ? names' Ho Hos']; subst. clear Hos.
    destruct (p !! o) as [osolv|] eqn:Hosolv; [|discriminate Ho].
    injection Ho as <-.
    rewrite (add_owners_cons p i o os osolv s Hosolv Hi).
    set (s1 := owner_link s (name osolv)).
    assert (i < length p) as Hlt by (by eapply lookup_lt_Some).
    rewrite (IH (<[i:=s1]> p) i s1 names').
    + f_equal. cbn [foldl]. destruct os.
      * inversion Hos'; subst. reflexivity.
      * by rewrite list_insert_insert_eq.
    + by apply list_lookup_insert_eq.
    + eapply list.Forall2_impl; [exact Hos'|]. intros o' n' Hn'.
      destruct (decide (o' = i)) as [->|Hne].
      * rewrite list_lookup_insert_eq by done. rewrite Hi in Hn'.
        by injection Hn' as <-.
      * by rewrite list_lookup_insert_ne.
Qed.

Lemma foldl_owner_link names :
  ∀ s,
    name (foldl owner_link s names) = name s
    ∧ arch (foldl owner_link s names) = arch s
    ∧ evr (foldl owner_link s names) = evr s
    ∧ requires (foldl owner_link s names)
      = foldl repo_addid_dep (requires s) names
    ∧ provides (foldl owner_link s names)
      = foldl (λ deps n,
                 repo_addid_dep deps
                   (pool_str2id
                      (pool_tmpjoin (lit "application-appdata(")
                         (pool_id2str n) (lit ")"))))
          (provides s) names.
Proof.
  induction names as [|n names IH]; intros s; [done|].
  cbn [foldl]. destruct (IH (owner_link s n)) as (-> & -> & -> & -> & ->).
  done.
Qed.

(** X12.  At the close of an application whose record has no requires,
    when the document has owners: for every owner, in their order, the
    record requires the name of the owner and provides
    [application-appdata(name)].  The file name of the document then
    adds no link.  (The record is not among its own owners: the owners
    come from the file lists of the packages.) *)
Theorem owner_links_at_close pd nm i s o os names :
  depth pd = statedepth pd → skip_depth pd = 0%Z →
  pstate pd = STATE_APPLICATION → cur_solvable pd = Some (i, s) →
  requires s = [] → owners pd = Some (o :: os) → i ∉ o :: os →
  Forall2 (λ o n, name <$> pool pd !! o = Some n) (o :: os) names →
  ∃ pd' s',
    endElement pd nm = Some pd'
    ∧ pool pd' !! i = Some s'
    ∧ requires s' = foldl repo_addid_dep [] names
    ∧ provides s'
      = with_self_provide s'
          (foldl (λ deps n,
                    repo_addid_dep deps
                      (pool_str2id
                         (pool_tmpjoin (lit "application-appdata(")
                            (pool_id2str n) (lit ")"))))
             (provides s) names).
Proof.
  intros Hd Hs Hst Hcur Hreq Hos Hself Hnames.
  rewrite endElement_close by assumption.
  rewrite end_switch_APPLICATION by exact Hst.
  unfold end_application.
  change (cur_solvable (closing pd)) with (cur_solvable pd). rewrite Hcur.
  cbn [mbind option_bind].
  destruct (desktop_tags (closing pd) (default_arch_evr s)) as [s2 pd2] eqn:E2.
  apply cur_solvable_Some in Hcur as [Hsolv Hpool].
  destruct (default_arch_evr_deps s) as (_ & Hr1 & Hp1).
  apply desktop_tags_frame in E2
    as (_ & _ & Hr2 & Hp2 & Hpool2 & _ & _ & Hos2).
  change (pool (closing pd)) with (pool pd) in Hpool2.
  change (owners (closing pd)) with (owners pd) in Hos2.
  destruct (name_from_desktop_file_frame pd2 s2) as (_ & _ & Hr3 & Hp3).
  set (s3 := name_from_desktop_file pd2 s2) in *.
  assert (requires s3 = []) as Hreq3 by (by rewrite Hr3, Hr2, Hr1).
  assert (provides s3 = provides s) as Hprov3 by (by rewrite Hp3, Hp2, Hp1).
  assert (i < length (pool pd)) as Hi by (by eapply lookup_lt_Some).
  assert (owner_links pd2 (<[i:=s3]> (pool pd2)) i s3
          = Some (<[i:=foldl owner_link s3 names]> (pool pd))) as ->.
  { unfold owner_links. rewrite Hos2, Hos, decide_True by exact Hreq3.
    rewrite (add_owners_fold (o :: os) _ i s3 names).
    - by rewrite list_insert_insert_eq, Hpool2.
    - apply list_lookup_insert_eq. by rewrite Hpool2.
    - rewrite Hpool2.
      assert (Forall (λ o', o' ≠ i) (o :: os)) as Hne.
      { apply list.Forall_forall. intros o' Ho' ->. by apply Hself. }
      clear -Hnames Hne. revert Hne.
      induction Hnames as [|o' n' os' names' Hn' _ IH]; intros Hne;
        [constructor|].
      inversion_clear Hne as [|?? Ho' Hne'].
      constructor; [|by apply IH].
      by rewrite list_lookup_insert_ne. }
  rewrite bind_Some.
  rewrite list_lookup_insert_eq by exact Hi.
  rewrite bind_Some.
  destruct (foldl_owner_link names s3) as (Hn4 & Ha4 & He4 & Hr4 & Hp4).
  set (s4 := foldl owner_link s3 names) in *.
  assert (requires s4 ≠ []) as Hne4.
  { rewrite Hr4, Hreq3. inversion Hnames as [|? n ? names' _ _]; subst.
    cbn [foldl]. apply foldl_repo_addid_dep_not_nil.
    apply repo_addid_dep_not_nil. }
  assert (appdata_link pd2 s4 = s4) as ->.
  { unfold appdata_link. rewrite decide_False; [done|]. by intros [? _]. }
  destruct (self_provide_frame s4) as (Hn6 & Ha6 & He6 & Hr6).
  eexists _, (self_provide s4). split; [reflexivity|]. pd_fields.
  split.
  { apply list_lookup_insert_eq. rewrite length_insert. exact Hi. }
  split; [by rewrite Hr6, Hr4, Hreq3|].
  rewrite self_provide_provides, Hp4, Hprov3.
  by apply with_self_provide_ext.
Qed.

(** ** The desktop file *)

Lemma desktop_keeps_refl h st : desktop_keeps h st st.
Proof. unfold desktop_keeps. naive_solver. Qed.

Lemma desktop_keeps_trans h st1 st2 st3 :
  desktop_keeps h st1 st2 → desktop_keeps h st2 st3 →
  desktop_keeps h st1 st3.
Proof.
  unfold desktop_keeps. intros (A1 & A2 & A3 & A4) (B1 & B2 & B3 & B4).
  split; [|split; [|split]].
  - intros H. rewrite <- (A1 H). apply B1. by rewrite (A1 H).
  - intros H. destruct (A2 H) as [H2 <-]. by apply B2.
  - intros H. rewrite (B3 H). apply A3.
    destruct (st2.1.2) eqn:E; [|done].
    destruct (B2 eq_refl) as [? _]. congruence.
  - intros h' k Hk. by rewrite B4, A4.
Qed.

Lemma desktop_line_keeps h line inde st :
  desktop_keeps h st (desktop_line h line inde st).1.2.
Proof.
  destruct st as [[nm hs] dat]. unfold desktop_line.
  destruct (strip_leading_blanks _) as [|c p];
    [apply desktop_keeps_refl|].
  case_decide; [apply desktop_keeps_refl|].
  destruct (streq _ (lit "[Desktop Entry]")); [apply desktop_keeps_refl|].
  destruct (negb _); [apply desktop_keeps_refl|].
  destruct (strchr _ _) as [[|k]|]; try apply desktop_keeps_refl.
  destruct (strip_leading_blanks (drop _ _)) as [|c2 p2];
    [apply desktop_keeps_refl|].
  destruct (bool_decide (nm = ID_NULL) && streq _ (lit "Name")) eqn:E1.
  { apply andb_prop in E1 as [E1%bool_decide_eq_true _]. subst nm.
    unfold desktop_keeps. cbn [fst snd]. naive_solver. }
  destruct (negb hs && streq _ (lit "Comment")) eqn:E2;
    [|apply desktop_keeps_refl].
  apply andb_prop in E2 as [E2%negb_true_iff _]. subst hs.
  unfold desktop_keeps. cbn [fst snd].
  split; [done|]. split; [done|]. split; [done|].
  intros h' k' Hk. unfold repodata_set_str, repodata_set.
  rewrite decide_False; [done|]. naive_solver.
Qed.

Lemma desktop_loop_keeps fuel h :
  ∀ f inde st, desktop_keeps h st (desktop_loop fuel h f inde st).
Proof.
  induction fuel as [|fuel IH]; intros f inde st;
    [apply desktop_keeps_refl|].
  cbn [desktop_loop]. destruct f as [|c f]; [apply desktop_keeps_refl|].
  destruct (fgets 1023 (c :: f)) as [buf f'].
  destruct (c_prefix buf !! _) as [x|]; [|apply IH].
  case_decide.
  - destruct (skip_overlong f'); [apply IH|apply desktop_keeps_refl].
  - pose proof (desktop_line_keeps h (c_prefix buf) inde st) as Hl.
    destruct (desktop_line h (c_prefix buf) inde st) as [[inde' st'] stop].
    cbn [fst snd] in Hl. destruct stop; [exact Hl|].
    eapply desktop_keeps_trans; [exact Hl|apply IH].
Qed.

(** X13.  [add_missing_tags_from_desktop_file] only fills what is
    missing: whatever the desktop file holds, a name that is set stays, a
    summary that is there stays the one it is, nothing is written when no
    summary is flagged afterwards, and no attribute but the summary of
    the record of the parser is ever touched. *)
Theorem desktop_file_only_fills_gaps pd nm df nm' hs' dat' :
  add_missing_tags_from_desktop_file pd nm df = (nm', hs', dat') →
  (nm ≠ ID_NULL → nm' = nm)
  ∧ (havesummary pd = true → hs' = true ∧ dat' = data pd)
  ∧ (hs' = false → dat' = data pd)
  ∧ (∀ h k, h ≠ handle pd ∨ k ≠ SOLVABLE_SUMMARY → dat' h k = data pd h k).
Proof.
  intros H.
  assert (desktop_keeps (handle pd) (nm, havesummary pd, data pd)
            (nm', hs', dat')) as Hk.
  { rewrite <- H. unfold add_missing_tags_from_desktop_file.
    destruct (fopen_r _);
      [apply desktop_loop_keeps|apply desktop_keeps_refl]. }
  exact Hk.
Qed.

Lemma fgets_line k (l rest : list ascii) :
  NL ∉ l → length l < k →
  fgets k (l ++ NL :: rest) = (l ++ [NL], rest).
Proof.
  revert k. induction l as [|c l IH]; intros k Hnl Hlen.
  - destruct k; [simpl in Hlen; lia|]. cbn [app fgets].
    by rewrite decide_True.
  - destruct k; [simpl in Hlen; lia|].
    apply not_elem_of_cons in Hnl as [Hc Hl].
    cbn [app fgets]. rewrite decide_False by done.
    rewrite IH by (first [done|simpl in Hlen; lia]). reflexivity.
Qed.

Lemma c_prefix_no_NUL (b : list ascii) : NUL ∉ b → c_prefix b = b.
Proof.
  intros H. unfold c_prefix. by rewrite (c_str_app b []).
Qed.

Lemma strip_leading_blanks_head s c :
  head s = Some c → is_blank c = false → strip_leading_blanks s = s.
Proof. destruct s as [|x s]; [done|]. intros [= ->] H. simpl. by rewrite H. Qed.

Lemma strip_trailing_blanks_last s c :
  list.last s = Some c → is_blank c = false → strip_trailing_blanks s = s.
Proof.
  intros Hl Hc. unfold strip_trailing_blanks.
  rewrite (strip_leading_blanks_head (reverse s) c).
  - apply reverse_involutive.
  - by rewrite head_reverse.
  - exact Hc.
Qed.

Lemma last_app_nonempty (a v : list ascii) c :
  list.last v = Some c → list.last (a ++ v) = Some c.
Proof.
  destruct v as [|x v] using rev_ind; [done|].
  rewrite last_snoc. intros [= ->]. by rewrite (assoc_L (++)), last_snoc.
Qed.

(** The part of a line before its newline. *)
Lemma desktop_line_text (l : list ascii) :
  take (length (l ++ [NL]) - 1) (l ++ [NL]) = l.
Proof.
  rewrite length_app. cbn [length].
  replace (length l + 1 - 1) with (length l) by lia.
  apply take_app_length.
Qed.

Lemma strchr_Name v : strchr (lit "Name" ++ ["="%char] ++ v) "="%char = Some 4.
Proof. vm_compute. reflexivity. Qed.
Lemma strchr_Comment v :
  strchr (lit "Comment" ++ ["="%char] ++ v) "="%char = Some 7.
Proof. vm_compute. reflexivity. Qed.

Lemma strip_trailing_blanks_Name : strip_trailing_blanks (lit "Name") = lit "Name".
Proof. vm_compute. reflexivity. Qed.
Lemma strip_trailing_blanks_Comment :
  strip_trailing_blanks (lit "Comment") = lit "Comment".
Proof. vm_compute. reflexivity. Qed.

(** [desktop_line] on a line whose text, without the blanks at its ends,
    is a key of the two, the equals sign and a value. *)
Lemma desktop_line_stripped h line key k v x w inde st :
  strip_leading_blanks (strip_trailing_blanks (take (length line - 1) line))
  = key ++ ["="%char] ++ v →
  (key = lit "Name" ∧ k = 3) ∨ (key = lit "Comment" ∧ k = 6) →
  strip_leading_blanks v = x :: w →
  desktop_line h line inde st
  = let '(nm, hs, dat) := st in
    if negb inde then (inde, st, false)
    else if bool_decide (nm = ID_NULL) && streq key (lit "Name") then
      (inde, (pool_str2id (pool_tmpjoin (lit "application:") (x :: w) []),
              hs, dat),
       hs)
    else if negb hs && streq key (lit "Comment") then
      (inde, (nm, true, repodata_set_str dat h SOLVABLE_SUMMARY (x :: w)),
       bool_decide (nm ≠ ID_NULL))
    else (inde, st, false).
Proof.
  intros Hp Hkey Hv. destruct st as [[nm hs] dat].
  unfold desktop_line. rewrite Hp.
  destruct Hkey as [[-> ->]|[-> ->]].
  - rewrite strchr_Name.
    change (lit "Name" ++ ["="%char] ++ v)
      with ("N"%char :: (lit "ame" ++ ["="%char] ++ v)).
    cbv beta iota.
    rewrite (decide_False (P:=("N" = "#")%char)) by discriminate.
    rewrite (decide_False (P:=("N" = "[")%char)) by discriminate.
    unfold streq at 1. rewrite bool_decide_eq_false_2 by discriminate.
    destruct inde; cbn [negb]; [|reflexivity].
    change (take 4 ("N"%char :: (lit "ame" ++ ["="%char] ++ v)))
      with (lit "Name").
    change (drop 5 ("N"%char :: (lit "ame" ++ ["="%char] ++ v))) with v.
    rewrite strip_trailing_blanks_Name, Hv.
    assert (streq (lit "Name") (lit "Name") = true) as -> by reflexivity.
    assert (streq (lit "Name") (lit "Comment") = false) as -> by reflexivity.
    rewrite andb_true_r, andb_false_r.
    case_bool_decide as Hnm.
    + subst nm. rewrite bool_decide_eq_true_2 by discriminate. reflexivity.
    + reflexivity.
  - rewrite strchr_Comment.
    change (lit "Comment" ++ ["="%char] ++ v)
      with ("C"%char :: (lit "omment" ++ ["="%char] ++ v)).
    cbv beta iota.
    rewrite (decide_False (P:=("C" = "#")%char)) by discriminate.
    rewrite (decide_False (P:=("C" = "[")%char)) by discriminate.
    unfold streq at 1. rewrite bool_decide_eq_false_2 by discriminate.
    destruct inde; cbn [negb]; [|reflexivity].
    change (take 7 ("C"%char :: (lit "omment" ++ ["="%char] ++ v)))
      with (lit "Comment").
    change (drop 8 ("C"%char :: (lit "omment" ++ ["="%char] ++ v))) with v.
    rewrite strip_trailing_blanks_Comment, Hv.
    assert (streq (lit "Comment") (lit "Name") = false) as -> by reflexivity.
    assert (streq (lit "Comment") (lit "Comment") = true) as ->
      by reflexivity.
    rewrite andb_false_r, andb_true_r. reflexivity.
Qed.

(** A round of the loop on a line that fits the buffer. *)
Lemma desktop_loop_line fuel h (l rest : list ascii) inde st :
  NL ∉ l → NUL ∉ l → length l < 1023 →
  desktop_loop (S fuel) h (l ++ NL :: rest) inde st
  = let '(inde', st', stop) := desktop_line h (l ++ [NL]) inde st in
    if stop then st' else desktop_loop fuel h rest inde' st'.
Proof.
  intros Hnl Hnul Hlen. cbn [desktop_loop].
  destruct (l ++ NL :: rest) as [|c0 f0] eqn:E; [by destruct l|].
  rewrite <- E. clear E c0 f0.
  rewrite fgets_line by assumption.
  rewrite c_prefix_no_NUL.
  2:{ rewrite not_elem_of_app. split; [exact Hnul|].
      by apply (bool_decide_unpack _). }
  assert ((l ++ [NL]) !! (length (l ++ [NL]) - 1) = Some NL) as ->.
  { rewrite length_app. cbn [length].
    replace (length l + 1 - 1) with (length l) by lia.
    by rewrite list_lookup_middle. }
  rewrite decide_False by (intros H; by apply H).
  reflexivity.
Qed.

Lemma desktop_line_group h inde st :
  desktop_line h (lit "[Desktop Entry]" ++ [NL]) inde st = (true, st, false).
Proof. destruct st as [[nm hs] dat]. vm_compute. reflexivity. Qed.

Lemma desktop_line_clean h key k v inde st :
  clean_value v →
  (key = lit "Name" ∧ k = 3) ∨ (key = lit "Comment" ∧ k = 6) →
  desktop_line h ((key ++ ["="%char] ++ v) ++ [NL]) inde st
  = let '(nm, hs, dat) := st in
    if negb inde then (inde, st, false)
    else if bool_decide (nm = ID_NULL) && streq key (lit "Name") then
      (inde, (pool_str2id (lit "application:" ++ v), hs, dat), hs)
    else if negb hs && streq key (lit "Comment") then
      (inde, (nm, true, repodata_set_str dat h SOLVABLE_SUMMARY v),
       bool_decide (nm ≠ ID_NULL))
    else (inde, st, false).
Proof.
  intros (Hnl & Hnul & Hlen & (c1 & Hh & Hc1) & (c2 & Hl & Hc2)) Hkey.
  destruct v as [|x w]; [done|].
  rewrite (desktop_line_stripped h _ key k (x :: w) x w inde st).
  - destruct st as [[nm hs] dat]. unfold pool_tmpjoin.
    by rewrite app_nil_r.
  - rewrite desktop_line_text.
    rewrite (strip_trailing_blanks_last _ c2).
    + destruct Hkey as [[-> _]|[-> _]]; reflexivity.
    + rewrite (assoc_L (++)). by apply last_app_nonempty.
    + exact Hc2.
  - exact Hkey.
  - by apply (strip_leading_blanks_head _ c1).
Qed.

Lemma clean_value_line key (v : list ascii) :
  clean_value v → key = lit "Name" ∨ key = lit "Comment" →
  NL ∉ (key ++ ["="%char] ++ v) ∧ NUL ∉ (key ++ ["="%char] ++ v)
  ∧ length (key ++ ["="%char] ++ v) < 1023.
Proof.
  intros (Hnl & Hnul & Hlen & _) Hkey.
  rewrite !not_elem_of_app, !length_app.
  destruct Hkey as [-> | ->]; simpl length;
    (split; [|split; [|lia]]);
    (split; [by apply (bool_decide_unpack _)|]);
    (split; [by apply (bool_decide_unpack _)|assumption]).
Qed.

Lemma desktop_entry_loop fuel h n c rest dat :
  3 ≤ fuel → clean_value n → clean_value c →
  desktop_loop fuel h
    (lit "[Desktop Entry]"
     ++ NL :: (lit "Name" ++ ["="%char] ++ n)
     ++ NL :: (lit "Comment" ++ ["="%char] ++ c) ++ NL :: rest)
    false (ID_NULL, false, dat)
  = (pool_str2id (lit "application:" ++ n), true,
     repodata_set_str dat h SOLVABLE_SUMMARY c).
Proof.
  intros Hfuel Hn Hc.
  destruct fuel as [|[|[|fuel]]]; [lia..|].
  destruct (clean_value_line (lit "Name") n Hn (or_introl eq_refl))
    as (Hn1 & Hn2 & Hn3).
  destruct (clean_value_line (lit "Comment") c Hc (or_intror eq_refl))
    as (Hc1 & Hc2 & Hc3).
  rewrite (desktop_loop_line _ _ (lit "[Desktop Entry]"))
    by (first [by apply (bool_decide_unpack _)|simpl length; lia]).
  rewrite desktop_line_group.
  cbv beta iota zeta.
  rewrite (desktop_loop_line _ _ (lit "Name" ++ ["="%char] ++ n))
    by assumption.
  rewrite (desktop_line_clean _ (lit "Name") 3 n) by (first [done|by left]).
  cbv beta iota zeta.
  rewrite bool_decide_eq_true_2 by reflexivity.
  cbn [negb andb].
  assert (streq (lit "Name") (lit "Name") = true) as -> by reflexivity.
  cbv beta iota.
  rewrite (desktop_loop_line _ _ (lit "Comment" ++ ["="%char] ++ c))
    by assumption.
  rewrite (desktop_line_clean _ (lit "Comment") 6 c)
    by (first [done|by right]).
  cbv beta iota zeta.
  rewrite bool_decide_eq_false_2 by discriminate.
  cbn [negb andb].
  assert (streq (lit "Comment") (lit "Comment") = true) as ->
    by reflexivity.
  cbv beta iota.
  rewrite bool_decide_eq_true_2 by discriminate.
  reflexivity.
Qed.

(** X14.  A desktop file that starts with the group [Desktop Entry], a
    line [Name=] and a line [Comment=], read for a record that has
    neither name nor summary, when each of the two values is clean: it
    is not empty, holds no newline and no NUL, is at most 1000 bytes
    long, and neither starts nor ends with a blank (the loop strips
    blanks, skips a line without a value and drops a line that does not
    fit its buffer).  Then the name of the record is the value of the
    first line behind [application:], the summary is the value of the
    second, and the rest of the file is not looked at.  The file is
    [/usr/share/applications/] and the name of the desktop file, below
    the root directory when [REPO_USE_ROOTDIR] is set. *)
Theorem desktop_entry_fills_name_and_summary pd df n c rest :
  clean_value n → clean_value c → havesummary pd = false →
  fopen_r
    (if decide (Z.land (flags pd) REPO_USE_ROOTDIR ≠ 0%Z)
     then pool_prepend_rootdir_tmp (lit "/usr/share/applications/" ++ df)
     else lit "/usr/share/applications/" ++ df)
  = Some (lit "[Desktop Entry]"
          ++ NL :: (lit "Name" ++ ["="%char] ++ n)
          ++ NL :: (lit "Comment" ++ ["="%char] ++ c) ++ NL :: rest) →
  add_missing_tags_from_desktop_file pd ID_NULL df
  = (pool_str2id (lit "application:" ++ n), true,
     repodata_set_str (data pd) (handle pd) SOLVABLE_SUMMARY c).
Proof.
  intros Hn Hc Hhs Hf. unfold add_missing_tags_from_desktop_file.
  unfold pool_tmpjoin. rewrite app_nil_r. cbv zeta. rewrite Hf, Hhs.
  apply desktop_entry_loop; [|assumption..].
  rewrite length_app. simpl length. lia.
Qed.

(** ** The name, the architecture and the version of a record *)

(** The name, the architecture and the version of the record after the
    close of an application. *)
Lemma end_application_ids pd i s s2 pd2 :
  cur_solvable pd = Some (i, s) → owners_ok pd →
  desktop_tags pd (default_arch_evr s) = (s2, pd2) →
  ∃ pd' s',
    end_application pd = Some pd'
    ∧ pool pd' !! i = Some s'
    ∧ name s' = name (name_from_desktop_file pd2 s2)
    ∧ arch s' = arch (default_arch_evr s)
    ∧ evr s' = evr (default_arch_evr s).
Proof.
  intros Hcur Hos E2. unfold end_application. rewrite Hcur.
  cbn [mbind option_bind]. rewrite E2.
  apply cur_solvable_Some in Hcur as [Hsolv Hpool].
  apply desktop_tags_frame in E2
    as (Ha2 & He2 & _ & _ & Hpool2 & _ & _ & Hos2).
  destruct (name_from_desktop_file_frame pd2 s2) as (Ha3 & He3 & _ & _).
  set (s3 := name_from_desktop_file pd2 s2) in *.
  assert (i < length (pool pd)) as Hi by (by eapply lookup_lt_Some).
  assert (∃ p s4,
    owner_links pd2 (<[i:=s3]> (pool pd2)) i s3 = Some p
    ∧ p !! i = Some s4 ∧ length p = length (pool pd)
    ∧ name s4 = name s3 ∧ arch s4 = arch s3 ∧ evr s4 = evr s3)
    as (p & s4 & -> & Hp4 & Hlen4 & Hn4 & Ha4 & He4).
  { assert (<[i:=s3]> (pool pd2) !! i = Some s3) as Hs3.
    { apply list_lookup_insert_eq. by rewrite Hpool2. }
    assert (length (<[i:=s3]> (pool pd2)) = length (pool pd)) as Hl3.
    { by rewrite length_insert, Hpool2. }
    unfold owner_links. rewrite Hos2.
    unfold owners_ok in Hos.
    destruct (owners pd) as [os|]; [|by eauto 10].
    case_decide; [|by eauto 10].
    destruct (add_owners_spec os (<[i:=s3]> (pool pd2)) i s3 Hs3)
      as (p' & s' & -> & ? & ? & ? & ? & ? & ?).
    { by rewrite Hl3. }
    exists p', s'. repeat split; congruence. }
  cbn [mbind option_bind]. rewrite Hp4. cbn [mbind option_bind].
  destruct (appdata_link_frame pd2 s4) as (Hn5 & Ha5 & He5 & _).
  set (s5 := appdata_link pd2 s4) in *.
  destruct (self_provide_frame s5) as (Hn6 & Ha6 & He6 & _).
  eexists _, (self_provide s5). split; [reflexivity|].
  split.
  { pd_fields. apply list_lookup_insert_eq. lia. }
  split; [by rewrite Hn6, Hn5, Hn4|].
  split; [by rewrite Ha6, Ha5, Ha4, Ha3, Ha2|].
  by rewrite He6, He5, He4, He3, He2.
Qed.

Lemma default_arch_evr_ids s :
  arch (default_arch_evr s)
  = (if decide (arch s = ID_NULL) then ARCH_NOARCH else arch s)
  ∧ evr (default_arch_evr s)
    = (if decide (evr s = ID_NULL) then ID_EMPTY else evr s).
Proof. unfold default_arch_evr. by repeat case_decide. Qed.

(** X15.  At the close of an application a record without architecture
    gets [ARCH_NOARCH] and a record without version gets [ID_EMPTY]; an
    architecture and a version that are set stay (nothing in the parser
    sets them).  The close succeeds whenever the owners are solvables of
    the pool. *)
Theorem arch_evr_defaults pd nm i s :
  depth pd = statedepth pd → skip_depth pd = 0%Z →
  pstate pd = STATE_APPLICATION → cur_solvable pd = Some (i, s) →
  owners_ok pd →
  ∃ pd' s',
    endElement pd nm = Some pd'
    ∧ pool pd' !! i = Some s'
    ∧ arch s' = (if decide (arch s = ID_NULL) then ARCH_NOARCH else arch s)
    ∧ evr s' = (if decide (evr s = ID_NULL) then ID_EMPTY else evr s)
    ∧ pstate pd' = STATE_START ∧ solvable pd' = None
    ∧ desktop_file pd' = None.
Proof.
  intros Hd Hs Hst Hcur Hos. rewrite endElement_close by assumption.
  rewrite end_switch_APPLICATION by exact Hst.
  destruct (desktop_tags (closing pd) (default_arch_evr s)) as [s2 pd2] eqn:E2.
  unfold end_application.
  change (cur_solvable (closing pd)) with (cur_solvable pd).
  destruct (end_application_ids (closing pd) i s s2 pd2 Hcur Hos E2)
    as (pd' & s' & Hend & Hp & _ & Ha & He).
  unfold end_application in Hend.
  change (cur_solvable (closing pd)) with (cur_solvable pd) in Hend.
  rewrite Hend, bind_Some.
  destruct (default_arch_evr_ids s) as [Ha1 He1].
  eexists _, s'. split; [reflexivity|]. pd_fields.
  split; [exact Hp|]. split; [by rewrite Ha|]. split; [by rewrite He|].
  rewrite Hcur in Hend. cbn [mbind option_bind] in Hend.
  rewrite E2 in Hend.
  destruct (owner_links _ _ _ _) as [p|]; [|discriminate Hend].
  cbn [mbind option_bind] in Hend.
  destruct (p !! i); [|discriminate Hend].
  cbn [mbind option_bind] in Hend. injection Hend as <-. pd_fields.
  split; [|by split].
  assert (pstate pd2 = STATE_APPLICATION) as ->; [|by vm_compute].
  clear -E2 Hst. unfold desktop_tags in E2.
  destruct (desktop_file (closing pd)); [|by simplify_eq].
  destruct (_ && _); [|by simplify_eq].
  destruct (add_missing_tags_from_desktop_file _ _ _) as [[? ?] ?].
  by simplify_eq.
Qed.

Lemma desktop_tags_name pd s s2 pd2 :
  desktop_tags pd s = (s2, pd2) →
  (name s ≠ ID_NULL → name s2 = name s)
  ∧ (Z.land (flags pd) APPDATA_CHECK_DESKTOP_FILE = 0%Z →
     s2 = s ∧ pd2 = pd)
  ∧ desktop_file pd2 = desktop_file pd.
Proof.
  unfold desktop_tags. intros H.
  destruct (desktop_file pd) as [df|] eqn:Hdf; [|by simplify_eq].
  destruct (bool_decide (Z.land (flags pd) APPDATA_CHECK_DESKTOP_FILE ≠ 0%Z))
    eqn:Hfl.
  2:{ rewrite andb_false_r in H. by simplify_eq. }
  apply bool_decide_eq_true in Hfl.
  destruct (_ || _); cbn [andb] in H; [|by simplify_eq].
  assert (desktop_keeps (handle pd) (name s, havesummary pd, data pd)
            (add_missing_tags_from_desktop_file pd (name s) df)) as Hkeep.
  { unfold add_missing_tags_from_desktop_file.
    destruct (fopen_r _); [apply desktop_loop_keeps|apply desktop_keeps_refl]. }
  destruct (add_missing_tags_from_desktop_file pd (name s) df)
    as [[nm hs] dat].
  destruct Hkeep as (Hn & _). cbn [fst snd] in Hn.
  simplify_eq. split; [exact Hn|]. split; [done|exact Hdf].
Qed.

Lemma name_from_desktop_file_name pd s :
  name (name_from_desktop_file pd s)
  = match desktop_file pd with
    | Some df =>
      if decide (name s = ID_NULL) then
        if has_suffix (lit "application:" ++ df) ".desktop"
        then pool_str2id
               (take (length (lit "application:" ++ df) - 8)
                  (lit "application:" ++ df))
        else pool_str2id (lit "application:" ++ df)
      else name s
    | None => name s
    end.
Proof.
  unfold name_from_desktop_file, pool_tmpjoin, pool_strn2id, pool_str2id.
  destruct (desktop_file pd) as [df|]; [|done].
  rewrite app_nil_r. case_decide; [|done]. cbv zeta.
  destruct (has_suffix _ _); cbn [name set_name]; [done|].
  by rewrite firstn_all.
Qed.

(** X16.  At the close of an application whose record has no name, when
    an [id] element has given a desktop file and the desktop file itself
    is not read ([APPDATA_CHECK_DESKTOP_FILE] is not set): the name of
    the record is the identifier behind [application:], without a
    [.desktop] at its end. *)
Theorem name_from_desktop_id pd nm i s df :
  depth pd = statedepth pd → skip_depth pd = 0%Z →
  pstate pd = STATE_APPLICATION → cur_solvable pd = Some (i, s) →
  owners_ok pd → name s = ID_NULL → desktop_file pd = Some df →
  Z.land (flags pd) APPDATA_CHECK_DESKTOP_FILE = 0%Z →
  ∃ pd' s',
    endElement pd nm = Some pd'
    ∧ pool pd' !! i = Some s'
    ∧ (∀ base, df = base ++ lit ".desktop" →
               name s' = pool_str2id (lit "application:" ++ base))
    ∧ (¬ ends_in (lit "application:" ++ df) ".desktop" →
       name s' = pool_str2id (lit "application:" ++ df)).
Proof.
  intros Hd Hs Hst Hcur Hos Hnm Hdf Hfl.
  rewrite endElement_close by assumption.
  rewrite end_switch_APPLICATION by exact Hst.
  destruct (desktop_tags (closing pd) (default_arch_evr s)) as [s2 pd2] eqn:E2.
  destruct (end_application_ids (closing pd) i s s2 pd2 Hcur Hos E2)
    as (pd' & s' & -> & Hp & Hn & _ & _).
  rewrite bind_Some.
  destruct (desktop_tags_name _ _ _ _ E2) as (_ & Hsame & _).
  destruct (Hsame Hfl) as [-> ->]. clear Hsame E2.
  rewrite name_from_desktop_file_name in Hn.
  change (desktop_file (closing pd)) with (desktop_file pd) in Hn.
  destruct (default_arch_evr_deps s) as (Hn1 & _ & _).
  rewrite Hdf, Hn1, decide_True in Hn by exact Hnm.
  eexists _, s'. split; [reflexivity|]. pd_fields.
  split; [exact Hp|]. split.
  - intros base ->. rewrite Hn.
    rewrite (assoc_L (++)).
    rewrite has_suffix_app by (by destruct base).
    f_equal. rewrite length_app.
    change (length (lit ".desktop")) with 8.
    replace (length (lit "application:" ++ base) + 8 - 8)
      with (length (lit "application:" ++ base)) by lia.
    apply take_app_length.
  - intros Hne. rewrite Hn.
    destruct (has_suffix _ _) eqn:E; [|done].
    by apply has_suffix_ends_in in E.
Qed.

(** X17.  A name that the record has when its application closes (a
    [name] element was closed in it) is the name it keeps: neither the
    desktop file nor the identifier replaces it. *)
Theorem explicit_name_is_kept pd nm i s :
  depth pd = statedepth pd → skip_depth pd = 0%Z →
  pstate pd = STATE_APPLICATION → cur_solvable pd = Some (i, s) →
  owners_ok pd → name s ≠ ID_NULL →
  ∃ pd' s',
    endElement pd nm = Some pd'
    ∧ pool pd' !! i = Some s' ∧ name s' = name s.
Proof.
  intros Hd Hs Hst Hcur Hos Hnm.
  rewrite endElement_close by assumption.
  rewrite end_switch_APPLICATION by exact Hst.
  destruct (desktop_tags (closing pd) (default_arch_evr s)) as [s2 pd2] eqn:E2.
  destruct (end_application_ids (closing pd) i s s2 pd2 Hcur Hos E2)
    as (pd' & s' & -> & Hp & Hn & _ & _).
  rewrite bind_Some.
  destruct (default_arch_evr_deps s) as (Hn1 & _ & _).
  destruct (desktop_tags_name _ _ _ _ E2) as (Hkeep & _ & _).
  rewrite Hn1 in Hkeep. specialize (Hkeep Hnm).
  rewrite name_from_desktop_file_name in Hn.
  eexists _, s'. split; [reflexivity|]. pd_fields.
  split; [exact Hp|]. rewrite Hn.
  destruct (desktop_file pd2); [|exact Hkeep].
  rewrite decide_False by (by rewrite Hkeep). exact Hkeep.
Qed.

(** ** The records of the pool *)

Lemma pool_step_frame pd pd' :
  store_of pd' = store_of pd → pool_step pd pd'.
Proof. unfold store_of. intros [= ? ? ?]. by left. Qed.

Lemma add_owners_at os :
  ∀ p i p',
    add_owners p i os = Some p' → p' = p ∨ ∃ s', p' = <[i:=s']> p.
Proof.
  induction os as [|o os IH]; intros p i p'.
  - cbn [add_owners]. intros [= <-]. by left.
  - cbn [add_owners].
    destruct (p !! o) as [osolv|]; [|intros [=]].
    cbn [mbind option_bind].
    destruct (p !! i) as [s|]; [|intros [=]].
    cbn [mbind option_bind]. intros H. apply IH in H as [-> |[s' ->]].
    + right. eauto.
    + right. exists s'. by rewrite list_insert_insert_eq.
Qed.

Lemma end_application_pool pd pd' :
  end_application pd = Some pd' → pool_step pd pd'.
Proof.
  unfold end_application. intros H.
  destruct (cur_solvable pd) as [[i s]|] eqn:Hcur; [|discriminate H].
  cbn [mbind option_bind] in H.
  apply cur_solvable_Some in Hcur as [Hsolv Hpool].
  destruct (desktop_tags pd (default_arch_evr s)) as [s2 pd2] eqn:E2.
  apply desktop_tags_frame in E2 as (_ & _ & _ & _ & Hpool2 & _).
  unfold owner_links in H.
  assert (i < length (pool pd)) as Hi by (by eapply lookup_lt_Some).
  set (s3 := name_from_desktop_file pd2 s2) in *.
  assert (∀ p, (p = <[i:=s3]> (pool pd2) ∨ ∃ s', p = <[i:=s']> (<[i:=s3]> (pool pd2))) →
               (s4 ← p !! i;
                Some (set_desktop_file
                        (set_solvable
                           (set_pool pd2
                              (<[i:=self_provide (appdata_link pd2 s4)]> p))
                           None) None)) = Some pd' →
               pool_step pd pd') as Hfin.
  { intros p Hp Hpd. destruct (p !! i) as [s4|]; [|discriminate Hpd].
    cbn [mbind option_bind] in Hpd. injection Hpd as <-.
    right. left. exists i, (self_provide (appdata_link pd2 s4)).
    split; [exact Hsolv|]. split; [exact Hi|]. pd_fields.
    split; [|by right].
    destruct Hp as [-> |[s' ->]];
      by rewrite ?list_insert_insert_eq, Hpool2. }
  destruct (owners pd2) as [os|].
  - case_decide.
    + destruct (add_owners _ i os) as [p|] eqn:Ea; [|discriminate H].
      cbn [mbind option_bind] in H. apply (Hfin p); [|exact H].
      apply add_owners_at in Ea as [-> |[s' ->]]; eauto.
    + cbn [mbind option_bind] in H. apply (Hfin _ (or_introl eq_refl) H).
  - cbn [mbind option_bind] in H. apply (Hfin _ (or_introl eq_refl) H).
Qed.

Lemma update_solvable_pool pd f pd' :
  update_solvable pd f = Some pd' → pool_step pd pd'.
Proof.
  unfold update_solvable. intros H.
  destruct (cur_solvable pd) as [[i s]|] eqn:Hcur; [|discriminate H].
  cbn [mbind option_bind] in H. injection H as <-.
  apply cur_solvable_Some in Hcur as [Hsolv Hpool].
  right. left. exists i, (f s). split; [exact Hsolv|].
  split; [by eapply lookup_lt_Some|]. split; [reflexivity|by left].
Qed.

Lemma end_switch_pool pd pd' :
  end_switch pd = Some pd' → pool_step pd pd'.
Proof.
  unfold end_switch, content_str.
  destruct (pstate pd);
    try (intros [= <-]; by left);
    try (intros H; destruct (c_str (content _)); [|discriminate H];
         injection H as <-; by left).
  - apply end_application_pool.
  - intros H. destruct (c_str (content pd)) as [c|]; [|discriminate H].
    cbn [mbind option_bind] in H. by apply update_solvable_pool in H.
  - intros H. destruct (c_str (content pd)) as [c|]; [|discriminate H].
    cbn [mbind option_bind] in H. by apply update_solvable_pool in H.
  - destruct (description pd); intros [= <-]; by left.
  - intros H. by apply pool_step_frame, end_p_frame.
  - intros H. by apply pool_step_frame, end_ul_li_frame.
  - intros H. by apply pool_step_frame, end_ol_li_frame.
Qed.

Lemma start_switch_pool pd atts : pool_step pd (start_switch pd atts).
Proof.
  unfold start_switch. destruct (pstate pd); try (by left).
  right. right. by split.
Qed.

Lemma pool_step_eq pd1 pd2 pd' :
  pool pd1 = pool pd2 → solvable pd1 = solvable pd2 →
  pool_step pd1 pd' → pool_step pd2 pd'.
Proof. unfold pool_step. by intros -> ->. Qed.

Lemma pool_step_eq_r pd pd1 pd2 :
  pool pd1 = pool pd2 → solvable pd1 = solvable pd2 →
  pool_step pd pd1 → pool_step pd pd2.
Proof. unfold pool_step. by intros -> ->. Qed.

Lemma startElement_pool pd nm atts pd' :
  startElement pd nm atts = Some pd' → pool_step pd pd'.
Proof.
  unfold startElement.
  case_decide; [intros [= <-]; by left|].
  destruct (swtab _); [|intros [= <-]; by left].
  destruct (find_switch _ _ _) as [s|]; [|intros [= <-]; by left].
  cbv zeta. destruct (store _ 0 NUL) as [c|]; [|intros [=]].
  cbn [mbind option_bind].
  repeat case_decide; intros [= <-]; try (by left);
    (eapply pool_step_eq; [| |apply start_switch_pool]); reflexivity.
Qed.

Lemma endElement_pool pd nm pd' :
  endElement pd nm = Some pd' → pool_step pd pd'.
Proof.
  unfold endElement.
  case_decide; [intros [= <-]; by left|].
  cbv zeta. case_decide; [intros [= <-]; case_decide; by left|].
  destruct (end_switch _) as [pd1|] eqn:Hend; [|intros [=]].
  intros [= <-]. apply end_switch_pool in Hend.
  eapply pool_step_eq_r; [| |eapply pool_step_eq; [| |exact Hend]];
    reflexivity.
Qed.

Lemma handler_step pd e pd' :
  handle_event pd e = Some pd' →
  (pool pd' = pool pd ∧ solvable pd' = solvable pd)
  ∨ (∃ i s', solvable pd = Some i ∧ i < length (pool pd)
             ∧ pool pd' = <[i:=s']> (pool pd)
             ∧ (solvable pd' = Some i ∨ solvable pd' = None))
  ∨ (pool pd' = pool pd ++ [new_solvable]
     ∧ solvable pd' = Some (length (pool pd))).
Proof.
  destruct e as [nm atts|nm|t]; cbn [handle_event].
  - apply startElement_pool.
  - apply endElement_pool.
  - intros H. apply (pool_step_frame pd pd').
    by apply (characterData_frame pd t).
Qed.

(** X18.  A call of a handler that returns leaves the pool as it is, or
    writes the one solvable that [pd->solvable] points to, or adds one
    solvable at the end of the pool and points to it.  No other solvable
    is written and none is removed. *)
Theorem handler_touches_only_its_record pd e pd' :
  handle_event pd e = Some pd' →
  (pool pd' = pool pd ∧ solvable pd' = solvable pd)
  ∨ (∃ i s', solvable pd = Some i ∧ i < length (pool pd)
             ∧ pool pd' = <[i:=s']> (pool pd)
             ∧ (solvable pd' = Some i ∨ solvable pd' = None))
  ∨ (pool pd' = pool pd ++ [new_solvable]
     ∧ solvable pd' = Some (length (pool pd))).
Proof. apply handler_step. Qed.

Lemma run_pool p0 evs :
  ∀ pd pd',
    (∃ new, pool pd = p0 ++ new) →
    (∀ i, solvable pd = Some i → length p0 ≤ i ∧ S i = length (pool pd)) →
    run evs pd = Some pd' →
    (∃ new, pool pd' = p0 ++ new)
    ∧ (∀ i, solvable pd' = Some i → length p0 ≤ i ∧ S i = length (pool pd')).
Proof.
  induction evs as [|e evs IH]; intros pd pd' Hpre Hsolv.
  - rewrite run_nil. by intros [= <-].
  - rewrite run_cons.
    destruct (handle_event pd e) as [pd1|] eqn:He; [|intros [=]].
    rewrite bind_Some. apply IH; clear IH.
    + destruct Hpre as [new Hnew].
      destruct (handler_step pd e pd1 He)
        as [[-> _]|[(i & s' & Hi & Hlt & -> & _)|[-> _]]].
      * by exists new.
      * destruct (Hsolv i Hi) as [Hge _]. rewrite Hnew.
        exists (<[i - length p0:=s']> new).
        by rewrite insert_app_r_alt.
      * exists (new ++ [new_solvable]). by rewrite Hnew, (assoc_L (++)).
    + destruct (handler_step pd e pd1 He)
        as [[Hp Hs]|[(i & s' & Hi & Hlt & Hp & Hs)|[Hp Hs]]];
        intros j Hj.
      * rewrite Hs in Hj. rewrite Hp. by apply Hsolv.
      * destruct Hs as [Hs|Hs]; rewrite Hs in Hj; [|discriminate Hj].
        injection Hj as <-. rewrite Hp, length_insert. by apply Hsolv.
      * rewrite Hs in Hj. injection Hj as <-. rewrite Hp, length_app.
        destruct Hpre as [new ->]. rewrite length_app. cbn [length]. lia.
Qed.

(** X19.  Whatever calls the tokenizer makes, the solvables that the
    pool holds when [repo_add_appdata_fn] starts are never written:
    the pool of every parser state that is reached starts with them.
    The record that the parser points to, if any, is one it has added
    itself, and it is the last solvable of the pool. *)
Theorem existing_records_untouched p dat fl fn os evs pd :
  run evs (init_parsedata p dat fl fn os) = Some pd →
  (∃ new, pool pd = p ++ new)
  ∧ (∀ i, solvable pd = Some i → length p ≤ i ∧ S i = length (pool pd)).
Proof.
  apply run_pool.
  - exists []. unfold init_parsedata. pd_fields. by rewrite app_nil_r.
  - intros i. unfold init_parsedata. pd_fields. intros [=].
Qed.

(** ** The owners of a metadata file *)

Lemma owners_loop_spec flq id :
  ∀ oq, owners_loop flq id oq = oq ++ (filter (λ e, e.2 = id) flq).*1.
Proof.
  induction flq as [|[p id'] flq IH]; intros oq; cbn [owners_loop].
  - by rewrite app_nil_r.
  - rewrite IH, filter_cons. cbn [snd].
    case_decide; [|done].
    rewrite fmap_cons. cbn [fst]. by rewrite <- (assoc_L (++)).
Qed.

Lemma search_filelist_spec p strs :
  ∀ res,
    search_filelist p strs res
    = res ++ omap (λ s, (λ id, (p, id)) <$> filelist_entry s) strs.
Proof.
  induction strs as [|s strs IH]; intros res; cbn [search_filelist omap list_omap].
  - by rewrite app_nil_r.
  - destruct (filelist_entry s) as [id|]; cbn [fmap option_fmap option_map].
    + rewrite IH. by rewrite <- (assoc_L (++)).
    + apply IH.
Qed.

Lemma filelist_entry_id s id : filelist_entry s = Some id → id = pool_str2id s.
Proof.
  unfold filelist_entry. repeat (destruct (_ && _)); by intros [= <-].
Qed.

(** The owners among the strings of one file list. *)
Lemma owners_of_filelist p strs d_name :
  (filter (λ e : nat * Id, e.2 = pool_str2id d_name)
     (omap (λ s, (λ id, (p, id)) <$> filelist_entry s) strs)).*1
  = if decide (is_Some (filelist_entry d_name))
    then listed_in d_name (p, strs)
    else [].
Proof.
  unfold listed_in. cbn [fst snd].
  induction strs as [|s strs IH]; [by case_decide|].
  cbn [omap list_omap]. rewrite filter_cons.
  destruct (filelist_entry s) as [id|] eqn:Es;
    cbn [fmap option_fmap option_map].
  - apply filelist_entry_id in Es as Hid. subst id.
    rewrite filter_cons. cbn [snd].
    destruct (decide (s = d_name)) as [->|Hne].
    + rewrite decide_True by done. rewrite fmap_cons, IH. cbn [fst].
      rewrite !decide_True by (rewrite Es; by eexists).
      by rewrite fmap_cons.
    + rewrite decide_False by (intros [= ?]; done). exact IH.
  - destruct (decide (s = d_name)) as [->|Hne]; [|exact IH].
    rewrite IH. case_decide as Hs; [|done].
    rewrite Es in Hs. by destruct Hs.
Qed.

Lemma owners_of_filelists fls d_name :
  ∀ res,
    (filter (λ e : nat * Id, e.2 = pool_str2id d_name)
       (search_uninternalized_filelist fls res)).*1
    = (filter (λ e : nat * Id, e.2 = pool_str2id d_name) res).*1
      ++ if decide (is_Some (filelist_entry d_name))
         then listed d_name fls else [].
Proof.
  unfold search_uninternalized_filelist, listed.
  induction fls as [|rd fls IH]; intros res; cbn [foldl].
  - by case_decide; rewrite app_nil_r.
  - rewrite IH. clear IH. rewrite fmap_cons, concat_cons.
    assert (∀ res,
              (filter (λ e : nat * Id, e.2 = pool_str2id d_name)
                 (foldl (λ res e, search_filelist e.1 e.2 res) res rd)).*1
              = (filter (λ e : nat * Id, e.2 = pool_str2id d_name) res).*1
                ++ if decide (is_Some (filelist_entry d_name))
                   then concat (listed_in d_name <$> rd)
                   else []) as ->.
    { clear. induction rd as [|e rd IH]; intros res; cbn [foldl].
      - by case_decide; rewrite app_nil_r.
      - rewrite IH, search_filelist_spec, list.filter_app, fmap_app.
        rewrite owners_of_filelist, fmap_cons, concat_cons.
        destruct e as [p strs]. cbn [fst snd].
        case_decide; by rewrite <- ?(assoc_L (++)), ?app_nil_r. }
    case_decide; by rewrite <- ?(assoc_L (++)), ?app_nil_r.
Qed.

Lemma ends_in_exclusive s :
  ends_in s ".appdata.xml" → ends_in s ".metainfo.xml" → False.
Proof.
  intros [Ha1 Ha2] [Hm1 Hm2].
  change (length (lit ".appdata.xml")) with 12 in *.
  change (length (lit ".metainfo.xml")) with 13 in *.
  assert (drop (length s - 12) s = drop 1 (drop (length s - 13) s)) as E.
  { rewrite drop_drop. f_equal. lia. }
  rewrite Ha2, Hm2 in E. discriminate E.
Qed.

Lemma has_suffix_true id suffix :
  has_suffix id suffix = true
  ↔ length (lit suffix) < length id ∧ ends_in id suffix.
Proof.
  unfold has_suffix, streq, ends_in.
  rewrite andb_true_iff, !bool_decide_eq_true. naive_solver lia.
Qed.

(** Which names of directory entries that [repo_add_appdata_dir] reads
    the test of [search_uninternalized_filelist] takes. *)
Lemma dir_entry_selected d_name :
  appdata_dir_entry d_name = true →
  is_Some (filelist_entry d_name) ↔ length d_name ≠ 13.
Proof.
  unfold appdata_dir_entry. rewrite orb_true_iff, !has_suffix_true.
  change (length (lit ".appdata.xml")) with 12.
  change (length (lit ".metainfo.xml")) with 13.
  rewrite filelist_entry_selected.
  intros [[Hlen Ha]|[Hlen Hm]].
  - split.
    + intros [[_ Hna]|[? _]]; [done|lia].
    + intros Hne. right. split; [lia|].
      intros Hm. by apply (ends_in_exclusive d_name).
  - split; [lia|]. intros _. left. split; [lia|].
    intros Ha. by apply (ends_in_exclusive d_name).
Qed.

Lemma listed_in_nonempty d_name (rd : list (nat * list (list ascii))) :
  concat (listed_in d_name <$> rd) ≠ [] → ∃ e, e ∈ rd ∧ d_name ∈ e.2.
Proof.
  induction rd as [|e rd IH]; [done|].
  rewrite fmap_cons, concat_cons. intros E.
  destruct (listed_in d_name e) as [|y k] eqn:El.
  - destruct (IH E) as (e' & ? & ?). exists e'. split; [by right|done].
  - exists e. split; [by left|].
    unfold listed_in in El.
    destruct (filter (λ s, s = d_name) e.2) as [|z zs] eqn:Ef; [done|].
    assert (z ∈ filter (λ s, s = d_name) e.2) as Hz
      by (rewrite Ef; by left).
    apply list_elem_of_filter in Hz as [-> Hz]. exact Hz.
Qed.

Lemma listed_nonempty d_name fls :
  listed d_name fls ≠ [] →
  ∃ rd e, rd ∈ fls ∧ e ∈ rd ∧ d_name ∈ e.2.
Proof.
  unfold listed. induction fls as [|rd fls IH]; [done|].
  rewrite fmap_cons, concat_cons. intros Hne.
  destruct (concat (listed_in d_name <$> rd)) as [|x l] eqn:E.
  - destruct (IH Hne) as (rd' & e & ? & ? & ?).
    exists rd', e. split; [by right|done].
  - destruct (listed_in_nonempty d_name rd) as (e & ? & ?);
      [by rewrite E|].
    exists rd, e. split; [by left|done].
Qed.

(** X20.  The owners that [repo_add_appdata_dir] finds for a directory
    entry that it reads, from the pairs that
    [search_uninternalized_filelist] has collected (every string that the
    search takes is interned by it): for a name that is not 13 bytes
    long they are the solvables whose file lists hold the name, in the
    order of the file lists; without such a solvable the null pointer is
    handed on.  For a name of 13 bytes, which ends in [.appdata.xml]
    behind one byte, no owner is ever found. *)
Theorem dir_owners_found interned fls d_name :
  (∀ rd e s, rd ∈ fls → e ∈ rd → s ∈ e.2 →
             is_Some (filelist_entry s) → interned s = true) →
  dir_entry_read d_name = true →
  dir_owners interned (search_uninternalized_filelist fls []) d_name
  = if decide (length d_name = 13) then None
    else match listed d_name fls with
         | [] => None
         | l => Some l
         end.
Proof.
  intros Hknown Hentry.
  apply andb_true_iff in Hentry as [_ Hentry].
  pose proof (dir_entry_selected d_name Hentry) as Hsel.
  unfold dir_owners, pool_str2id_nocreate.
  destruct (interned d_name) eqn:Ei; cbv zeta.
  - rewrite decide_True by discriminate.
    rewrite owners_loop_spec, app_nil_l.
    rewrite (owners_of_filelists fls d_name []).
    rewrite filter_nil, fmap_nil, app_nil_l.
    destruct (decide (length d_name = 13)) as [H13|H13].
    + rewrite decide_False; [done|]. rewrite Hsel. lia.
    + rewrite decide_True by (rewrite Hsel; lia).
      by destruct (listed d_name fls).
  - rewrite decide_False by (intros H; by apply H).
    case_decide as H13; [done|].
    destruct (listed d_name fls) as [|x l] eqn:El; [done|].
    destruct (listed_nonempty d_name fls) as (rd & e & Hrd & He & Hs).
    { by rewrite El. }
    rewrite (Hknown rd e d_name Hrd He Hs) in Ei; [done|]. rewrite Hsel. lia.
Qed.

(** ** Attributes, character data and package names *)

(** X21.  [find_attr] hands out the value of the first attribute of the
    name; it hands out the null pointer exactly when no attribute has the
    name. *)
Theorem find_attr_first txt atts :
  (find_attr txt atts = None ↔ txt ∉ atts.*1)
  ∧ (∀ pre v post,
       atts = pre ++ (txt, v) :: post → txt ∉ pre.*1 →
       find_attr txt atts = Some v).
Proof.
  split.
  - induction atts as [|[k v] atts IH]; cbn [find_attr].
    + split; [intros _; apply not_elem_of_nil|done].
    + unfold streq. rewrite fmap_cons, not_elem_of_cons. cbn [fst].
      case_bool_decide as Hk; [|naive_solver].
      split; [done|]. intros [Hne _]. by subst.
  - intros pre v post -> Hpre.
    induction pre as [|[k w] pre IH]; cbn [find_attr app].
    + unfold streq. by rewrite bool_decide_eq_true_2.
    + rewrite fmap_cons, not_elem_of_cons in Hpre. cbn [fst] in Hpre.
      destruct Hpre as [Hne Hpre]. unfold streq.
      rewrite bool_decide_eq_false_2 by (intros ->; done). by apply IH.
Qed.

(** X22.  Character data that the tokenizer hands over in pieces is
    captured as if it came in one piece: in a capturing element the
    buffer holds the text that was there and the pieces one after the
    other, with its terminator, [lcontent] is the length of that text and
    the buffer has not become shorter; outside of a capturing element
    nothing changes. *)
Theorem text_pieces_accumulate pd s ts :
  c_str (content pd) = Some s → lcontent pd = length s →
  acontent pd = length (content pd) → Forall (λ t, NUL ∉ t) ts →
  (docontent pd = true →
   ∃ b,
     run (Text <$> ts) pd
     = Some (set_buf pd b (length (s ++ concat ts)) (length b))
     ∧ c_str b = Some (s ++ concat ts)
     ∧ length (content pd) ≤ length b)
  ∧ (docontent pd = false → run (Text <$> ts) pd = Some pd).
Proof.
  intros Hc Hl Ha Hts. split.
  - intros Hdo. by apply run_texts.
  - apply run_texts_dropped.
Qed.

Lemma lookup_switch_APPLICATION_pkgname :
  lookup_switch STATE_APPLICATION (lit "pkgname")
  = Some (sw STATE_APPLICATION "pkgname" STATE_PKGNAME true).
Proof. vm_compute. reflexivity. Qed.

Lemma sbtab_PKGNAME : sbtab STATE_PKGNAME = STATE_APPLICATION.
Proof. vm_compute. reflexivity. Qed.

Lemma end_switch_PKGNAME pd :
  pstate pd = STATE_PKGNAME →
  end_switch pd
  = c ← content_str pd;
    update_solvable pd (λ s,
      let s := set_requires s
                 (repo_addid_dep (requires s) (pool_str2id c)) in
      set_provides s
        (repo_addid_dep (provides s)
           (pool_str2id
              (pool_tmpjoin (lit "application-appdata(") c (lit ")"))))).
Proof. intros H. unfold end_switch. by rewrite H. Qed.

(** X23.  A [pkgname] element of an application, without [xml:lang]:
    the record requires the package of that name and provides
    [application-appdata(name)], the name being the text of the element
    as it stands. *)
Theorem pkgname_element pd ts i s :
  ready pd STATE_APPLICATION → cur_solvable pd = Some (i, s) →
  Forall (λ t, NUL ∉ t) ts →
  ∃ pd' s',
    run (pkgname_events ts) pd = Some pd'
    ∧ ready pd' STATE_APPLICATION
    ∧ cur_solvable pd' = Some (i, s')
    ∧ name s' = name s
    ∧ requires s' = repo_addid_dep (requires s) (pool_str2id (concat ts))
    ∧ provides s'
      = repo_addid_dep (provides s)
          (pool_str2id
             (lit "application-appdata(" ++ concat ts ++ lit ")"))
    ∧ data pd' = data pd.
Proof.
  intros Hready Hcur Hts.
  unfold pkgname_events. rewrite (app_comm_cons _ _ (Start _ _)), run_app.
  destruct (capture_element pd STATE_APPLICATION (lit "pkgname") [] ts
              (sw STATE_APPLICATION "pkgname" STATE_PKGNAME true))
    as (b & -> & Hb & Hlen);
    [assumption|apply lookup_switch_APPLICATION_pkgname|reflexivity
    |discriminate|discriminate|discriminate|discriminate
    |reflexivity|assumption|].
  destruct Hready as (Hst & Hd & Hs & Ha & H0).
  rewrite bind_Some, run_cons. unfold handle_event.
  set (row := sw STATE_APPLICATION "pkgname" STATE_PKGNAME true).
  set (pd2 := set_buf (opening pd row (<[0:=NUL]> (content pd))) b
                (length (concat ts)) (length b)).
  rewrite (endElement_close pd2) by (first [reflexivity|assumption]).
  rewrite end_switch_PKGNAME by reflexivity.
  unfold content_str.
  change (content (closing pd2)) with b. rewrite Hb, bind_Some.
  set (f := λ s : Solvable, set_provides _ _).
  destruct (update_solvable_spec (closing pd2) f i s) as [-> Hcur'].
  { rewrite <- Hcur. by apply cur_solvable_frame. }
  rewrite !bind_Some, run_nil.
  eexists _, (f s). split; [reflexivity|].
  split.
  { split; [apply sbtab_PKGNAME|].
    split; [exact (f_equal (λ z, z + 1 - 1)%Z eq_refl)|].
    split; [reflexivity|]. split; [reflexivity|].
    change (0 < length b). lia. }
  split.
  { match goal with
    | |- cur_solvable ?Q = _ =>
      match type of Hcur' with
      | cur_solvable ?P = _ =>
        rewrite (cur_solvable_frame P Q eq_refl eq_refl)
      end
    end. exact Hcur'. }
  by repeat split.
Qed.

(** ** Well-formed documents *)

Lemma wsstrip_machine pd pd' :
  wsstrip pd = Some pd' → machine pd' = machine pd.
Proof.
  unfold wsstrip. intros H.
  destruct (wsstrip_loop _ _ _ _ _) as [[c j]|]; [|discriminate H].
  cbn [mbind option_bind] in H.
  destruct (store c j NUL); [|discriminate H].
  by injection H as <-.
Qed.

Lemma indent_machine pd il pd' :
  indent pd il = Some pd' → machine pd' = machine pd.
Proof.
  unfold indent. intros H.
  destruct (indent_loop _ _ _ _ _ _) as [[[c l] a]|]; [|discriminate H].
  by injection H as <-.
Qed.

Lemma store_content_machine pd i c pd' :
  store_content pd i c = Some pd' → machine pd' = machine pd.
Proof.
  unfold store_content. intros H.
  destruct (store _ _ _); [|discriminate H].
  by injection H as <-.
Qed.

Lemma characterData_machine pd t pd' :
  characterData pd t = Some pd' → machine pd' = machine pd.
Proof.
  unfold characterData. intros H.
  destruct (negb (docontent pd)); [by injection H as <-|].
  destruct (if decide _ then _ else _) as [c a].
  destruct (copy_bytes _ _ _); [|discriminate H].
  cbn [mbind option_bind] in H.
  destruct (store _ _ _); [|discriminate H].
  by injection H as <-.
Qed.

Lemma run_texts_machine ts :
  ∀ pd pd', run (Text <$> ts) pd = Some pd' → machine pd' = machine pd.
Proof.
  induction ts as [|t ts IH]; intros pd pd'.
  - rewrite run_nil. by intros [= <-].
  - rewrite fmap_cons, run_cons. cbn [handle_event].
    destruct (characterData pd t) as [pd1|] eqn:E; [|intros [=]].
    rewrite bind_Some. intros H. apply IH in H as ->.
    by apply characterData_machine in E.
Qed.

Lemma run_texts_store ts :
  ∀ pd pd', run (Text <$> ts) pd = Some pd' → store_of pd' = store_of pd.
Proof.
  induction ts as [|t ts IH]; intros pd pd'.
  - rewrite run_nil. by intros [= <-].
  - rewrite fmap_cons, run_cons. cbn [handle_event].
    destruct (characterData pd t) as [pd1|] eqn:E; [|intros [=]].
    rewrite bind_Some. intros H. apply IH in H as ->.
    by apply characterData_frame in E.
Qed.

Lemma end_p_machine pd pd' : end_p pd = Some pd' → machine pd' = machine pd.
Proof.
  unfold end_p, content_str. intros H.
  destruct (wsstrip pd) as [pd1|] eqn:E1; [|discriminate H].
  cbn [mbind option_bind] in H.
  destruct (c_str (content pd1)); [|discriminate H].
  injection H as <-. by apply wsstrip_machine in E1.
Qed.

Lemma end_ul_li_machine pd pd' :
  end_ul_li pd = Some pd' → machine pd' = machine pd.
Proof.
  unfold end_ul_li, content_str. intros H.
  destruct (wsstrip pd) as [pd1|] eqn:E1; [|discriminate H].
  cbn [mbind option_bind] in H.
  destruct (indent pd1 4) as [pd2|] eqn:E2; [|discriminate H].
  cbn [mbind option_bind] in H.
  destruct (store_content pd2 2 _) as [pd3|] eqn:E3; [|discriminate H].
  cbn [mbind option_bind] in H.
  destruct (c_str (content pd3)); [|discriminate H].
  injection H as <-.
  apply wsstrip_machine in E1. apply indent_machine in E2.
  apply store_content_machine in E3.
  etrans; [exact E3|]. etrans; [exact E2|exact E1].
Qed.

Lemma end_ol_li_machine pd pd' :
  end_ol_li pd = Some pd' → machine pd' = machine pd.
Proof.
  unfold end_ol_li, content_str. intros H.
  destruct (wsstrip pd) as [pd1|] eqn:E1; [|discriminate H].
  cbn [mbind option_bind] in H.
  destruct (indent pd1 4) as [pd2|] eqn:E2; [|discriminate H].
  cbn [mbind option_bind] in H. cbv zeta in H.
  destruct (if decide _ then _ else _) as [pd3|] eqn:E3; [|discriminate H].
  cbn [mbind option_bind] in H.
  destruct (store_content pd3 1 _) as [pd4|] eqn:E4; [|discriminate H].
  cbn [mbind option_bind] in H.
  destruct (store_content pd4 2 _) as [pd5|] eqn:E5; [|discriminate H].
  cbn [mbind option_bind] in H.
  destruct (c_str (content pd5)); [|discriminate H].
  injection H as <-.
  apply wsstrip_machine in E1. apply indent_machine in E2.
  apply store_content_machine in E4, E5.
  assert (machine pd3 = machine pd2) as E3'.
  { case_decide; [by apply store_content_machine in E3|].
    by injection E3 as <-. }
  etrans; [exact E5|]. etrans; [exact E4|]. etrans; [exact E3'|].
  etrans; [exact E2|exact E1].
Qed.

Lemma desktop_tags_machine pd s s' pd' :
  desktop_tags pd s = (s', pd') → machine pd' = machine pd.
Proof.
  unfold desktop_tags. intros H.
  destruct (desktop_file pd) as [df|]; [|by simplify_eq].
  destruct (_ && _); [|by simplify_eq].
  destruct (add_missing_tags_from_desktop_file pd (name s) df) as [[nm hs] dat].
  by simplify_eq.
Qed.

(** The close of an application leaves the nesting as it is and no
    record behind. *)
Lemma end_application_machine pd pd' :
  end_application pd = Some pd' →
  machine pd' = machine pd ∧ solvable pd' = None.
Proof.
  unfold end_application. intros H.
  destruct (cur_solvable pd) as [[i s]|]; [|discriminate H].
  cbn [mbind option_bind] in H.
  destruct (desktop_tags pd (default_arch_evr s)) as [s2 pd2] eqn:E2.
  apply desktop_tags_machine in E2.
  destruct (owner_links _ _ _ _) as [p|]; [|discriminate H].
  cbn [mbind option_bind] in H.
  destruct (p !! i) as [s4|]; [|discriminate H].
  cbn [mbind option_bind] in H. injection H as <-.
  split; [exact E2|reflexivity].
Qed.

Lemma update_solvable_machine pd f pd' :
  update_solvable pd f = Some pd' → machine pd' = machine pd.
Proof.
  unfold update_solvable. intros H.
  destruct (cur_solvable pd) as [[i s]|]; [|discriminate H].
  cbn [mbind option_bind] in H. by injection H as <-.
Qed.

Lemma end_switch_machine pd pd' :
  end_switch pd = Some pd' → machine pd' = machine pd.
Proof.
  unfold end_switch, content_str.
  destruct (pstate pd) eqn:Hst;
    try (intros [= <-]; unfold machine; pd_fields; by rewrite Hst);
    try (intros H; destruct (c_str (content _)); [|discriminate H];
         injection H as <-; unfold machine; pd_fields; by rewrite Hst).
  - intros H. apply end_application_machine in H as [-> _].
    unfold machine. by rewrite Hst.
  - intros H. destruct (c_str (content pd)) as [c|]; [|discriminate H].
    cbn [mbind option_bind] in H. apply update_solvable_machine in H as ->.
    unfold machine. by rewrite Hst.
  - intros H. destruct (c_str (content pd)) as [c|]; [|discriminate H].
    cbn [mbind option_bind] in H. apply update_solvable_machine in H as ->.
    unfold machine. by rewrite Hst.
  - destruct (description pd); intros [= <-]; unfold machine; pd_fields;
      by rewrite Hst.
  - intros H. apply end_p_machine in H as ->. unfold machine. by rewrite Hst.
  - intros H. apply end_ul_li_machine in H as ->. unfold machine.
    by rewrite Hst.
  - intros H. apply end_ol_li_machine in H as ->. unfold machine.
    by rewrite Hst.
Qed.

Lemma start_switch_machine pd atts :
  machine (start_switch pd atts) = machine pd.
Proof. unfold start_switch. by destruct (pstate pd). Qed.

Lemma startElement_no_buffer pd nm atts row :
  depth pd = statedepth pd → lookup_switch (pstate pd) nm = Some row →
  store (content pd) 0 NUL = None → startElement pd nm atts = None.
Proof.
  intros Hd Hlook Hb. unfold startElement.
  rewrite decide_False by (intros Hne; exact (Hne Hd)).
  cbn [pstate set_depth].
  unfold lookup_switch in Hlook.
  destruct (swtab (pstate pd)) as [i|]; [|discriminate Hlook].
  cbn [mbind option_bind] in Hlook. rewrite Hlook. clear Hlook.
  cbn [content set_depth set_state set_docontent set_statedepth].
  rewrite Hb. reflexivity.
Qed.

(** The run of an element that the state table knows, outside of a
    skipped subtree and without [xml:lang], in its three parts. *)
Lemma run_known_element pd nm atts children row pd' :
  depth pd = statedepth pd → skip_depth pd = 0%Z →
  lookup_switch (pstate pd) nm = Some row →
  find_attr (lit "xml:lang") atts = None →
  run (events_of (Elem nm atts children)) pd = Some pd' →
  ∃ b pd2,
    store (content pd) 0 NUL = Some b
    ∧ run (concat (List.map events_of children))
        (start_switch (opening pd row b) atts) = Some pd2
    ∧ endElement pd2 nm = Some pd'.
Proof.
  intros Hd Hs Hlook Hlang Hrun.
  cbn [events_of] in Hrun. rewrite run_cons in Hrun.
  cbn [handle_event] in Hrun.
  destruct (store (content pd) 0 NUL) as [b|] eqn:Hb.
  2:{ rewrite (startElement_no_buffer pd nm atts row) in Hrun
        by assumption.
      discriminate Hrun. }
  rewrite (startElement_known pd nm atts row b) in Hrun by assumption.
  clear Hlook. rewrite bind_Some, run_app in Hrun.
  destruct (run (concat (List.map events_of children)) _) as [pd2|] eqn:Hch;
    [|discriminate Hrun].
  rewrite bind_Some, run_cons in Hrun. cbn [handle_event] in Hrun.
  destruct (endElement pd2 nm) as [pd3|] eqn:Hend; [|discriminate Hrun].
  rewrite bind_Some, run_nil in Hrun. injection Hrun as <-.
  exists b, pd2. split; [reflexivity|]. split; [exact Hch|exact Hend].
Qed.

Lemma run_children_machine children :
  Forall (λ n, ∀ pd pd',
            (0 ≤ depth pd)%Z → (statedepth pd ≤ depth pd)%Z →
            skip_depth pd = 0%Z →
            run (events_of n) pd = Some pd' → machine pd' = machine pd)
    children →
  ∀ pd pd',
    (0 ≤ depth pd)%Z → (statedepth pd ≤ depth pd)%Z →
    skip_depth pd = 0%Z →
    run (concat (List.map events_of children)) pd = Some pd' →
    machine pd' = machine pd.
Proof.
  induction 1 as [|c children Hc _ IH]; intros pd pd' H0 Hsd Hs.
  - rewrite run_nil. by intros [= <-].
  - cbn [List.map concat]. rewrite run_app.
    destruct (run (events_of c) pd) as [pd1|] eqn:E; [|intros [=]].
    rewrite bind_Some. intros H.
    apply Hc in E; [|assumption..].
    assert (machine pd' = machine pd1) as ->; [|exact E].
    unfold machine in E. injection E as E1 E2 E3 E4.
    apply IH; [lia|lia|congruence|exact H].
Qed.

Lemma closing_known_element pd row b atts pd2 nm pd' :
  depth pd = statedepth pd → skip_depth pd = 0%Z →
  sbtab (to row) = pstate pd →
  machine pd2 = machine (start_switch (opening pd row b) atts) →
  endElement pd2 nm = Some pd' →
  machine pd' = machine pd
  ∧ ∃ pd3, end_switch (closing pd2) = Some pd3
           ∧ pstate (closing pd2) = to row
           ∧ solvable pd' = solvable pd3.
Proof.
  intros Hd Hs Hsb Hm2 Hend.
  rewrite start_switch_machine in Hm2. unfold machine, opening in Hm2.
  pd_fields. cbn [depth pstate statedepth skip_depth set_depth set_state
    set_statedepth set_buf set_docontent] in Hm2.
  injection Hm2 as Hd2 Hsd2 Hst2 Hs2.
  rewrite endElement_close in Hend by congruence.
  destruct (end_switch (closing pd2)) as [pd3|] eqn:Hsw; [|discriminate Hend].
  rewrite bind_Some in Hend. injection Hend as <-.
  pose proof (end_switch_machine _ _ Hsw) as Hm3.
  unfold machine, closing in Hm3.
  cbn [depth pstate statedepth skip_depth set_depth set_statedepth
    set_skip_depth] in Hm3.
  injection Hm3 as Hd3 Hsd3 Hst3 Hs3.
  split.
  - unfold machine.
    cbn [depth pstate statedepth skip_depth set_state set_docontent].
    rewrite Hd3, Hsd3, Hst3, Hs3, Hd2, Hsd2, Hst2, Hsb, Hs, <- Hd.
    repeat f_equal; lia.
  - exists pd3. split; [reflexivity|]. split; [exact Hst2|reflexivity].
Qed.

Lemma store_Some_length (b : list ascii) i c b' :
  store b i c = Some b' → i < length b.
Proof. unfold store. case_decide; [done|intros [=]]. Qed.

Lemma run_balanced n :
  ∀ pd pd',
    (0 ≤ depth pd)%Z → (statedepth pd ≤ depth pd)%Z →
    skip_depth pd = 0%Z →
    run (events_of n) pd = Some pd' → machine pd' = machine pd.
Proof.
  induction n as [s|nm atts children IH] using node_ind';
    intros pd pd' H0 Hsd Hs Hrun.
  - by apply (run_texts_machine [s]).
  - destruct (decide (depth pd = statedepth pd)) as [Hd|Hd].
    2:{ rewrite run_inside in Hrun by lia.
        by apply run_texts_machine in Hrun. }
    destruct (lookup_switch (pstate pd) nm) as [row|] eqn:Hlook.
    2:{ rewrite run_unknown_element in Hrun
          by (right; split; [exact Hd|exact Hlook]).
        by apply run_texts_machine in Hrun. }
    destruct (find_attr (lit "xml:lang") atts) as [v|] eqn:Hlang.
    + destruct (store (content pd) 0 NUL) as [b|] eqn:Hb.
      2:{ cbn [events_of] in Hrun. rewrite run_cons in Hrun.
          cbn [handle_event] in Hrun.
          rewrite (startElement_no_buffer pd nm atts row) in Hrun
            by assumption.
          discriminate Hrun. }
      apply store_Some_length in Hb.
      rewrite (run_lang_element pd nm atts children row) in Hrun;
        [|try assumption..].
      * by injection Hrun as <-.
      * rewrite Hlang. by eexists.
    + destruct (run_known_element _ _ _ _ _ _ Hd Hs Hlook Hlang Hrun)
        as (b & pd2 & Hb & Hch & Hend).
      destruct (lookup_switch_row _ _ _ Hlook) as (_ & _ & _ & Hsb).
      clear Hlook Hrun.
      apply run_children_machine in Hch; [|exact IH|..].
      * by destruct (closing_known_element _ _ _ _ _ _ _ Hd Hs Hsb Hch Hend).
      * change (depth (start_switch (opening pd row b) atts))
          with (machine (start_switch (opening pd row b) atts)).1.1.1.
        rewrite start_switch_machine. unfold machine, opening.
        cbn [fst depth set_buf set_statedepth set_docontent set_state
          set_depth]. lia.
      * change (statedepth (start_switch (opening pd row b) atts))
          with (machine (start_switch (opening pd row b) atts)).1.1.2.
        change (depth (start_switch (opening pd row b) atts))
          with (machine (start_switch (opening pd row b) atts)).1.1.1.
        rewrite start_switch_machine. unfold machine, opening.
        cbn [fst snd depth statedepth set_buf set_statedepth set_docontent
          set_state set_depth]. lia.
      * change (skip_depth (start_switch (opening pd row b) atts))
          with (machine (start_switch (opening pd row b) atts)).2.
        rewrite start_switch_machine. unfold machine, opening.
        cbn [snd skip_depth set_buf set_statedepth set_docontent
          set_state set_depth]. exact Hs.
Qed.

(** X24.  The handlers keep step with the nesting of a well-formed
    document: the calls for a node, whatever its element names, its
    attributes and its text, leave the parser at the depth, at the depth
    of the state, in the state and with the skip it had before them,
    whenever they all return.  This holds outside and inside of a
    skipped subtree. *)
Theorem element_is_balanced n pd pd' :
  (0 ≤ depth pd)%Z → (statedepth pd ≤ depth pd)%Z →
  skip_depth pd = 0%Z ∨ skipping pd →
  run (events_of n) pd = Some pd' →
  depth pd' = depth pd ∧ statedepth pd' = statedepth pd
  ∧ pstate pd' = pstate pd ∧ skip_depth pd' = skip_depth pd.
Proof.
  intros H0 Hsd [Hs|Hsk] Hrun.
  - apply run_balanced in Hrun; [|assumption..].
    unfold machine in Hrun. by injection Hrun as -> -> -> ->.
  - destruct (run_skipping n pd Hsk) as [H|H]; rewrite H in Hrun;
      by injection Hrun as <-.
Qed.

Lemma from_START_rows :
  Forall (λ r, from r = STATE_START →
               to r = STATE_START ∨ to r = STATE_APPLICATION)
    stateswitches.
Proof.
  unfold stateswitches, sw.
  repeat (constructor; [cbn [from to]; first [by left|by right|by auto]|]).
  constructor.
Qed.

Lemma start_switch_START pd atts :
  pstate pd = STATE_START → start_switch pd atts = pd.
Proof. intros H. unfold start_switch. by rewrite H. Qed.

Lemma end_switch_START pd : pstate pd = STATE_START → end_switch pd = Some pd.
Proof. intros H. unfold end_switch. by rewrite H. Qed.

Lemma run_children_closed children :
  Forall (λ n, ∀ pd pd',
            pstate pd = STATE_START → (0 ≤ depth pd)%Z →
            (statedepth pd ≤ depth pd)%Z → skip_depth pd = 0%Z →
            solvable pd = None →
            run (events_of n) pd = Some pd' → solvable pd' = None)
    children →
  ∀ pd pd',
    pstate pd = STATE_START → (0 ≤ depth pd)%Z →
    (statedepth pd ≤ depth pd)%Z → skip_depth pd = 0%Z →
    solvable pd = None →
    run (concat (List.map events_of children)) pd = Some pd' →
    solvable pd' = None.
Proof.
  induction 1 as [|c children Hc _ IH]; intros pd pd' Hst H0 Hsd Hs Hsolv.
  - rewrite run_nil. by intros [= <-].
  - cbn [List.map concat]. rewrite run_app.
    destruct (run (events_of c) pd) as [pd1|] eqn:E; [|intros [=]].
    rewrite bind_Some. intros H.
    pose proof (run_balanced c pd pd1 H0 Hsd Hs E) as Hm.
    apply Hc in E; [|assumption..].
    unfold machine in Hm. injection Hm as E1 E2 E3 E4.
    apply (IH pd1); [congruence|lia|lia|congruence|exact E|exact H].
Qed.

Lemma run_closes_record n :
  ∀ pd pd',
    pstate pd = STATE_START → (0 ≤ depth pd)%Z →
    (statedepth pd ≤ depth pd)%Z → skip_depth pd = 0%Z →
    solvable pd = None →
    run (events_of n) pd = Some pd' → solvable pd' = None.
Proof.
  induction n as [s|nm atts children IH] using node_ind';
    intros pd pd' Hst H0 Hsd Hs Hsolv Hrun.
  - apply (run_texts_store [s]) in Hrun. unfold store_of in Hrun.
    congruence.
  - destruct (decide (depth pd = statedepth pd)) as [Hd|Hd].
    2:{ rewrite run_inside in Hrun by lia.
        apply run_texts_store in Hrun. unfold store_of in Hrun.
        congruence. }
    destruct (lookup_switch (pstate pd) nm) as [row|] eqn:Hlook.
    2:{ rewrite run_unknown_element in Hrun
          by (right; split; [exact Hd|exact Hlook]).
        apply run_texts_store in Hrun. unfold store_of in Hrun.
        congruence. }
    destruct (find_attr (lit "xml:lang") atts) as [v|] eqn:Hlang.
    + destruct (store (content pd) 0 NUL) as [b|] eqn:Hb.
      2:{ cbn [events_of] in Hrun. rewrite run_cons in Hrun.
          cbn [handle_event] in Hrun.
          rewrite (startElement_no_buffer pd nm atts row) in Hrun
            by assumption.
          discriminate Hrun. }
      apply store_Some_length in Hb.
      rewrite (run_lang_element pd nm atts children row) in Hrun;
        [|try assumption..].
      * injection Hrun as <-. exact Hsolv.
      * rewrite Hlang. by eexists.
    + destruct (run_known_element _ _ _ _ _ _ Hd Hs Hlook Hlang Hrun)
        as (b & pd2 & Hb & Hch & Hend).
      destruct (lookup_switch_row _ _ _ Hlook) as (Hin & Hfrom & _ & Hsb).
      clear Hlook Hrun.
      pose proof from_START_rows as Hrows.
      rewrite list.Forall_forall in Hrows.
      specialize (Hrows row Hin). rewrite Hfrom in Hrows.
      specialize (Hrows Hst). clear Hin.
      assert (machine (start_switch (opening pd row b) atts)
              = (depth pd + 1, depth pd + 1, to row, 0)%Z) as Hm1.
      { rewrite start_switch_machine. unfold machine, opening.
        cbn [depth pstate statedepth skip_depth set_depth set_state
          set_statedepth set_buf set_docontent]. by rewrite Hs. }
      assert (machine pd2 = machine (start_switch (opening pd row b) atts))
        as Hm2.
      { apply (run_children_machine children); [| | | |exact Hch].
        - rewrite list.Forall_forall. intros c _. apply run_balanced.
        - change (0 ≤ (machine (start_switch (opening pd row b) atts)).1.1.1)%Z.
          rewrite Hm1. cbn [fst]. lia.
        - change ((machine (start_switch (opening pd row b) atts)).1.1.2
                  ≤ (machine (start_switch (opening pd row b) atts)).1.1.1)%Z.
          rewrite Hm1. cbn [fst snd]. lia.
        - change ((machine (start_switch (opening pd row b) atts)).2 = 0%Z).
          by rewrite Hm1. }
      destruct (closing_known_element _ _ _ _ _ _ _ Hd Hs Hsb Hm2 Hend)
        as (_ & pd3 & Hsw & Hst3 & ->).
      destruct Hrows as [Hto|Hto]; rewrite Hto in *.
      * rewrite end_switch_START in Hsw by exact Hst3.
        injection Hsw as <-. unfold closing.
        cbn [solvable set_skip_depth set_statedepth set_depth].
        assert (pstate (opening pd row b) = STATE_START) as Hst1.
        { unfold opening.
          cbn [pstate set_buf set_statedepth set_docontent set_state].
          exact Hto. }
        rewrite start_switch_START in Hch by exact Hst1.
        apply (run_children_closed children) in Hch;
          [exact Hch|exact IH|exact Hst1|..]; unfold opening; pd_fields;
          first [lia|assumption].
      * unfold end_switch in Hsw. rewrite Hst3 in Hsw.
        by apply end_application_machine in Hsw as [_ ?].
Qed.

(** X25.  A well-formed document leaves no record behind: the calls for
    a node met in the start state without a record, when they all
    return, end in the start state without a record.  Every record that
    an [application] or [component] element has opened has been closed,
    whether the element is the top of the document or lies in an
    [applications] or [components] element, and an element that is
    skipped for its language has opened none.  (Only after an error of
    the tokenizer does [repo_add_appdata_fn] look for a record to
    free.) *)
Theorem no_record_left_open n pd pd' :
  pstate pd = STATE_START → (0 ≤ depth pd)%Z →
  (statedepth pd ≤ depth pd)%Z → skip_depth pd = 0%Z →
  solvable pd = None →
  run (events_of n) pd = Some pd' →
  pstate pd' = STATE_START ∧ solvable pd' = None.
Proof.
  intros Hst H0 Hsd Hs Hsolv Hrun. split.
  - apply run_balanced in Hrun; [|assumption..].
    unfold machine in Hrun. injection Hrun as _ _ -> _. exact Hst.
  - by apply (run_closes_record n pd pd').
Qed.

(** ** Markup inside of captured text *)

Lemma machine_eq pd pd' :
  machine pd' = machine pd →
  depth pd' = depth pd ∧ statedepth pd' = statedepth pd
  ∧ pstate pd' = pstate pd ∧ skip_depth pd' = skip_depth pd.
Proof. unfold machine. intros [= -> -> -> ->]. done. Qed.

Lemma startElement_row_machine pd nm atts row pd1 :
  depth pd = statedepth pd → lookup_switch (pstate pd) nm = Some row →
  startElement pd nm atts = Some pd1 →
  pstate pd1 = to row ∧ depth pd1 = (depth pd + 1)%Z
  ∧ statedepth pd1 = (depth pd + 1)%Z.
Proof.
  intros Hd Hlook.
  destruct (store (content pd) 0 NUL) as [b|] eqn:Hb.
  2:{ rewrite (startElement_no_buffer pd nm atts row) by assumption.
      intros [=]. }
  rewrite (startElement_row pd nm atts row b) by assumption.
  clear Hlook. cbv zeta.
  set (pd0 := if decide (skip_depth pd = 0%Z ∧ _) then _ else _).
  assert (pstate pd0 = to row ∧ depth pd0 = (depth pd + 1)%Z
          ∧ statedepth pd0 = (depth pd + 1)%Z) as (A & B & C).
  { unfold pd0. case_decide; unfold opening; pd_fields; done. }
  case_decide; intros [= <-].
  - pd_fields. done.
  - destruct (machine_eq _ _ (start_switch_machine pd0 atts))
      as (-> & -> & -> & _).
    done.
Qed.

Lemma run_leaf_children children :
  ∀ pd, depth pd = statedepth pd → swtab (pstate pd) = None →
        run (concat (List.map events_of children)) pd
        = run (Text <$> concat (List.map texts_of children)) pd.
Proof.
  induction children as [|c children IH]; intros pd Hd Hsw; [reflexivity|].
  cbn [List.map concat]. rewrite run_app, run_texts_app.
  assert (run (events_of c) pd = run (Text <$> texts_of c) pd) as ->.
  { destruct c as [nm atts cs|s]; [|reflexivity].
    apply run_unknown_element. right. split; [exact Hd|].
    unfold lookup_switch. by rewrite Hsw. }
  destruct (run (Text <$> texts_of c) pd) as [pd1|] eqn:E; [|reflexivity].
  rewrite !bind_Some.
  apply run_texts_machine, machine_eq in E as (E1 & E2 & E3 & _).
  apply IH; congruence.
Qed.

Lemma run_leaf_element pd nm atts children row :
  depth pd = statedepth pd → lookup_switch (pstate pd) nm = Some row →
  swtab (to row) = None →
  run (events_of (Elem nm atts children)) pd
  = run (Start nm atts
           :: (Text <$> texts_of (Elem nm atts children)) ++ [End_ nm]) pd.
Proof.
  intros Hd Hlook Hsw. cbn [events_of texts_of]. rewrite !run_cons.
  cbn [handle_event].
  destruct (startElement pd nm atts) as [pd1|] eqn:E; [|reflexivity].
  rewrite !bind_Some, !run_app.
  apply startElement_row_machine with (row := row) in E
    as (E1 & E2 & E3); [|assumption..].
  rewrite run_leaf_children by congruence. reflexivity.
Qed.

(** X26.  Markup inside of an element whose text is captured does not
    get into the text and does not end the capture: for an element that
    the state table knows and that leads to a state without rows (the
    elements of [id], [name], [summary], [p], [li] and the like), the
    handlers leave the parser as they would if the character data of the
    whole subtree stood in the element itself, whatever elements lie
    between. *)
Theorem markup_in_captured_text pd nm atts children row :
  depth pd = statedepth pd → lookup_switch (pstate pd) nm = Some row →
  swtab (to row) = None →
  run (events_of (Elem nm atts children)) pd
  = run (Start nm atts
           :: (Text <$> texts_of (Elem nm atts children)) ++ [End_ nm]) pd.
Proof. exact (run_leaf_element pd nm atts children row). Qed.

(** ** Claim C9: the provides of a record at its close *)

Lemma no_rel_app l1 l2 : no_rel l1 → no_rel l2 → no_rel (l1 ++ l2).
Proof. unfold no_rel. intros H1 H2. by rewrite List.filter_app, H1, H2. Qed.

Lemma repo_addid_dep_str deps x :
  ∃ l, repo_addid_dep deps (IdStr x) = deps ++ l ∧ no_rel l.
Proof.
  unfold repo_addid_dep. case_decide.
  - exists []. by rewrite app_nil_r.
  - by exists [IdStr x].
Qed.

Lemma repo_addid_dep_rel deps n e f :
  no_rel deps →
  repo_addid_dep deps (IdRel n e f) = deps ++ [IdRel n e f].
Proof.
  unfold no_rel, repo_addid_dep. intros Hno. case_decide as Hin; [|done].
  exfalso. apply list_elem_of_In in Hin.
  assert (In (IdRel n e f) (List.filter is_rel deps)) as Hin'.
  { apply List.filter_In. by split. }
  rewrite Hno in Hin'. destruct Hin'.
Qed.

(** The loop over the owners keeps the provides of the record and adds
    strings behind them. *)
Lemma add_owners_provides os :
  ∀ p i s p',
    p !! i = Some s → add_owners p i os = Some p' →
    ∃ s' l, p' !! i = Some s' ∧ provides s' = provides s ++ l ∧ no_rel l.
Proof.
  induction os as [|o os IH]; intros p i s p' Hi.
  - cbn [add_owners]. intros [= <-]. exists s, []. by rewrite app_nil_r.
  - cbn [add_owners].
    destruct (p !! o) as [osolv|]; [|intros [=]].
    cbn [mbind option_bind]. rewrite Hi. cbn [mbind option_bind].
    set (s1 := set_provides _ _). intros H.
    apply (IH _ i s1) in H as (s' & l & Hs' & Hp & Hno).
    2:{ apply list_lookup_insert_eq. by eapply lookup_lt_Some. }
    unfold s1 in Hp. cbn [provides set_provides set_requires] in Hp.
    unfold pool_str2id in Hp.
    destruct (repo_addid_dep_str (provides s)
                (pool_tmpjoin (lit "application-appdata(")
                   (pool_id2str (name osolv)) (lit ")")))
      as (l1 & Hl1 & Hno1).
    rewrite Hl1 in Hp. exists s', (l1 ++ l). split; [exact Hs'|].
    split; [by rewrite Hp, (assoc_L (++))|by apply no_rel_app].
Qed.

Lemma appdata_link_provides pd s :
  ∃ l, provides (appdata_link pd s) = provides s ++ l ∧ no_rel l.
Proof.
  unfold appdata_link.
  case_decide; [|exists []; by rewrite app_nil_r].
  destruct (match filename pd with
            | Some fn => Some fn
            | None => desktop_file pd ≫= guess_filename_from_id
            end) as [fn|]; [|exists []; by rewrite app_nil_r].
  cbn [provides set_provides set_requires]. apply repo_addid_dep_str.
Qed.

(** What the close of an application does to the provides of the
    record: they stay, strings are added behind them for the links, and
    the relation of the name and the version is added last. *)
Lemma end_application_provides pd i s pd' s' :
  cur_solvable pd = Some (i, s) → no_rel (provides s) →
  end_application pd = Some pd' → pool pd' !! i = Some s' →
  ∃ links,
    no_rel links
    ∧ provides s'
      = provides s ++ links
        ++ (if decide (name s' ≠ ID_NULL
                       ∧ arch s' ≠ ARCH_SRC ∧ arch s' ≠ ARCH_NOSRC)
            then [pool_rel2id (name s') (evr s') REL_EQ]
            else []).
Proof.
  intros Hcur Hno. unfold end_application. rewrite Hcur.
  cbn [mbind option_bind].
  apply cur_solvable_Some in Hcur as [Hsolv Hpool].
  destruct (default_arch_evr_deps s) as (_ & _ & Hp1).
  destruct (desktop_tags pd (default_arch_evr s)) as [s2 pd2] eqn:E2.
  apply desktop_tags_frame in E2
    as (_ & _ & _ & Hp2 & Hpool2 & _ & _ & Hos2).
  destruct (name_from_desktop_file_frame pd2 s2) as (_ & _ & _ & Hp3).
  set (s3 := name_from_desktop_file pd2 s2) in *.
  assert (i < length (pool pd)) as Hi by (by eapply lookup_lt_Some).
  assert (<[i:=s3]> (pool pd2) !! i = Some s3) as Hs3.
  { apply list_lookup_insert_eq. by rewrite Hpool2. }
  destruct (owner_links pd2 (<[i:=s3]> (pool pd2)) i s3) as [p|] eqn:Eo;
    [|intros [=]].
  cbn [mbind option_bind].
  assert (∃ s4 l4, p !! i = Some s4 ∧ provides s4 = provides s3 ++ l4
                   ∧ no_rel l4) as (s4 & l4 & Hp4 & Hl4 & Hno4).
  { unfold owner_links in Eo.
    destruct (owners pd2) as [os|].
    - case_decide.
      + by apply (add_owners_provides os _ i s3 p Hs3).
      + injection Eo as <-. exists s3, []. by rewrite app_nil_r.
    - injection Eo as <-. exists s3, []. by rewrite app_nil_r. }
  rewrite Hp4. cbn [mbind option_bind]. intros [= <-].
  cbn [pool set_desktop_file set_solvable set_pool].
  rewrite list_lookup_insert_eq by (by eapply lookup_lt_Some).
  intros [= <-].
  destruct (appdata_link_provides pd2 s4) as (l5 & Hl5 & Hno5).
  set (s5 := appdata_link pd2 s4) in *.
  exists (l4 ++ l5). split; [by apply no_rel_app|].
  assert (provides s5 = provides s ++ l4 ++ l5) as Hp5.
  { by rewrite Hl5, Hl4, Hp3, Hp2, Hp1, (assoc_L (++)). }
  destruct (self_provide_frame s5) as (Hn6 & Ha6 & He6 & _).
  rewrite Hn6, Ha6, He6. unfold self_provide.
  case_decide.
  - cbn [provides set_provides]. unfold pool_rel2id.
    rewrite repo_addid_dep_rel.
    + by rewrite Hp5, <- !(assoc_L (++)).
    + rewrite Hp5. apply no_rel_app; [exact Hno|by apply no_rel_app].
  - by rewrite Hp5, app_nil_r.
Qed.

(** The name of the record after the close of its application. *)
Lemma end_application_name pd i s pd' s' :
  cur_solvable pd = Some (i, s) → owners_ok pd →
  end_application pd = Some pd' → pool pd' !! i = Some s' →
  (name s ≠ ID_NULL → name s' = name s)
  ∧ (name s = ID_NULL → desktop_file pd = None → name s' = ID_NULL)
  ∧ arch s' = (if decide (arch s = ID_NULL) then ARCH_NOARCH else arch s)
  ∧ evr s' = (if decide (evr s = ID_NULL) then ID_EMPTY else evr s).
Proof.
  intros Hcur Hos Hend Hs'.
  destruct (desktop_tags pd (default_arch_evr s)) as [s2 pd2] eqn:E2.
  destruct (end_application_ids pd i s s2 pd2 Hcur Hos E2)
    as (pd1 & s1 & Hend1 & Hs1 & Hn & Ha & He).
  rewrite Hend in Hend1. injection Hend1 as <-.
  rewrite Hs' in Hs1. injection Hs1 as <-.
  destruct (default_arch_evr_ids s) as [Ha1 He1].
  destruct (default_arch_evr_deps s) as (Hn1 & _ & _).
  destruct (desktop_tags_name _ _ _ _ E2) as (Hkeep & _ & Hdf).
  rewrite Hn1 in Hkeep.
  rewrite name_from_desktop_file_name, Hdf in Hn.
  split; [|split; [|split; [by rewrite Ha|by rewrite He]]].
  - intros Hne. specialize (Hkeep Hne). rewrite Hn.
    destruct (desktop_file pd); [|by rewrite Hkeep].
    rewrite decide_False by (by rewrite Hkeep). exact Hkeep.
  - intros Hnull Hnone. rewrite Hn, Hnone.
    unfold desktop_tags in E2. rewrite Hnone in E2. injection E2 as <- _.
    by rewrite Hn1.
Qed.

(** C9.  A document is parsed from the initial state, with owners (if
    any) that are solvables of the pool, up to the close of the top
    element of a record [s].  The close leaves the provides that the
    record has, which hold no relation, adds strings for its links, and
    then adds the relation [name = evr] with the flag [REL_EQ], once and
    in the last place, exactly when the record has a name and its
    architecture is neither [ARCH_SRC] nor [ARCH_NOSRC]; otherwise no
    relation is among the provides.  The name is the name that the
    record has before the close (none, when it has none and there is no
    desktop file to make one from), the architecture and the version are
    the ones it has, or [ARCH_NOARCH] and [ID_EMPTY] in their place. *)
Theorem self_provide_on_close p dat fl fn os evs pd nm i s :
  from_option (Forall (λ o, o < length p)) True os →
  run evs (init_parsedata p dat fl fn os) = Some pd →
  depth pd = statedepth pd → skip_depth pd = 0%Z →
  pstate pd = STATE_APPLICATION →
  cur_solvable pd = Some (i, s) →
  ∃ pd' s' links,
    endElement pd nm = Some pd'
    ∧ pool pd' !! i = Some s'
    ∧ solvable pd' = None
    ∧ (name s ≠ ID_NULL → name s' = name s)
    ∧ (name s = ID_NULL → desktop_file pd = None → name s' = ID_NULL)
    ∧ arch s' = (if decide (arch s = ID_NULL) then ARCH_NOARCH else arch s)
    ∧ evr s' = (if decide (evr s = ID_NULL) then ID_EMPTY else evr s)
    ∧ no_rel (provides s) ∧ no_rel links
    ∧ provides s'
      = provides s ++ links
        ++ (if decide (name s' ≠ ID_NULL
                       ∧ arch s' ≠ ARCH_SRC ∧ arch s' ≠ ARCH_NOSRC)
            then [pool_rel2id (name s') (evr s') REL_EQ]
            else [])
    ∧ List.filter is_rel (provides s')
      = (if decide (name s' ≠ ID_NULL
                    ∧ arch s' ≠ ARCH_SRC ∧ arch s' ≠ ARCH_NOSRC)
         then [pool_rel2id (name s') (evr s') REL_EQ]
         else []).
Proof.
  intros Hos Hrun Hd Hsk Hst Hcur.
  destruct (run_inv _ _ _ (init_parsedata_inv p dat fl fn os Hos) Hrun)
    as [Hok Hinv].
  specialize (Hinv i s Hcur).
  rewrite (endElement_close pd nm Hd Hsk).
  assert (cur_solvable (closing pd) = Some (i, s)) as Hcur'.
  { etrans; [|exact Hcur]. by apply cur_solvable_frame. }
  assert (owners_ok (closing pd)) as Hok' by exact Hok.
  destruct (end_application_spec (closing pd) i s Hcur' Hinv Hok')
    as (pd1 & s' & Hend & Hlook & Hsolv & _ & _ & Hrel).
  rewrite end_switch_APPLICATION by exact Hst.
  rewrite Hend, bind_Some.
  destruct (end_application_provides _ _ _ _ _ Hcur' Hinv Hend Hlook)
    as (links & Hnol & Hprov).
  destruct (end_application_name _ _ _ _ _ Hcur' Hok' Hend Hlook)
    as (Hn1 & Hn2 & Ha & He).
  eexists _, s', links. split; [reflexivity|].
  split; [exact Hlook|]. split; [exact Hsolv|].
  split; [exact Hn1|]. split; [exact Hn2|]. split; [exact Ha|].
  split; [exact He|]. split; [exact Hinv|]. split; [exact Hnol|].
  split; [exact Hprov|exact Hrel].
Qed.

(** ** Claim C7: siblings of one capturing element *)











(** ** Documents that are processed to their end *)

Lemma leaf_rows :
  Forall (λ r, ename r ≠ None → swtab (to r) = None →
               sw_docontent r = true
               ∧ to r ≠ STATE_APPLICATION ∧ to r ≠ STATE_DESCRIPTION
               ∧ to r ≠ STATE_OL ∧ to r ≠ STATE_UL
               ∧ from r ≠ STATE_START
               ∧ (to r = STATE_OL_LI →
                  from r = STATE_OL ∧ ename r = Some (lit "li")))
    stateswitches.
Proof. apply (bool_decide_unpack _). vm_compute. reflexivity. Qed.

Lemma nesting_rows :
  Forall (λ r, ename r ≠ None → is_Some (swtab (to r)) →
               sw_docontent r = false ∧ from r ≠ STATE_OL
               ∧ (to r = STATE_OL → ename r = Some (lit "ol"))
               ∧ ((from r = STATE_START
                   ∧ (to r = STATE_START ∨ to r = STATE_APPLICATION))
                  ∨ (from r ≠ STATE_START
                     ∧ to r ≠ STATE_START ∧ to r ≠ STATE_APPLICATION)))
    stateswitches.
Proof. apply (bool_decide_unpack _). vm_compute. reflexivity. Qed.

Lemma wf_node_texts n :
  wf_node n = true → Forall (λ t, NUL ∉ t) (texts_of n).
Proof.
  induction n as [s|nm atts children IH] using node_ind'; cbn [wf_node texts_of].
  - intros H. apply bool_decide_eq_true_1 in H. by constructor.
  - intros H. apply andb_true_iff in H as [H _].
    induction IH as [|c children Hc _ IHch]; [constructor|].
    cbn [forallb] in H. apply andb_true_iff in H as [H1 H2].
    cbn [List.map concat]. apply Forall_app. split; [by apply Hc|by apply IHch].
Qed.

Lemma store_Some (b : list ascii) i c b' :
  store b i c = Some b' → i < length b ∧ b' = <[i:=c]> b.
Proof. unfold store. case_decide; [by intros [= <-]|intros [=]]. Qed.

Lemma store_content_Some pd i c pd' :
  store_content pd i c = Some pd' →
  i < length (content pd)
  ∧ pd' = set_buf pd (<[i:=c]> (content pd)) (lcontent pd) (acontent pd).
Proof.
  unfold store_content. intros H.
  destruct (store _ _ _) as [b|] eqn:E; [|discriminate H].
  apply store_Some in E as [Hlt ->]. rewrite bind_Some in H.
  by injection H as <-.
Qed.

(** A close of an item of a list that returns leaves the buffer
    allocated, with room for the marker. *)
Lemma end_ul_li_buffer pd c pd' :
  c_str (content pd) = Some c → acontent pd = length (content pd) →
  end_ul_li pd = Some pd' →
  acontent pd' = length (content pd') ∧ 3 ≤ acontent pd'
  ∧ licnt pd' = licnt pd.
Proof.
  intros Hc Ha. unfold end_ul_li.
  destruct (wsstrip_spec pd c Hc) as (b1 & -> & Hb1 & Hl1).
  rewrite bind_Some.
  destruct (indent_spec
              (set_buf pd b1 (length (wsstrip_str c)) (acontent pd))
              (wsstrip_str c) 4) as (b2 & -> & Hb2);
    [exact Hb1|reflexivity|pd_fields; lia|].
  rewrite bind_Some.
  destruct (store_content _ 2 _) as [pd3|] eqn:E3; [|intros [=]].
  apply store_content_Some in E3 as [Hlt ->]. rewrite bind_Some.
  unfold content_str. pd_fields.
  destruct (c_str (<[2:=_]> _)); [|intros [=]].
  cbn [mbind option_bind]. intros [= <-]. revert Hlt. pd_fields.
  rewrite length_insert. intros Hlt. split; [reflexivity|]. split; [lia|done].
Qed.

Lemma end_ol_li_buffer pd c pd' :
  c_str (content pd) = Some c → acontent pd = length (content pd) →
  end_ol_li pd = Some pd' →
  acontent pd' = length (content pd') ∧ 3 ≤ acontent pd'
  ∧ licnt pd' = (licnt pd + 1)%Z.
Proof.
  intros Hc Ha. unfold end_ol_li.
  destruct (wsstrip_spec pd c Hc) as (b1 & -> & Hb1 & Hl1).
  rewrite bind_Some.
  destruct (indent_spec
              (set_buf pd b1 (length (wsstrip_str c)) (acontent pd))
              (wsstrip_str c) 4) as (b2 & -> & Hb2);
    [exact Hb1|reflexivity|pd_fields; lia|].
  rewrite bind_Some. cbv zeta.
  set (pd2 := set_licnt _ _).
  assert (acontent pd2 = length (content pd2) ∧ licnt pd2 = (licnt pd + 1)%Z)
    as [Ha2 Hl2] by done.
  clearbody pd2.
  destruct (if decide _ then _ else _) as [pd3|] eqn:E3; [|intros [=]].
  assert (acontent pd3 = length (content pd3) ∧ licnt pd3 = licnt pd2)
    as [Ha3 Hl3].
  { case_decide; [|by injection E3 as <-].
    apply store_content_Some in E3 as [_ ->]. pd_fields.
    by rewrite length_insert. }
  rewrite bind_Some.
  destruct (store_content pd3 1 _) as [pd4|] eqn:E4; [|intros [=]].
  apply store_content_Some in E4 as [_ ->]. rewrite bind_Some.
  destruct (store_content _ 2 _) as [pd5|] eqn:E5; [|intros [=]].
  apply store_content_Some in E5 as [Hlt ->]. rewrite bind_Some.
  unfold content_str. pd_fields.
  destruct (c_str (<[2:=_]> _)); [|intros [=]].
  cbn [mbind option_bind]. intros [= <-]. revert Hlt. pd_fields.
  rewrite !length_insert. intros Hlt.
  split; [exact Ha3|]. split; [lia|congruence].
Qed.

Lemma desktop_tags_buffer pd s s' pd' :
  desktop_tags pd s = (s', pd') →
  content pd' = content pd ∧ acontent pd' = acontent pd
  ∧ licnt pd' = licnt pd.
Proof.
  unfold desktop_tags. intros H.
  destruct (desktop_file pd) as [df|]; [|by simplify_eq].
  destruct (_ && _); [|by simplify_eq].
  destruct (add_missing_tags_from_desktop_file pd (name s) df) as [[nm hs] dat].
  by simplify_eq.
Qed.

Lemma end_application_buffer pd pd' :
  end_application pd = Some pd' →
  content pd' = content pd ∧ acontent pd' = acontent pd
  ∧ licnt pd' = licnt pd.
Proof.
  unfold end_application. intros H.
  destruct (cur_solvable pd) as [[i s]|]; [|discriminate H].
  cbn [mbind option_bind] in H.
  destruct (desktop_tags pd (default_arch_evr s)) as [s2 pd2] eqn:E2.
  apply desktop_tags_buffer in E2.
  destruct (owner_links _ _ _ _) as [p|]; [|discriminate H].
  cbn [mbind option_bind] in H.
  destruct (p !! i) as [s4|]; [|discriminate H].
  cbn [mbind option_bind] in H. injection H as <-. exact E2.
Qed.

Lemma cur_solvable_store pd pd' :
  store_of pd' = store_of pd → cur_solvable pd' = cur_solvable pd.
Proof. unfold store_of, cur_solvable. by intros [= -> -> _]. Qed.

(** The [switch] of [endElement] returns when the buffer holds the text
    that has been captured and the parser has its record. *)
Lemma end_switch_ok pd :
  acontent pd = length (content pd) → 3 ≤ acontent pd →
  (swtab (pstate pd) = None →
   ∃ c, c_str (content pd) = Some c ∧ lcontent pd = length c
        ∧ (pstate pd = STATE_OL_LI →
           (licnt pd + 1 < 10)%Z ∨ wsstrip_str c ≠ [])) →
  (pstate pd ≠ STATE_START → is_Some (cur_solvable pd)) →
  owners_ok pd →
  ∃ pd',
    end_switch pd = Some pd'
    ∧ acontent pd' = length (content pd') ∧ 3 ≤ acontent pd'
    ∧ (pstate pd ≠ STATE_APPLICATION →
       is_Some (cur_solvable pd) → is_Some (cur_solvable pd'))
    ∧ (licnt pd' ≤ licnt pd + 1)%Z
    ∧ (pstate pd ≠ STATE_OL_LI → licnt pd' = licnt pd).
Proof.
  intros Ha H3 Hleaf Hcur Hos.
  destruct (pstate pd) eqn:Hst.
  - (* STATE_START *)
    exists pd. unfold end_switch. rewrite Hst.
    repeat split; try done; lia.
  - (* STATE_APPLICATION *)
    destruct Hcur as [[i s] Hcur]; [discriminate|].
    destruct (desktop_tags pd (default_arch_evr s)) as [s2 pd2] eqn:E2.
    destruct (end_application_ids pd i s s2 pd2 Hcur Hos E2)
      as (pd' & s' & Hend & _).
    exists pd'. unfold end_switch. rewrite Hst. split; [exact Hend|].
    apply end_application_buffer in Hend as (Hc' & Ha' & Hl').
    rewrite Ha', Hc', Hl'. repeat split; try done; lia.
  - (* STATE_ID *)
    destruct Hleaf as (c & Hc & _); [vm_compute; reflexivity|].
    unfold end_switch, content_str. rewrite Hst, Hc.
    cbn [mbind option_bind]. eexists. split; [reflexivity|].
    pd_fields. repeat split; try done; lia.
  - (* STATE_PKGNAME *)
    destruct Hleaf as (c & Hc & _); [vm_compute; reflexivity|].
    destruct Hcur as [[i s] Hcur]; [discriminate|].
    unfold end_switch, content_str. rewrite Hst, Hc.
    cbn [mbind option_bind].
    edestruct (update_solvable_spec pd) as [Hu Hcur']; [exact Hcur|].
    rewrite Hu. eexists. split; [reflexivity|].
    pd_fields. repeat split; try done; try lia;
      try (intros _ _; rewrite Hcur'; by eexists).
  - (* STATE_LICENCE *)
    destruct Hleaf as (c & Hc & _); [vm_compute; reflexivity|].
    unfold end_switch, content_str. rewrite Hst, Hc.
    cbn [mbind option_bind]. eexists. split; [reflexivity|].
    pd_fields. repeat split; try done; lia.
  - (* STATE_NAME *)
    destruct Hleaf as (c & Hc & _); [vm_compute; reflexivity|].
    destruct Hcur as [[i s] Hcur]; [discriminate|].
    unfold end_switch, content_str. rewrite Hst, Hc.
    cbn [mbind option_bind].
    edestruct (update_solvable_spec pd) as [Hu Hcur']; [exact Hcur|].
    rewrite Hu. eexists. split; [reflexivity|].
    pd_fields. repeat split; try done; try lia;
      try (intros _ _; rewrite Hcur'; by eexists).
  - (* STATE_SUMMARY *)
    destruct Hleaf as (c & Hc & _); [vm_compute; reflexivity|].
    unfold end_switch, content_str. rewrite Hst. pd_fields. rewrite Hc.
    cbn [mbind option_bind]. eexists. split; [reflexivity|].
    pd_fields. repeat split; try done; lia.
  - (* STATE_DESCRIPTION *)
    unfold end_switch. rewrite Hst.
    destruct (description pd); eexists; (split; [reflexivity|]);
      pd_fields; repeat split; try done; lia.
  - (* STATE_P *)
    destruct Hleaf as (c & Hc & _); [vm_compute; reflexivity|].
    unfold end_switch. rewrite Hst.
    destruct (end_p_spec pd c Hc) as (b & -> & Hb).
    eexists. split; [reflexivity|]. pd_fields. rewrite Hb.
    repeat split; try done; lia.
  - (* STATE_UL *)
    unfold end_switch. rewrite Hst. eexists. split; [reflexivity|].
    pd_fields. repeat split; try done; lia.
  - (* STATE_UL_LI *)
    destruct Hleaf as (c & Hc & Hl & _); [vm_compute; reflexivity|].
    assert (∃ pd', end_ul_li pd = Some pd') as [pd' Hend].
    { destruct (decide (wsstrip_str c = [])) as [Hb|Hb].
      - destruct (end_ul_li_blank pd c Hc Hb) as (pd' & H & _); [lia|].
        by exists pd'.
      - destruct (end_ul_li_spec pd c Hc Ha Hb) as (b & H & _).
        by eexists. }
    exists pd'. unfold end_switch. rewrite Hst. split; [exact Hend|].
    destruct (end_ul_li_buffer pd c pd' Hc Ha Hend) as (A & B & C).
    rewrite (cur_solvable_store pd pd') by (by apply end_ul_li_frame).
    repeat split; try done; lia.
  - (* STATE_OL *)
    unfold end_switch. rewrite Hst. eexists. split; [reflexivity|].
    pd_fields. repeat split; try done; lia.
  - (* STATE_OL_LI *)
    destruct Hleaf as (c & Hc & Hl & Hol); [vm_compute; reflexivity|].
    assert (∃ pd', end_ol_li pd = Some pd') as [pd' Hend].
    { destruct (decide (wsstrip_str c = [])) as [Hb|Hb].
      - destruct (Hol eq_refl) as [Hlt|Hne]; [|done].
        destruct (end_ol_li_blank pd c Hc Hb) as (pd' & H & _); [lia|lia|].
        by exists pd'.
      - destruct (end_ol_li_spec pd c Hc Ha Hb) as (b & H & _).
        by eexists. }
    exists pd'. unfold end_switch. rewrite Hst. split; [exact Hend|].
    destruct (end_ol_li_buffer pd c pd' Hc Ha Hend) as (A & B & C).
    rewrite (cur_solvable_store pd pd') by (by apply end_ol_li_frame).
    repeat split; try done; lia.
  - (* STATE_URL *)
    destruct Hleaf as (c & Hc & _); [vm_compute; reflexivity|].
    unfold end_switch, content_str. rewrite Hst, Hc.
    cbn [mbind option_bind]. eexists. split; [reflexivity|].
    pd_fields. repeat split; try done; lia.
  - (* STATE_GROUP *)
    destruct Hleaf as (c & Hc & _); [vm_compute; reflexivity|].
    unfold end_switch, content_str. rewrite Hst, Hc.
    cbn [mbind option_bind]. eexists. split; [reflexivity|].
    pd_fields. repeat split; try done; lia.
  - (* STATE_KEYWORDS *)
    exists pd. unfold end_switch. rewrite Hst.
    repeat split; try done; lia.
  - (* STATE_KEYWORD *)
    destruct Hleaf as (c & Hc & _); [vm_compute; reflexivity|].
    unfold end_switch, content_str. rewrite Hst, Hc.
    cbn [mbind option_bind]. eexists. split; [reflexivity|].
    pd_fields. repeat split; try done; lia.
  - (* STATE_EXTENDS *)
    destruct Hleaf as (c & Hc & _); [vm_compute; reflexivity|].
    unfold end_switch, content_str. rewrite Hst, Hc.
    cbn [mbind option_bind]. eexists. split; [reflexivity|].
    pd_fields. repeat split; try done; lia.
  - (* NUMSTATES *)
    exists pd. unfold end_switch. rewrite Hst.
    repeat split; try done; lia.
Qed.

Lemma endElement_ok pd nm :
  depth pd = statedepth pd → skip_depth pd = 0%Z →
  acontent pd = length (content pd) → 3 ≤ acontent pd →
  (swtab (pstate pd) = None →
   ∃ c, c_str (content pd) = Some c ∧ lcontent pd = length c
        ∧ (pstate pd = STATE_OL_LI →
           (licnt pd + 1 < 10)%Z ∨ wsstrip_str c ≠ [])) →
  (pstate pd ≠ STATE_START → is_Some (cur_solvable pd)) →
  owners_ok pd →
  ∃ pd',
    endElement pd nm = Some pd'
    ∧ depth pd' = (depth pd - 1)%Z ∧ statedepth pd' = (statedepth pd - 1)%Z
    ∧ pstate pd' = sbtab (pstate pd) ∧ skip_depth pd' = 0%Z
    ∧ docontent pd' = false
    ∧ acontent pd' = length (content pd') ∧ 3 ≤ acontent pd'
    ∧ (pstate pd ≠ STATE_APPLICATION →
       is_Some (cur_solvable pd) → is_Some (cur_solvable pd'))
    ∧ (licnt pd' ≤ licnt pd + 1)%Z
    ∧ (pstate pd ≠ STATE_OL_LI → licnt pd' = licnt pd).
Proof.
  intros Hd Hs Ha H3 Hleaf Hcur Hos.
  rewrite endElement_close by assumption.
  destruct (end_switch_ok (closing pd))
    as (pd3 & Hsw & Ha3 & H33 & Hcur3 & Hl1 & Hl2);
    [exact Ha|exact H3|exact Hleaf|exact Hcur|exact Hos|].
  rewrite Hsw, bind_Some. eexists. split; [reflexivity|].
  apply end_switch_machine, machine_eq in Hsw as (E1 & E2 & E3 & E4).
  pd_fields. rewrite E3.
  split; [exact E1|]. split; [exact E2|]. split; [reflexivity|].
  split; [exact E4|]. split; [reflexivity|].
  split; [exact Ha3|]. split; [exact H33|].
  split; [exact Hcur3|]. split; [exact Hl1|exact Hl2].
Qed.

Lemma start_switch_buffer pd atts :
  docontent (start_switch pd atts) = docontent pd
  ∧ content (start_switch pd atts) = content pd
  ∧ acontent (start_switch pd atts) = acontent pd.
Proof. unfold start_switch. by destruct (pstate pd). Qed.

Lemma start_switch_record pd atts :
  (pstate pd = STATE_APPLICATION →
   is_Some (cur_solvable (start_switch pd atts)))
  ∧ (pstate pd ≠ STATE_APPLICATION →
     cur_solvable (start_switch pd atts) = cur_solvable pd).
Proof.
  split.
  - intros Hst. rewrite start_switch_APPLICATION by exact Hst.
    unfold cur_solvable. pd_fields. cbn [mbind option_bind].
    rewrite lookup_app_r by lia. rewrite Nat.sub_diag. by eexists.
  - intros Hst. unfold start_switch. by destruct (pstate pd).
Qed.

Lemma start_switch_licnt pd atts :
  pstate pd = STATE_OL → licnt (start_switch pd atts) = 0%Z.
Proof. intros Hst. unfold start_switch. by rewrite Hst. Qed.

Lemma parser_ok_run pd evs pd' :
  parser_ok pd → run evs pd = Some pd' →
  depth pd' = statedepth pd' → (0 ≤ depth pd')%Z → skip_depth pd' = 0%Z →
  docontent pd' = false →
  acontent pd' = length (content pd') → 3 ≤ acontent pd' →
  is_Some (swtab (pstate pd')) →
  (pstate pd' ≠ STATE_START → is_Some (cur_solvable pd')) →
  parser_ok pd'.
Proof.
  intros Hok Hrun. intros. repeat (split; [assumption|]).
  eapply run_inv; [|exact Hrun]. apply Hok.
Qed.

Lemma run_children_ok children :
  Forall (λ n, ∀ pd,
            parser_ok pd → wf_node n = true →
            (pstate pd = STATE_OL → is_li n = true →
             (licnt pd < 9)%Z ∨ blank_node n = false) →
            ∃ pd',
              run (events_of n) pd = Some pd' ∧ parser_ok pd'
              ∧ machine pd' = machine pd
              ∧ (pstate pd = STATE_OL →
                 (licnt pd' ≤ licnt pd + (if is_li n then 1 else 0))%Z))
    children →
  ∀ pd k,
    parser_ok pd → forallb wf_node children = true →
    (pstate pd = STATE_OL →
     (licnt pd ≤ Z.of_nat k)%Z ∧ ol_items_ok k children = true) →
    ∃ pd',
      run (concat (List.map events_of children)) pd = Some pd'
      ∧ parser_ok pd' ∧ machine pd' = machine pd.
Proof.
  induction 1 as [|c children Hc _ IH]; intros pd k Hok Hwf Hol.
  - exists pd. by rewrite run_nil.
  - cbn [forallb] in Hwf. apply andb_true_iff in Hwf as [Hwfc Hwf].
    destruct (Hc pd Hok Hwfc) as (pd1 & Hrun & Hok1 & Hm1 & Hl1).
    { intros Hst Hli. destruct (Hol Hst) as [Hk Hitems].
      cbn [ol_items_ok] in Hitems. rewrite Hli in Hitems.
      apply andb_true_iff in Hitems as [Hitem _].
      apply orb_true_iff in Hitem as [Hlt|Hnb].
      - left. apply bool_decide_eq_true_1 in Hlt. lia.
      - right. by apply negb_true_iff in Hnb. }
    destruct (machine_eq _ _ Hm1) as (_ & _ & Hst1 & _).
    destruct (IH pd1 (if is_li c then S k else k) Hok1 Hwf)
      as (pd2 & Hrun2 & Hok2 & Hm2).
    { rewrite Hst1. intros Hst. specialize (Hl1 Hst).
      destruct (Hol Hst) as [Hk Hitems].
      cbn [ol_items_ok] in Hitems.
      destruct (is_li c).
      - apply andb_true_iff in Hitems as [_ Hitems].
        split; [lia|exact Hitems].
      - split; [lia|exact Hitems]. }
    exists pd2. cbn [List.map concat]. rewrite run_app, Hrun, bind_Some.
    split; [exact Hrun2|]. split; [exact Hok2|]. by rewrite Hm2.
Qed.

Lemma run_node_ok n :
  ∀ pd,
    parser_ok pd → wf_node n = true →
    (pstate pd = STATE_OL → is_li n = true →
     (licnt pd < 9)%Z ∨ blank_node n = false) →
    ∃ pd',
      run (events_of n) pd = Some pd' ∧ parser_ok pd'
      ∧ machine pd' = machine pd
      ∧ (pstate pd = STATE_OL →
         (licnt pd' ≤ licnt pd + (if is_li n then 1 else 0))%Z).
Proof.
  induction n as [s|nm atts children IH] using node_ind';
    intros pd Hok Hwf Hol;
    pose proof Hok as (Hd & H0 & Hs & Hdo & Ha & H3 & Hsw & Hcur & Hinv).
  - exists pd. split; [by apply (run_texts_dropped [s])|].
    split; [exact Hok|]. split; [reflexivity|]. intros _. cbn [is_li]. lia.
  - destruct (lookup_switch (pstate pd) nm) as [row|] eqn:Hlook.
    2:{ exists pd.
        rewrite run_unknown_element
          by (right; split; [exact Hd|exact Hlook]).
        split; [by apply run_texts_dropped|]. split; [exact Hok|].
        split; [reflexivity|]. intros _. destruct (is_li _); lia. }
    destruct (lookup_switch_row _ _ _ Hlook) as (Hin & Hfrom & Hen & Hsb).
    assert (store (content pd) 0 NUL = Some (<[0:=NUL]> (content pd)))
      as Hb by (apply store_0; lia).
    destruct (find_attr (lit "xml:lang") atts) as [v|] eqn:Hlang.
    { (* skipped for its language *)
      exists (set_docontent (reset_buf pd) false). split.
      { apply (run_lang_element pd nm atts children row);
          [exact Hd|exact Hs|exact H0|lia|exact Hlook|].
        rewrite Hlang. by eexists. }
      clear Hlook. split.
      { unfold parser_ok, reset_buf. pd_fields. rewrite length_insert.
        split; [exact Hd|]. split; [exact H0|]. split; [exact Hs|].
        split; [reflexivity|]. split; [exact Ha|]. split; [exact H3|].
        split; [exact Hsw|]. split; [exact Hcur|exact Hinv]. }
      split; [reflexivity|]. intros _.
      change (licnt (set_docontent (reset_buf pd) false)) with (licnt pd).
      destruct (is_li _); lia. }
    enough (∃ pd',
              run (events_of (Elem nm atts children)) pd = Some pd'
              ∧ depth pd' = statedepth pd' ∧ docontent pd' = false
              ∧ acontent pd' = length (content pd') ∧ 3 ≤ acontent pd'
              ∧ (pstate pd ≠ STATE_START → is_Some (cur_solvable pd'))
              ∧ machine pd' = machine pd
              ∧ (pstate pd = STATE_OL →
                 (licnt pd'
                  ≤ licnt pd
                    + (if is_li (Elem nm atts children) then 1 else 0))%Z))
      as (pd' & Hrun & Hd' & Hdo' & Ha' & H3' & Hcur' & Hm' & Hl').
    { exists pd'. split; [exact Hrun|]. split; [|split; assumption].
      destruct (machine_eq _ _ Hm') as (E1 & E2 & E3 & E4).
      apply (parser_ok_run pd _ pd' Hok Hrun); try assumption.
      - lia.
      - congruence.
      - by rewrite E3.
      - by rewrite E3. }
    destruct (swtab (to row)) as [j|] eqn:Hto.
    + (* an element with elements of its own *)
      pose proof nesting_rows as Hrows.
      rewrite list.Forall_forall in Hrows.
      destruct (Hrows row Hin) as (Hdoc & Hnol & Holname & Hft);
        [by rewrite Hen|by rewrite Hto|].
      clear Hrows Hin.
      cbn [events_of]. rewrite run_cons. cbn [handle_event].
      pose proof (startElement_known pd nm atts row _ Hd Hs Hlook Hb Hlang)
        as Hstart.
      clear Hlook. rewrite Hstart, bind_Some, run_app.
      set (pd0 := opening pd row (<[0:=NUL]> (content pd))) in *.
      set (pd1 := start_switch pd0 atts) in *.
      destruct (machine_eq _ _ (start_switch_machine pd0 atts))
        as (D1 & D2 & D3 & D4).
      destruct (start_switch_buffer pd0 atts) as (B1 & B2 & B3).
      destruct (start_switch_record pd0 atts) as [R1 R2].
      fold pd1 in D1, D2, D3, D4, B1, B2, B3, R1, R2.
      assert (depth pd0 = (depth pd + 1)%Z ∧ statedepth pd0 = (depth pd + 1)%Z
              ∧ pstate pd0 = to row ∧ skip_depth pd0 = skip_depth pd
              ∧ docontent pd0 = sw_docontent row
              ∧ content pd0 = <[0:=NUL]> (content pd)
              ∧ acontent pd0 = acontent pd
              ∧ cur_solvable pd0 = cur_solvable pd)
        as (O1 & O2 & O3 & O4 & O5 & O6 & O7 & O8)
        by (unfold pd0, opening, cur_solvable; pd_fields;
            repeat (split; [reflexivity|]); reflexivity).
      assert (run [Start nm atts] pd = Some pd1) as Hrun1.
      { rewrite run_cons. cbn [handle_event].
        rewrite Hstart, bind_Some, run_nil. reflexivity. }
      clear Hstart.
      assert (parser_ok pd1) as Hok1.
      { apply (parser_ok_run pd [Start nm atts] pd1 Hok Hrun1).
        - rewrite D1, D2, O1, O2. reflexivity.
        - rewrite D1, O1. lia.
        - rewrite D4, O4. exact Hs.
        - rewrite B1, O5. exact Hdoc.
        - rewrite B3, B2, O7, O6, length_insert. exact Ha.
        - rewrite B3, O7. exact H3.
        - rewrite D3, O3, Hto. eexists. reflexivity.
        - rewrite D3, O3. intros Hne.
          destruct (decide (to row = STATE_APPLICATION)) as [Hap|Hap].
          + apply R1. rewrite O3. exact Hap.
          + rewrite R2 by (rewrite O3; exact Hap). rewrite O8. apply Hcur.
            destruct Hft as [[_ [Ht|Ht]]|[Hf _]].
            * exfalso. exact (Hne Ht).
            * exfalso. exact (Hap Ht).
            * rewrite <- Hfrom. exact Hf. }
      clear Hrun1.
      destruct (run_children_ok children IH pd1 0 Hok1)
        as (pd2 & -> & Hok2 & Hm2).
      { cbn [wf_node] in Hwf. apply andb_true_iff in Hwf as [Hwf _].
        exact Hwf. }
      { rewrite D3, O3. intros Hst. split.
        - assert (licnt pd1 = 0%Z) as ->; [|lia].
          apply start_switch_licnt. rewrite O3. exact Hst.
        - cbn [wf_node] in Hwf. apply andb_true_iff in Hwf as [_ Hwf].
          specialize (Holname Hst). rewrite Hen in Holname.
          injection Holname as ->.
          rewrite decide_True in Hwf by reflexivity. exact Hwf. }
      rewrite bind_Some, run_cons. cbn [handle_event].
      destruct Hok2 as (Hd2 & H02 & Hs2 & Hdo2 & Ha2 & H32 & Hsw2 & Hcur2
                        & Hinv2).
      destruct (machine_eq _ _ Hm2) as (M1 & M2 & M3 & M4).
      destruct (endElement_ok pd2 nm)
        as (pd' & -> & N1 & N2 & N3 & N4 & Hdo' & Ha' & H3' & Hcur' & Hl1
            & Hl2);
        [exact Hd2|exact Hs2|exact Ha2|exact H32| |exact Hcur2|apply Hinv2|].
      { intros Hnone. rewrite Hnone in Hsw2.
        destruct Hsw2 as [? Hsw2]. discriminate Hsw2. }
      rewrite bind_Some, run_nil. exists pd'. split; [reflexivity|].
      clearbody pd1 pd0.
      split; [lia|]. split; [exact Hdo'|]. split; [exact Ha'|].
      split; [exact H3'|]. split.
      { intros Hne.
        assert (to row ≠ STATE_START ∧ to row ≠ STATE_APPLICATION)
          as [Ht1 Ht2].
        { destruct Hft as [[Hf _]|(_ & Ht1 & Ht2)].
          - exfalso. apply Hne. rewrite <- Hfrom. exact Hf.
          - split; assumption. }
        apply Hcur'.
        - rewrite M3, D3, O3. exact Ht2.
        - apply Hcur2. rewrite M3, D3, O3. exact Ht1. }
      split.
      { unfold machine.
        rewrite N1, N2, N3, N4, M1, M2, M3, D1, D2, D3, O1, O2, O3, Hsb, Hs.
        repeat f_equal; lia. }
      intros Hst. exfalso. apply Hnol. rewrite Hfrom. exact Hst.
    + (* an element whose text is captured *)
      pose proof leaf_rows as Hrows.
      rewrite list.Forall_forall in Hrows.
      destruct (Hrows row Hin) as (Hdoc & Hn1 & Hn2 & Hn3 & Hn4 & Hfs & Holi);
        [by rewrite Hen|exact Hto|].
      clear Hrows Hin.
      rewrite (run_leaf_element pd nm atts children row)
        by assumption.
      pose proof (wf_node_texts _ Hwf) as Hts.
      set (ts := texts_of (Elem nm atts children)) in *.
      rewrite app_comm_cons, run_app.
      destruct (capture_element pd (pstate pd) nm atts ts row)
        as (b & -> & Hcb & Hlen);
        [by repeat split; try assumption; lia|exact Hlook|exact Hdoc
        |exact Hn1|exact Hn2|exact Hn3|exact Hn4|exact Hlang|exact Hts|].
      clear Hlook. rewrite bind_Some, run_cons. cbn [handle_event].
      set (pd2 := set_buf (opening pd row (<[0:=NUL]> (content pd))) b
                    (length (concat ts)) (length b)).
      assert (depth pd2 = (depth pd + 1)%Z ∧ statedepth pd2 = (depth pd + 1)%Z
              ∧ pstate pd2 = to row ∧ skip_depth pd2 = skip_depth pd
              ∧ content pd2 = b ∧ acontent pd2 = length b
              ∧ lcontent pd2 = length (concat ts)
              ∧ cur_solvable pd2 = cur_solvable pd
              ∧ licnt pd2 = licnt pd ∧ owners_ok pd2 = owners_ok pd)
        as (O1 & O2 & O3 & O4 & O5 & O6 & O7 & O8 & O9 & O10)
        by (unfold pd2, opening, cur_solvable, owners_ok; pd_fields;
            repeat (split; [reflexivity|]); reflexivity).
      clearbody pd2.
      destruct (endElement_ok pd2 nm)
        as (pd' & -> & N1 & N2 & N3 & N4 & Hdo' & Ha' & H3' & Hcur' & Hl1
            & Hl2).
      { congruence. }
      { congruence. }
      { congruence. }
      { rewrite O6. lia. }
      { intros _. exists (concat ts). rewrite O5, O7, O9.
        split; [exact Hcb|]. split; [reflexivity|].
        rewrite O3. intros Hst. destruct (Holi Hst) as [Hf He].
        rewrite Hen in He. injection He as ->.
        destruct Hol as [Hlt|Hnb];
          [congruence|by apply bool_decide_eq_true_2|left; lia|].
        right. unfold blank_node in Hnb.
        by apply bool_decide_eq_false_1 in Hnb. }
      { intros _. rewrite O8. apply Hcur. congruence. }
      { rewrite O10. apply Hinv. }
      rewrite bind_Some, run_nil. exists pd'. split; [reflexivity|].
      split; [lia|]. split; [exact Hdo'|]. split; [exact Ha'|].
      split; [exact H3'|]. split.
      { intros Hne. apply Hcur'; [by rewrite O3|].
        rewrite O8. by apply Hcur. }
      split.
      { unfold machine. rewrite N1, N2, N3, N4, O1, O3, Hsb, Hs.
        rewrite <- Hd. repeat f_equal; lia. }
      intros Hst. cbn [is_li]. case_bool_decide as Hli.
      * lia.
      * rewrite Hl2; [lia|]. rewrite O3. intros Hto'.
        destruct (Holi Hto') as [_ He]. rewrite Hen in He.
        by injection He.
Qed.

Lemma init_parsedata_ok p dat fl fn os :
  from_option (Forall (λ o, o < length p)) True os →
  parser_ok (init_parsedata p dat fl fn os).
Proof.
  intros Hos. unfold parser_ok, init_parsedata. pd_fields.
  rewrite length_fmap, length_seq.
  split; [reflexivity|]. split; [lia|]. split; [reflexivity|].
  split; [reflexivity|]. split; [reflexivity|]. split; [lia|].
  split; [vm_compute; by eexists|]. split; [intros H; by destruct H|].
  by apply init_parsedata_inv.
Qed.

(** X27.  [repo_add_appdata_fn] gets through every document that the
    tokenizer can hand over, apart from those with a blank item from the
    tenth on in an ordered list: for a document in which no character
    data holds a NUL and in which the [li] children of an [ol] element
    from the tenth on are not blank, every call of a handler returns,
    whatever the elements, attributes and nesting are: no handler reads
    or writes outside of the content buffer, reads a string without its
    terminator, or writes through [pd->solvable] when it is null.  (The
    owners, if there are any, are solvables of the pool.)  At the end the
    parser is back in the start state at depth 0. *)
Theorem well_formed_document_is_processed root p dat fl fn os :
  wf_node root = true →
  from_option (Forall (λ o, o < length p)) True os →
  ∃ pd',
    run (events_of root) (init_parsedata p dat fl fn os) = Some pd'
    ∧ pstate pd' = STATE_START ∧ depth pd' = 0%Z.
Proof.
  intros Hwf Hos.
  destruct (run_node_ok root (init_parsedata p dat fl fn os))
    as (pd' & Hrun & _ & Hm & _).
  - by apply init_parsedata_ok.
  - exact Hwf.
  - intros H. discriminate H.
  - exists pd'. split; [exact Hrun|].
    by destruct (machine_eq _ _ Hm) as (-> & _ & -> & _).
Qed.

End Properties.

(** * Examples *)

Lemma wsstrip_normalises_witness :
  ∃ pd' out,
    wsstrip (demo_pd STATE_P (lit "  two   words ")) = Some pd'
    ∧ c_str (content pd') = Some out
    ∧ lcontent pd' = length out.
Proof.
  destruct (wsstrip_normalises (demo_pd STATE_P (lit "  two   words "))
              (lit "  two   words ")) as (pd' & out & H1 & H2 & H3 & _).
  - vm_compute. reflexivity.
  - exists pd', out. auto.
Defined.

Lemma indent_nonempty_lines_witness :
  ∃ pd' out,
    indent (ext:=demo) (demo_pd STATE_UL_LI (lit "item")) 4 = Some pd'
    ∧ c_str (content pd') = Some out
    ∧ length out = 4 + 4 * 1.
Proof.
  destruct (indent_nonempty_lines (ext:=demo)
              (demo_pd STATE_UL_LI (lit "item")) (lit "item") 4)
    as (pd' & out & H1 & H2 & _ & _ & _ & H3).
  - vm_compute. reflexivity.
  - reflexivity.
  - reflexivity.
  - exists pd', out. auto.
Defined.

(** C5 as it is stated fails on a string with an empty line: of the
    three lines of the string, two get the four spaces; the empty line
    of the result does not begin with a space. *)
Lemma indent_every_line_counterexample :
  let s := lit "a" ++ [NL; NL] ++ lit "b" in
  let pd := demo_pd STATE_UL_LI s in
  c_str (content pd) = Some s
  ∧ lcontent pd = length s
  ∧ acontent pd = length (content pd)
  ∧ length (lines s) = 3
  ∧ ∃ pd', indent (ext:=demo) pd 4 = Some pd'
           ∧ c_str (content pd') = Some (lit "    a" ++ [NL; NL] ++ lit "    b")
           ∧ lcontent pd' ≠ lcontent pd + 4 * length (lines s)
           ∧ lines (lit "    a" ++ [NL; NL] ++ lit "    b") !! 1 = Some [].
Proof.
  cbv zeta. repeat split; try reflexivity.
  eexists. split; [vm_compute; reflexivity|].
  split; [reflexivity|]. split; [|reflexivity].
  vm_compute. lia.
Qed.

(** C2.  The test of [search_uninternalized_filelist] is the negation of
    the test it is meant to be: [a.appdata.xml], which ends in
    [.appdata.xml] and which [repo_add_appdata_dir] reads, is skipped, and
    [org.example.desktop], which ends in neither suffix, is pushed as an
    owner candidate. *)
Theorem filelist_entry_test_is_negated :
  ends_in (lit "a.appdata.xml") ".appdata.xml"
  ∧ appdata_dir_entry (lit "a.appdata.xml") = true
  ∧ filelist_entry (lit "a.appdata.xml") = None
  ∧ ¬ ends_in (lit "org.example.desktop") ".appdata.xml"
  ∧ ¬ ends_in (lit "org.example.desktop") ".metainfo.xml"
  ∧ appdata_dir_entry (lit "org.example.desktop") = false
  ∧ filelist_entry (lit "org.example.desktop")
    = Some (pool_str2id (lit "org.example.desktop"))
  ∧ search_uninternalized_filelist
      [[(7, [lit "a.appdata.xml"; lit "org.example.desktop"])]] []
    = [(7, pool_str2id (lit "org.example.desktop"))].
Proof.
  split; [by apply (bool_decide_unpack _)|].
  split; [reflexivity|]. split; [reflexivity|].
  split; [by apply (bool_decide_unpack _)|].
  split; [by apply (bool_decide_unpack _)|].
  repeat split; reflexivity.
Qed.

(** C1 as it is stated fails on [foo.bin]: no file name is inferred, and
    the record of the application gets no requires and no
    [application-appdata] provides. *)
Lemma guess_filename_fallback_counterexample :
  guess_filename_from_id (lit "foo.bin") = None
  ∧ guess_filename_from_id (lit "foo.bin") ≠ Some (lit "foo.bin.metainfo.xml")
  ∧ ∃ pd', run (ext:=demo) doc_unrecognized_id demo_init = Some pd'
           ∧ requires <$> pool pd' !! 0 = Some []
           ∧ provides <$> pool pd' !! 0
             = Some [pool_rel2id (pool_str2id (lit "application:foo.bin"))
                       (IdStr []) 2].
Proof.
  split; [reflexivity|]. split; [discriminate|].
  eexists. split; [vm_compute; reflexivity|]. split; reflexivity.
Qed.

Lemma guess_filename_unrecognized_suffix_witness :
  guess_filename_from_id (lit "foo.bin") = None
  ∧ ∃ pd' s',
      endElement (ext:=demo)
        (set_desktop_file (demo_pd STATE_APPLICATION []) (Some (lit "foo.bin")))
        (lit "application") = Some pd'
      ∧ pool pd' !! 0 = Some s'
      ∧ requires s' = [].
Proof.
  destruct (guess_filename_unrecognized_suffix (ext:=demo)
              (set_desktop_file (demo_pd STATE_APPLICATION [])
                 (Some (lit "foo.bin")))
              (lit "application") (lit "foo.bin") 0 new_solvable)
    as (Hg & pd' & s' & Hrun & Hpool & Hreq & _);
    try (by apply (bool_decide_unpack _)); try reflexivity.
  split; [exact Hg|]. exists pd', s'. auto.
Defined.

(** C3 as it is stated fails on a summary with whitespace around and
    between its words: the summary of the record is the captured text as
    it is, which is not what [wsstrip] makes of it. *)
Lemma summary_is_stripped_counterexample :
  ∃ pd', run (ext:=demo) doc_summary demo_init = Some pd'
         ∧ data pd' 0 SOLVABLE_SUMMARY = Some (AttrStr (lit "  Does   foo "))
         ∧ wsstrip_str (lit "  Does   foo ") = lit "Does foo"
         ∧ data pd' 0 SOLVABLE_SUMMARY
           ≠ Some (AttrStr (wsstrip_str (lit "  Does   foo "))).
Proof.
  eexists. split; [vm_compute; reflexivity|].
  split; [reflexivity|]. split; [reflexivity|]. discriminate.
Qed.

Lemma captured_text_is_written_unstripped_witness :
  ∃ pd', endElement (ext:=demo) (demo_pd STATE_SUMMARY (lit " a  b "))
           (lit "summary") = Some pd'
         ∧ data pd' = repodata_set_str (λ _ _, None) 0 SOLVABLE_SUMMARY
                        (lit " a  b ").
Proof.
  destruct (captured_text_is_written_unstripped (ext:=demo)
              (demo_pd STATE_SUMMARY (lit " a  b ")) (lit "summary")
              (lit " a  b ")) as (H & _); try reflexivity.
  apply H. reflexivity.
Defined.

(** C8 as it is stated fails on a description whose accumulated text is
    empty once its newlines are stripped: the description field of the
    record, which held the text of an earlier description, is written
    with the empty string. *)
Lemma empty_description_is_written_counterexample :
  ∃ pd1 pd2,
    run (ext:=demo) doc_description_1 demo_init = Some pd1
    ∧ data pd1 0 SOLVABLE_DESCRIPTION = Some (AttrStr (lit "x"))
    ∧ run (ext:=demo) doc_description_2 demo_init = Some pd2
    ∧ data pd2 0 SOLVABLE_DESCRIPTION = Some (AttrStr [])
    ∧ data pd2 0 SOLVABLE_DESCRIPTION ≠ data pd1 0 SOLVABLE_DESCRIPTION.
Proof.
  eexists _, _. split; [vm_compute; reflexivity|].
  split; [reflexivity|]. split; [vm_compute; reflexivity|].
  split; [reflexivity|]. discriminate.
Qed.

Lemma description_close_witness :
  ∃ pd', endElement (ext:=demo)
           (set_description (demo_pd STATE_DESCRIPTION [])
              (Some (lit "text" ++ [NL; NL])))
           (lit "description") = Some pd'
         ∧ ∃ d' k, lit "text" ++ [NL; NL] = d' ++ replicate k NL
                   ∧ list.last d' ≠ Some NL
                   ∧ data pd' = repodata_set_str (λ _ _, None) 0
                                  SOLVABLE_DESCRIPTION d'.
Proof.
  apply (description_close (ext:=demo)
           (set_description (demo_pd STATE_DESCRIPTION [])
              (Some (lit "text" ++ [NL; NL])))
           (lit "description")); reflexivity.
Defined.


(** C10.  The close of an empty tenth item of an ordered list: the tens
    digit is written at index 0, over the terminator of the empty string,
    so the string that is appended to the description is the marker
    ["10."] followed by the bytes that the ninth item has left in the
    buffer, and not the empty string. *)
Theorem empty_tenth_item_gets_marker :
  ∃ pd9 pd10 d9,
    run (ext:=demo) doc_nine_items demo_init = Some pd9
    ∧ description pd9 = Some d9
    ∧ c_str (content pd9) = Some (lit " 9. x")
    ∧ run (ext:=demo) doc_empty_tenth_item demo_init = Some pd10
    ∧ licnt pd10 = 10%Z
    ∧ description pd10 = Some (d9 ++ lit "10. x" ++ [NL])
    ∧ description pd10 ≠ Some (d9 ++ [NL]).
Proof.
  eexists _, _, _. split; [vm_compute; reflexivity|].
  split; [reflexivity|]. split; [reflexivity|].
  split; [vm_compute; reflexivity|]. split; [reflexivity|].
  split; [reflexivity|]. discriminate.
Qed.


(** The document of the application Foo, run from the start: the record
    ends with its package link and one self-provide. *)
Example named_application_record :
  pool <$> run (ext:=demo) doc_named_application demo_init
  = Some [mkSolvable (pool_str2id (lit "application:Foo"))
            (IdStr (lit "noarch")) (IdStr [])
            [pool_str2id (lit "foo")]
            [pool_str2id (lit "application-appdata(foo)");
             pool_rel2id (pool_str2id (lit "application:Foo")) (IdStr []) 2]].
Proof. vm_compute. reflexivity. Qed.

(** * Examples for the further properties *)

Lemma guess_filename_recognized_witness :
  guess_filename_from_id (lit "foo.desktop") = Some (lit "foo.appdata.xml")
  ∧ guess_filename_from_id (lit "DejaVu.ttf") = Some (lit "DejaVu.metainfo.xml").
Proof.
  split.
  - destruct (guess_filename_recognized (lit "foo")) as [H _];
      [by apply (bool_decide_unpack _)|exact H].
  - destruct (guess_filename_recognized (lit "DejaVu")) as (_ & H & _);
      [by apply (bool_decide_unpack _)|exact H].
Defined.

Lemma wsstrip_idempotent_witness :
  ∃ pd1 pd2,
    wsstrip (demo_pd STATE_P (lit "  two   words ")) = Some pd1
    ∧ c_str (content pd1) = Some (lit "two words")
    ∧ wsstrip pd1 = Some pd2
    ∧ c_str (content pd2) = Some (lit "two words").
Proof.
  destruct (wsstrip_idempotent (demo_pd STATE_P (lit "  two   words "))
              (lit "  two   words "))
    as (pd1 & pd2 & out & H1 & H2 & _ & H3 & H4 & _); [reflexivity|].
  exists pd1, pd2. split; [exact H1|].
  assert (out = lit "two words") as ->.
  { vm_compute in H1. injection H1 as <-. vm_compute in H2. by injection H2. }
  done.
Defined.

Lemma unknown_subtree_keeps_only_text_witness :
  ∃ pd',
    run (ext:=demo)
      (events_of (Elem (lit "b") [] [Txt (lit "wor"); Elem (lit "p") [] [];
                                     Txt (lit "ld")]))
      (demo_pd STATE_P (lit "Hello ")) = Some pd'
    ∧ c_str (content pd') = Some (lit "Hello world")
    ∧ pstate pd' = STATE_P ∧ depth pd' = 2%Z.
Proof.
  rewrite (unknown_subtree_keeps_only_text (ext:=demo))
    by (right; split; [reflexivity|vm_compute; reflexivity]).
  eexists. split; [vm_compute; reflexivity|]. repeat split.
Defined.

Lemma lang_subtree_is_skipped_witness :
  run (ext:=demo)
    (events_of
       (Elem (lit "description") lang_de
          [Elem (lit "p") [] [Txt (lit "Hallo")];
           Elem (lit "ul") [] [Elem (lit "li") [] [Txt (lit "x")]]]))
    (demo_pd STATE_APPLICATION [])
  = Some (set_docontent (reset_buf (demo_pd STATE_APPLICATION [])) false).
Proof.
  apply (lang_subtree_is_skipped (ext:=demo) (demo_pd STATE_APPLICATION [])
           (lit "description") lang_de _
           (sw STATE_APPLICATION "description" STATE_DESCRIPTION false)).
  - reflexivity.
  - reflexivity.
  - vm_compute. discriminate.
  - vm_compute. lia.
  - vm_compute. reflexivity.
  - eexists. reflexivity.
Defined.


Lemma paragraph_close_witness :
  ∃ pd',
    endElement (ext:=demo) (demo_pd STATE_P (lit " Line   one. "))
      (lit "p") = Some pd'
    ∧ description pd' = Some (lit "Line one." ++ [NL; NL]).
Proof.
  destruct (paragraph_close (ext:=demo) (demo_pd STATE_P (lit " Line   one. "))
              (lit "p") (lit " Line   one. "))
    as (pd' & H & Hdesc & _); try reflexivity.
  exists pd'. split; [exact H|]. rewrite Hdesc. reflexivity.
Defined.

Lemma unordered_item_close_witness :
  ∃ pd',
    endElement (ext:=demo) (demo_pd STATE_UL_LI (lit "Item A"))
      (lit "li") = Some pd'
    ∧ description pd' = Some (lit "  - Item A" ++ [NL]).
Proof.
  destruct (unordered_item_close (ext:=demo)
              (demo_pd STATE_UL_LI (lit "Item A")) (lit "li") (lit "Item A"))
    as (pd' & H & _ & _ & Hdesc & _); try reflexivity.
  - vm_compute. discriminate.
  - exists pd'. split; [exact H|]. rewrite Hdesc; [reflexivity|].
    by apply (bool_decide_unpack _).
Defined.


(** The description of the scenario as it is written to the record. *)
Example description_scenario :
  (λ pd', data pd' 0 SOLVABLE_DESCRIPTION)
    <$> run (ext:=demo) (description_events blocks_scenario)
          (demo_pd STATE_APPLICATION [])
  = Some (Some (AttrStr (lit "Line one." ++ [NL; NL] ++ lit "  - Item A"
                         ++ [NL] ++ lit "  - Item B"))).
Proof. vm_compute. reflexivity. Qed.

Lemma pkgname_suppresses_links_witness :
  ∃ pd' s',
    endElement (ext:=demo)
      (demo_pd_links
         (mkSolvable ID_NULL ID_NULL ID_NULL [pool_str2id (lit "foo")] [])
         (Some (lit "foo.appdata.xml")) (Some [0]))
      (lit "application") = Some pd'
    ∧ pool pd' !! 1 = Some s'
    ∧ requires s' = [pool_str2id (lit "foo")].
Proof.
  destruct (pkgname_suppresses_links (ext:=demo)
              (demo_pd_links
                 (mkSolvable ID_NULL ID_NULL ID_NULL
                    [pool_str2id (lit "foo")] [])
                 (Some (lit "foo.appdata.xml")) (Some [0]))
              (lit "application") 1
              (mkSolvable ID_NULL ID_NULL ID_NULL [pool_str2id (lit "foo")] []))
    as (pd' & s' & H & Hp & Hr & _); try reflexivity.
  - discriminate.
  - by exists pd', s'.
Defined.

Lemma file_link_witness :
  ∃ pd' s',
    endElement (ext:=demo)
      (demo_pd_links new_solvable (Some (lit "foo.appdata.xml")) None)
      (lit "application") = Some pd'
    ∧ pool pd' !! 1 = Some s'
    ∧ requires s' = [pool_str2id (lit "appdata(foo.appdata.xml)")].
Proof.
  destruct (file_link (ext:=demo)
              (demo_pd_links new_solvable (Some (lit "foo.appdata.xml")) None)
              (lit "application") 1 new_solvable (lit "foo.appdata.xml"))
    as (pd' & s' & H & Hp & Hr & _); try reflexivity.
  - by left.
  - by exists pd', s'.
Defined.

Lemma owner_links_at_close_witness :
  ∃ pd' s',
    endElement (ext:=demo)
      (demo_pd_links new_solvable (Some (lit "foo.appdata.xml")) (Some [0]))
      (lit "application") = Some pd'
    ∧ pool pd' !! 1 = Some s'
    ∧ requires s' = [pool_str2id (lit "pkg")].
Proof.
  destruct (owner_links_at_close (ext:=demo)
              (demo_pd_links new_solvable (Some (lit "foo.appdata.xml"))
                 (Some [0]))
              (lit "application") 1 new_solvable 0 []
              [pool_str2id (lit "pkg")])
    as (pd' & s' & H & Hp & Hr & _); try reflexivity.
  - by apply (bool_decide_unpack _).
  - repeat constructor.
  - by exists pd', s'.
Defined.

Lemma desktop_file_only_fills_gaps_witness :
  ∃ dat',
    add_missing_tags_from_desktop_file (ext:=demo)
      (demo_pd STATE_APPLICATION []) (pool_str2id (lit "application:Given"))
      (lit "demo.desktop")
    = (pool_str2id (lit "application:Given"), true, dat')
    ∧ dat' 0 SOLVABLE_SUMMARY = Some (AttrStr (lit "A demo"))
    ∧ ∀ h k, h ≠ 0 ∨ k ≠ SOLVABLE_SUMMARY → dat' h k = None.
Proof.
  eexists. split; [vm_compute; reflexivity|]. split; [reflexivity|].
  apply (desktop_file_only_fills_gaps (ext:=demo)
           (demo_pd STATE_APPLICATION [])
           (pool_str2id (lit "application:Given")) (lit "demo.desktop")
           (pool_str2id (lit "application:Given")) true).
  vm_compute. reflexivity.
Defined.

Lemma desktop_entry_fills_name_and_summary_witness :
  add_missing_tags_from_desktop_file (ext:=demo2)
    (demo_pd STATE_APPLICATION []) ID_NULL (lit "demo2.desktop")
  = (pool_str2id (lit "application:Demo"), true,
     repodata_set_str (λ _ _, None) 0 SOLVABLE_SUMMARY (lit "A demo")).
Proof.
  apply (desktop_entry_fills_name_and_summary (ext:=demo2)
           (demo_pd STATE_APPLICATION []) (lit "demo2.desktop")
           (lit "Demo") (lit "A demo") (lit "Icon=demo" ++ [NL])).
  - by apply (bool_decide_unpack _).
  - by apply (bool_decide_unpack _).
  - reflexivity.
  - vm_compute. reflexivity.
Defined.

Lemma arch_evr_defaults_witness :
  ∃ pd' s',
    endElement (ext:=demo) (demo_pd STATE_APPLICATION [])
      (lit "application") = Some pd'
    ∧ pool pd' !! 0 = Some s'
    ∧ arch s' = IdStr (lit "noarch") ∧ evr s' = IdStr [].
Proof.
  destruct (arch_evr_defaults (ext:=demo) (demo_pd STATE_APPLICATION [])
              (lit "application") 0 new_solvable)
    as (pd' & s' & H & Hp & Ha & He & _); try reflexivity.
  by exists pd', s'.
Defined.

Lemma name_from_desktop_id_witness :
  ∃ pd' s',
    endElement (ext:=demo)
      (set_desktop_file (demo_pd STATE_APPLICATION [])
         (Some (lit "foo.desktop")))
      (lit "application") = Some pd'
    ∧ pool pd' !! 0 = Some s'
    ∧ name s' = pool_str2id (lit "application:foo").
Proof.
  destruct (name_from_desktop_id (ext:=demo)
              (set_desktop_file (demo_pd STATE_APPLICATION [])
                 (Some (lit "foo.desktop")))
              (lit "application") 0 new_solvable (lit "foo.desktop"))
    as (pd' & s' & H & Hp & Hn & _); try reflexivity.
  exists pd', s'. split; [exact H|]. split; [exact Hp|].
  by apply (Hn (lit "foo")).
Defined.

Lemma explicit_name_is_kept_witness :
  ∃ pd' s',
    endElement (ext:=demo)
      (demo_pd_links
         (mkSolvable (pool_str2id (lit "application:Foo")) ID_NULL ID_NULL
            [] [])
         None None)
      (lit "application") = Some pd'
    ∧ pool pd' !! 1 = Some s'
    ∧ name s' = pool_str2id (lit "application:Foo").
Proof.
  destruct (explicit_name_is_kept (ext:=demo)
              (demo_pd_links
                 (mkSolvable (pool_str2id (lit "application:Foo")) ID_NULL
                    ID_NULL [] [])
                 None None)
              (lit "application") 1
              (mkSolvable (pool_str2id (lit "application:Foo")) ID_NULL
                 ID_NULL [] []))
    as (pd' & s' & H & Hp & Hn); try reflexivity.
  - discriminate.
  - by exists pd', s'.
Defined.

Lemma handler_touches_only_its_record_witness :
  ∃ pd',
    handle_event (ext:=demo) demo_init (Start (lit "application") [])
    = Some pd'
    ∧ pool pd' = pool demo_init ++ [new_solvable]
    ∧ solvable pd' = Some (length (pool demo_init)).
Proof.
  eexists. split; [vm_compute; reflexivity|].
  destruct (handler_touches_only_its_record (ext:=demo) demo_init
              (Start (lit "application") []) _
              ltac:(vm_compute; reflexivity))
    as [[H _]|[(i & s' & H & _)|H]].
  - discriminate H.
  - discriminate H.
  - exact H.
Defined.

Lemma existing_records_untouched_witness :
  ∃ pd,
    run (ext:=demo) doc_named_application
      (init_parsedata (ext:=demo)
         [mkSolvable (pool_str2id (lit "pkg")) ID_NULL ID_NULL [] []]
         (λ _ _, None) 0 None (Some [0])) = Some pd
    ∧ ∃ new,
        pool pd
        = [mkSolvable (pool_str2id (lit "pkg")) ID_NULL ID_NULL [] []] ++ new.
Proof.
  eexists. split; [vm_compute; reflexivity|].
  apply (existing_records_untouched (ext:=demo)
           [mkSolvable (pool_str2id (lit "pkg")) ID_NULL ID_NULL [] []]
           (λ _ _, None) 0%Z None (Some [0]) doc_named_application).
  vm_compute. reflexivity.
Defined.

Lemma dir_owners_found_witness :
  dir_owners (λ _, true)
    (search_uninternalized_filelist
       [[(7, [lit "bar.appdata.xml"; lit "bar.desktop"]);
         (9, [lit "bar.appdata.xml"])]] [])
    (lit "bar.appdata.xml")
  = Some [7; 9].
Proof.
  rewrite dir_owners_found; [reflexivity| |reflexivity].
  intros ? ? ? _ _ _ _. reflexivity.
Defined.

Lemma text_pieces_accumulate_witness :
  ∃ b,
    run (ext:=demo) [Text (lit "wor"); Text (lit "ld")]
      (demo_pd STATE_P (lit "Hello "))
    = Some (set_buf (demo_pd STATE_P (lit "Hello ")) b 11 (length b))
    ∧ c_str b = Some (lit "Hello world").
Proof.
  destruct (text_pieces_accumulate (ext:=demo) (demo_pd STATE_P (lit "Hello "))
              (lit "Hello ") [lit "wor"; lit "ld"]) as [H _];
    try reflexivity.
  - by apply (bool_decide_unpack _).
  - destruct (H eq_refl) as (b & H1 & H2 & _). exists b.
    split; [exact H1|exact H2].
Defined.

Lemma pkgname_element_witness :
  ∃ pd' s',
    run (ext:=demo) (pkgname_events [lit "foo"])
      (demo_pd STATE_APPLICATION []) = Some pd'
    ∧ cur_solvable pd' = Some (0, s')
    ∧ requires s' = [pool_str2id (lit "foo")]
    ∧ provides s' = [pool_str2id (lit "application-appdata(foo)")].
Proof.
  destruct (pkgname_element (ext:=demo) (demo_pd STATE_APPLICATION [])
              [lit "foo"] 0 new_solvable)
    as (pd' & s' & H & _ & Hc & _ & Hr & Hp & _).
  - repeat split; try reflexivity. vm_compute. lia.
  - reflexivity.
  - by apply (bool_decide_unpack _).
  - exists pd', s'. split; [exact H|]. split; [exact Hc|].
    split; [rewrite Hr|rewrite Hp]; reflexivity.
Defined.

Lemma element_is_balanced_witness :
  ∃ pd',
    run (ext:=demo) (events_of doc_components) demo_init = Some pd'
    ∧ depth pd' = 0%Z ∧ statedepth pd' = 0%Z
    ∧ pstate pd' = STATE_START ∧ skip_depth pd' = 0%Z.
Proof.
  eexists. split; [vm_compute; reflexivity|].
  apply (element_is_balanced (ext:=demo) doc_components demo_init).
  - vm_compute. discriminate.
  - vm_compute. discriminate.
  - left. reflexivity.
  - vm_compute. reflexivity.
Defined.

Lemma no_record_left_open_witness :
  ∃ pd',
    run (ext:=demo) (events_of doc_components) demo_init = Some pd'
    ∧ length (pool pd') = 2 + length (pool demo_init)
    ∧ pstate pd' = STATE_START ∧ solvable pd' = None.
Proof.
  eexists. split; [vm_compute; reflexivity|].
  split; [vm_compute; reflexivity|].
  apply (no_record_left_open (ext:=demo) doc_components demo_init).
  - reflexivity.
  - vm_compute. discriminate.
  - vm_compute. discriminate.
  - reflexivity.
  - reflexivity.
  - vm_compute. reflexivity.
Defined.

Lemma markup_in_captured_text_witness :
  description
    <$> run (ext:=demo)
          (events_of
             (Elem (lit "p") []
                [Txt (lit "a "); Elem (lit "b") [] [Txt (lit "bold")];
                 Txt (lit " c")]))
          (demo_pd STATE_DESCRIPTION [])
  = Some (Some (lit "a bold c" ++ [NL; NL])).
Proof.
  rewrite (markup_in_captured_text (ext:=demo) (demo_pd STATE_DESCRIPTION [])
             (lit "p") [] _ (sw STATE_DESCRIPTION "p" STATE_P true)).
  - vm_compute. reflexivity.
  - reflexivity.
  - vm_compute. reflexivity.
  - vm_compute. reflexivity.
Defined.

(** ** The provides at the close, siblings, and blank items *)

Lemma self_provide_on_close_witness :
  ∃ pd,
    run (ext:=demo) doc_named_application_open demo_init = Some pd
    ∧ ∃ pd' s' links,
        endElement (ext:=demo) pd (lit "application") = Some pd'
        ∧ pool pd' !! 0 = Some s'
        ∧ name s' = pool_str2id (lit "application:Foo")
        ∧ provides s'
          = [pool_str2id (lit "application-appdata(foo)")] ++ links
            ++ [pool_rel2id (name s') (evr s') (REL_EQ (Externals:=demo))].
Proof.
  eexists. split; [vm_compute; reflexivity|].
  match goal with
  | |- ∃ pd' s' links, endElement ?pd _ = _ ∧ _ =>
    destruct (self_provide_on_close (ext:=demo) [] (λ _ _, None) 0%Z None
                None doc_named_application_open pd (lit "application") 0
                (mkSolvable (pool_str2id (lit "application:Foo")) ID_NULL
                   ID_NULL [pool_str2id (lit "foo")]
                   [pool_str2id (lit "application-appdata(foo)")]))
      as (pd' & s' & links & Hend & Hlook & _ & Hn & _ & Ha & _ & _ & _
          & Hprov & _)
  end.
  - exact I.
  - vm_compute. reflexivity.
  - reflexivity.
  - reflexivity.
  - reflexivity.
  - reflexivity.
  - exists pd', s', links. split; [exact Hend|]. split; [exact Hlook|].
    assert (name s' = pool_str2id (lit "application:Foo")) as Hname.
    { apply Hn. discriminate. }
    split; [exact Hname|].
    rewrite Hprov. rewrite decide_True; [reflexivity|].
    rewrite Hname, Ha. cbn [arch]. rewrite decide_True by reflexivity.
    split; [discriminate|]. split; vm_compute; discriminate.
Defined.



(** ** A document that is processed to its end *)

Lemma well_formed_document_is_processed_witness :
  ∃ pd',
    run (ext:=demo) (events_of doc_long_list) demo_init = Some pd'
    ∧ pstate pd' = STATE_START ∧ depth pd' = 0%Z.
Proof.
  apply (well_formed_document_is_processed (ext:=demo) doc_long_list []
           (λ _ _, None) 0%Z None None).
  - vm_compute. reflexivity.
  - exact I.
Defined.
